(** * Transformer notebooks: attention, positional encoding, BERT evaluation

    A shallow embedding of the numeric code of the notebooks
    [03_Transformer_Architecture.ipynb] (self-attention, positional encoding,
    masked multi-head attention, the encoder/decoder stack) and of the BERT
    sentiment notebook (tokenisation, data set and loaders, training and
    evaluation loops).

    Modelling conventions.
    - A tensor element is a [float]: a real number, an infinity or NaN.
      Arithmetic is float32 arithmetic without its rounding error: the
      result of an addition, a multiplication or an exponential is the exact
      real result when that lies inside the float32 range, and the infinity
      of its sign from the overflow threshold [2^128 - 2^103] on.
      Infinities and NaN then propagate as in IEEE arithmetic ([x / 0],
      [0 * inf], [inf - inf], softmax of a row with [+inf] or of a row that
      is entirely [-inf]).  The rounding of a result to 24 significant bits
      is not modelled: where a statement below gives a result as a real
      number, float32 gives that number up to rounding.
    - A tensor is its shape together with its rows.  The attention and
      positional-encoding code is embedded on one batch entry (a matrix
      [seq x dim]); torch applies it to every batch entry independently.
    - The inputs and the parameters of the modules are real-valued; the
      statements quantify over real tensors ([rtab], [rtab3]).  Results may
      be infinite or NaN.
    - Python exceptions are [None]; Python integers are [Z].
    - The random generator used by dropout is the stream of keep/drop
      decisions it is going to produce. *)

From Stdlib Require Import Reals List Lia Lra ZArith Bool Arith.
From Stdlib Require String.
Import ListNotations.
Open Scope R_scope.

Set Implicit Arguments.

(** ** Floats *)

Inductive float : Type :=
| Fin (r : R)
| PosInf
| NegInf
| NaN.

(** The overflow threshold of float32 under rounding to nearest:
    [2^128 - 2^103], half a unit in the last place above the largest
    float32. *)
Definition overflow_threshold : R := 340282356779733661637539395458142568448.

(** The float32 result of an operation whose exact result is [x]: an
    infinity from the overflow threshold on. *)
Definition to_float32 (x : R) : float :=
  if Rle_dec overflow_threshold x then PosInf
  else if Rle_dec x (- overflow_threshold) then NegInf
  else Fin x.

Definition fadd (a b : float) : float :=
  match a, b with
  | NaN, _ | _, NaN => NaN
  | Fin x, Fin y => to_float32 (x + y)
  | PosInf, NegInf | NegInf, PosInf => NaN
  | PosInf, _ | _, PosInf => PosInf
  | NegInf, _ | _, NegInf => NegInf
  end.

Definition fneg (a : float) : float :=
  match a with
  | Fin x => Fin (- x)
  | PosInf => NegInf
  | NegInf => PosInf
  | NaN => NaN
  end.

(** Sign of a non-zero real, used for products and quotients with an
    infinity: [PosInf] when positive, [NegInf] when negative. *)
Definition inf_of_sign (x : R) : float :=
  if Req_dec_T x 0 then NaN
  else if Rlt_dec 0 x then PosInf else NegInf.

Definition fmul (a b : float) : float :=
  match a, b with
  | NaN, _ | _, NaN => NaN
  | Fin x, Fin y => to_float32 (x * y)
  | PosInf, Fin y | Fin y, PosInf => inf_of_sign y
  | NegInf, Fin y | Fin y, NegInf => inf_of_sign (- y)
  | PosInf, PosInf | NegInf, NegInf => PosInf
  | PosInf, NegInf | NegInf, PosInf => NegInf
  end.

(** [x / s] for a Python scalar [s]; a zero divisor gives NaN or an
    infinity, never an exception. *)
Definition fdiv_scalar (a : float) (s : R) : float :=
  if Req_dec_T s 0 then
    match a with
    | Fin x => inf_of_sign x
    | PosInf => PosInf
    | NegInf => NegInf
    | NaN => NaN
    end
  else fmul a (Fin (/ s)).

Definition fsum (l : list float) : float := fold_right fadd (Fin 0) l.

Definition rsum (l : list R) : R := fold_right Rplus 0 l.

(** Sum of [f 0, ..., f (n-1)]. *)
Definition rsum_n (n : nat) (f : nat -> R) : R := rsum (map f (seq 0 n)).
Definition fsum_n (n : nat) (f : nat -> float) : float := fsum (map f (seq 0 n)).

(** ** Tensors *)

Record Tensor (A : Type) : Type := mkTensor {
  nrows : nat;
  ncols : nat;
  entry : list (list A)
}.

Definition shape {A} (T : Tensor A) : nat * nat := (nrows T, ncols T).

Definition get {A} (d : A) (T : Tensor A) (i j : nat) : A :=
  nth j (nth i (entry T) []) d.

(** The tensor of the given shape whose entry [(i, j)] is [f i j]. *)
Definition tab {A} (m n : nat) (f : nat -> nat -> A) : Tensor A :=
  mkTensor m n (map (fun i => map (f i) (seq 0 n)) (seq 0 m)).

Definition wf {A} (T : Tensor A) : Prop :=
  length (entry T) = nrows T /\
  Forall (fun r => length r = ncols T) (entry T).

Definition fget := get NaN.

(** A tensor all of whose entries are real numbers. *)
Definition rtab (m n : nat) (f : nat -> nat -> R) : Tensor float :=
  tab m n (fun i j => Fin (f i j)).

Definition row {A} (T : Tensor A) (i : nat) : list A := nth i (entry T) [].

(** ** torch primitives *)

(** [x.transpose(-2, -1)] *)
Definition transpose (T : Tensor float) : Tensor float :=
  tab (ncols T) (nrows T) (fun i j => fget T j i).

(** [torch.matmul(a, b)] on matrices; raises when the inner sizes differ. *)
Definition matmul (a b : Tensor float) : option (Tensor float) :=
  if (ncols a =? nrows b)%nat then
    Some (tab (nrows a) (ncols b)
            (fun i j => fsum_n (ncols a) (fun k => fmul (fget a i k) (fget b k j))))
  else None.

(** [t / s] for a scalar (or one-element tensor) [s]. *)
Definition div_scalar (T : Tensor float) (s : R) : Tensor float :=
  tab (nrows T) (ncols T) (fun i j => fdiv_scalar (fget T i j) s).

Definition is_fin (a : float) : bool :=
  match a with Fin _ => true | _ => false end.

Definition is_neginf (a : float) : bool :=
  match a with NegInf => true | _ => false end.

(** [exp] of a score that is real or [-inf]. *)
Definition fexp (a : float) : R :=
  match a with Fin x => exp x | _ => 0 end.

(** A row on which softmax is a number: no NaN, no [+inf], and, unless the
    row is empty, at least one entry that is not [-inf]. *)
Definition regular (xs : list float) : bool :=
  forallb (fun a => is_fin a || is_neginf a) xs &&
  (existsb is_fin xs || (length xs =? 0)%nat).

(** [F.softmax] along one row: [exp x_j / sum_l exp x_l], where
    [exp (-inf) = 0]; a row that is not [regular] comes out as NaN.  The
    library subtracts the greatest score of the row before it
    exponentiates, so nothing overflows on a regular row: every weight lies
    between 0 and 1. *)
Definition softmax_row (xs : list float) : list float :=
  if regular xs then
    map (fun a => Fin (fexp a / rsum (map fexp xs))) xs
  else map (fun _ => NaN) xs.

(** [F.softmax(t, dim=-1)] *)
Definition softmax (T : Tensor float) : Tensor float :=
  mkTensor (nrows T) (ncols T) (map softmax_row (entry T)).

(** Exceptions: [None] is a raised Python exception. *)
Notation "x <- c ;; k" := (match c with Some x => k | None => None end)
  (at level 61, c at next level, right associativity).

(** Broadcasting of one axis: two sizes are compatible when they are equal
    or one of them is 1. *)
Definition bsize (a b : nat) : option nat :=
  if (a =? b)%nat then Some a
  else if (a =? 1)%nat then Some b
  else if (b =? 1)%nat then Some a
  else None.

(** Index into an axis of size [a] that may have been stretched. *)
Definition bidx (a i : nat) : nat := if (a =? 1)%nat then 0%nat else i.

Definition bget {A} (d : A) (T : Tensor A) (i j : nat) : A :=
  get d T (bidx (nrows T) i) (bidx (ncols T) j).

(** [t.expand(m, n)]: only axes of size 1 can be stretched. *)
Definition expand {A} (d : A) (T : Tensor A) (m n : nat) : option (Tensor A) :=
  if ((nrows T =? m) || (nrows T =? 1))%nat && ((ncols T =? n) || (ncols T =? 1))%nat
  then Some (tab m n (bget d T))
  else None.

(** An element-wise binary operation with broadcasting. *)
Definition broadcast2 {A B C} (da : A) (db : B) (f : A -> B -> C)
    (a : Tensor A) (b : Tensor B) : option (Tensor C) :=
  m <- bsize (nrows a) (nrows b) ;;
  n <- bsize (ncols a) (ncols b) ;;
  Some (tab m n (fun i j => f (bget da a i j) (bget db b i j))).

(** [a + b], [a * b] *)
Definition add : Tensor float -> Tensor float -> option (Tensor float) :=
  broadcast2 NaN NaN fadd.
Definition mul : Tensor float -> Tensor float -> option (Tensor float) :=
  broadcast2 NaN NaN fmul.

Definition tmap {A B} (f : A -> B) (T : Tensor A) : Tensor B :=
  mkTensor (nrows T) (ncols T) (map (map f) (entry T)).

(** [scores.masked_fill(m, v)]: [v] where [m] holds, with broadcasting. *)
Definition masked_fill (T : Tensor float) (m : Tensor bool) (v : float)
    : option (Tensor float) :=
  broadcast2 NaN false (fun x (b : bool) => if b then v else x) T m.

(** [mask == 0] on a boolean mask. *)
Definition eq0 (m : Tensor bool) : Tensor bool := tmap negb m.

(** [torch.tril(torch.ones(n, n))] as a boolean mask. *)
Definition tril (n : nat) : Tensor bool := tab n n (fun i j => (j <=? i)%nat).

(** The random generator: the stream of keep ([true]) / drop decisions it
    produces and the number of decisions already drawn. *)
Record rng : Type := mkRng {
  stream : nat -> bool;
  drawn : nat
}.

(** The [k]-th decision to come. *)
Definition draw (g : rng) (k : nat) : bool := stream g (drawn g + k).

Definition advance (n : nat) (g : rng) : rng := mkRng (stream g) (drawn g + n).

(** [nn.Dropout(p)]: in training mode every element is kept with
    probability [1 - p] and scaled by [1 / (1 - p)], or zeroed; in
    evaluation mode it is the identity and draws nothing. *)
Definition dropout (p : R) (training : bool) (T : Tensor float) (g : rng)
    : Tensor float * rng :=
  if training then
    (tab (nrows T) (ncols T)
       (fun i j => fmul (fget T i j)
                     (Fin (if draw g (i * ncols T + j) then / (1 - p) else 0))),
     advance (nrows T * ncols T) g)
  else (T, g).

(** ** Cell 5: [self_attention] *)

(** [dimension = torch.sqrt(torch.Tensor([K.shape[-1]]))] *)
Definition dimension (K : Tensor float) : R := sqrt (INR (ncols K)).

(** [scores = torch.matmul(Q, K.transpose(-2,-1)) / dimension] *)
Definition self_attention_scores (Q K : Tensor float) : option (Tensor float) :=
  match matmul Q (transpose K) with
  | Some qk => Some (div_scalar qk (dimension K))
  | None => None
  end.

(** [weights = F.softmax(scores, dim=-1)] *)
Definition self_attention_weights (Q K : Tensor float) : option (Tensor float) :=
  match self_attention_scores Q K with
  | Some scores => Some (softmax scores)
  | None => None
  end.

(** [output = torch.matmul(weights, V)] *)
Definition self_attention (Q K V : Tensor float) : option (Tensor float) :=
  match self_attention_weights Q K with
  | Some weights => matmul weights V
  | None => None
  end.

(** ** Cell 9: [PositionalEncoding] *)

(** [torch.zeros(m, n)]; a negative size raises. *)
Definition zeros (m n : Z) : option (Tensor float) :=
  if ((0 <=? m) && (0 <=? n))%Z
  then Some (tab (Z.to_nat m) (Z.to_nat n) (fun _ _ => Fin 0))
  else None.

(** [math.log(x)]; raises [ValueError] unless [x] is positive. *)
Definition math_log (x : R) : option R :=
  if Rlt_dec 0 x then Some (ln x) else None.

(** Python [a / b] for a float [a] and an int [b]; raises
    [ZeroDivisionError] when [b] is 0. *)
Definition py_div (a : R) (b : Z) : option R :=
  if (b =? 0)%Z then None else Some (a / IZR b).

(** [torch.arange(0, n).unsqueeze(1)]: a column. *)
Definition arange_col (n : nat) : Tensor float :=
  tab n 1 (fun i _ => Fin (INR i)).

(** [torch.arange(0, n, 2)], as a row; it has [ceil (n / 2)] entries. *)
Definition arange2_row (n : nat) : Tensor float :=
  tab 1 (Nat.div2 (n + 1)) (fun _ t => Fin (INR (2 * t))).

(** [t * c] for a Python scalar [c]. *)
Definition scale (T : Tensor float) (c : R) : Tensor float :=
  tmap (fun a => fmul a (Fin c)) T.

Definition texp_elt (a : float) : float :=
  match a with
  | Fin x => to_float32 (exp x)
  | PosInf => PosInf
  | NegInf => Fin 0
  | NaN => NaN
  end.

Definition tsin_elt (a : float) : float :=
  match a with Fin x => Fin (sin x) | _ => NaN end.

Definition tcos_elt (a : float) : float :=
  match a with Fin x => Fin (cos x) | _ => NaN end.

(** Number of columns selected by the slice [start::2]. *)
Definition slice2_count (n start : nat) : nat := Nat.div2 (n - start + 1).

(** [t[:, start::2] = v]: the value is expanded to the shape of the
    selected columns, which raises when it cannot be. *)
Definition setitem_cols2 (T : Tensor float) (start : nat) (v : Tensor float)
    : option (Tensor float) :=
  v' <- expand NaN v (nrows T) (slice2_count (ncols T) start) ;;
  Some (tab (nrows T) (ncols T)
          (fun i c =>
             if (start <=? c)%nat && Nat.even (c - start)
             then fget v' i (Nat.div2 (c - start))
             else fget T i c)).

Record PositionalEncoding : Type := mkPositionalEncoding {
  encoding : Tensor float  (* [self.encoding], a [max_len x d_model] table *)
}.

(** [PositionalEncoding.__init__(d_model, max_len=5000, l=10000)] *)
Definition PositionalEncoding_init (d_model max_len : Z) (l : R)
    : option PositionalEncoding :=
  enc <- zeros max_len d_model ;;
  let positions := arange_col (Z.to_nat max_len) in
  logl <- math_log l ;;
  c <- py_div logl d_model ;;
  let div_term := tmap texp_elt (scale (arange2_row (Z.to_nat d_model)) (- c)) in
  pd <- mul positions div_term ;;
  enc <- setitem_cols2 enc 0 (tmap tsin_elt pd) ;;
  pd <- mul positions div_term ;;
  enc <- setitem_cols2 enc 1 (tmap tcos_elt pd) ;;
  Some (mkPositionalEncoding enc).

Definition default_max_len : Z := 5000.
Definition default_l : R := 10000.

(** [self.encoding[:, :n]] *)
Definition first_rows (T : Tensor float) (n : nat) : Tensor float :=
  tab (Nat.min n (nrows T)) (ncols T) (fget T).

(** [PositionalEncoding.forward(x)], [x.size(1)] being the sequence length. *)
Definition PositionalEncoding_forward (pe : PositionalEncoding)
    (x : Tensor float) : option (Tensor float) :=
  add x (first_rows (encoding pe) (nrows x)).

(** The table of the specification: [sin (pos / l^(2i/d_model))] at the
    even channel [2i] and [cos (pos / l^(2i/d_model))] at the odd channel
    [2i + 1]. *)
Definition pe_table (l : R) (d_model : Z) (pos c : nat) : R :=
  if Nat.even c then sin (INR pos / Rpower l (INR c / IZR d_model))
  else cos (INR pos / Rpower l (INR (c - 1) / IZR d_model)).

(** The table as the code computes it, entry by entry: [div_term] at the
    channel pair, times the position, through the sine or the cosine. *)
Definition pe_entry (l : R) (d_model : Z) (pos c : nat) : float :=
  let div_term := fun t =>
    texp_elt (fmul (Fin (INR (2 * t))) (Fin (- (ln l / IZR d_model)))) in
  if Nat.even c then tsin_elt (fmul (Fin (INR pos)) (div_term (Nat.div2 c)))
  else tcos_elt (fmul (Fin (INR pos)) (div_term (Nat.div2 (c - 1)))).

(** Nothing overflows while the table is computed: [log l] is inside the
    range, and so is the greatest position times the greatest entry of
    [div_term], which is below [1] for [l >= 1] and below [1 / l]
    otherwise. *)
Definition encoding_in_range (max_len : Z) (l : R) : Prop :=
  Rabs (ln l) < overflow_threshold /\
  Rmax 1 (IZR max_len) * Rmax 1 (/ l) < overflow_threshold.

(** ** Cell 17: [MaskedMultiHeadAttention] *)

(** [nn.Linear]: [weight] is [out_features x in_features], [bias] a row. *)
Record Linear : Type := mkLinear {
  in_features : nat;
  out_features : nat;
  weight : Tensor float;
  bias : Tensor float
}.

(** The values a freshly constructed [nn.Linear] is initialised with. *)
Record LinearInit : Type := mkLinearInit {
  init_weight : nat -> nat -> R;
  init_bias : nat -> R
}.

(** [nn.Linear(i, o)]; a negative size raises. *)
Definition Linear_init (i o : Z) (w : LinearInit) : option Linear :=
  if ((0 <=? i) && (0 <=? o))%Z then
    Some (mkLinear (Z.to_nat i) (Z.to_nat o)
            (rtab (Z.to_nat o) (Z.to_nat i) (init_weight w))
            (rtab 1 (Z.to_nat o) (fun _ c => init_bias w c)))
  else None.

(** [F.linear(x, weight, bias)]: [x W^T + b]. *)
Definition Linear_forward (L : Linear) (x : Tensor float) : option (Tensor float) :=
  y <- matmul x (transpose (weight L)) ;;
  add y (bias L).

Record MaskedMultiHeadAttention : Type := mkMaskedMultiHeadAttention {
  d_model : Z;
  nhead : Z;
  head_dim : Z;
  q_linear : Linear;
  k_linear : Linear;
  v_linear : Linear;
  out_linear : Linear;
  training : bool   (* [nn.Module.training]; [True] after construction *)
}.

Record AttentionInit : Type := mkAttentionInit {
  init_q : LinearInit;
  init_k : LinearInit;
  init_v : LinearInit;
  init_out : LinearInit
}.

(** [MaskedMultiHeadAttention.__init__(d_model, nhead)].  [d_model % nhead]
    raises for [nhead = 0]; Python's [%] and [//] are [Z.modulo] and
    [Z.div]. *)
Definition MaskedMultiHeadAttention_init (d_model nhead : Z) (w : AttentionInit)
    : option MaskedMultiHeadAttention :=
  if (nhead =? 0)%Z then None
  else if negb (d_model mod nhead =? 0)%Z then None   (* the assertion *)
  else
    let head_dim := (d_model / nhead)%Z in
    ql <- Linear_init d_model d_model (init_q w) ;;
    kl <- Linear_init d_model d_model (init_k w) ;;
    vl <- Linear_init d_model d_model (init_v w) ;;
    ol <- Linear_init d_model d_model (init_out w) ;;
    Some (mkMaskedMultiHeadAttention d_model nhead head_dim ql kl vl ol true).

(** [x.view(batch_size, -1, nhead, head_dim).permute(0, 2, 1, 3)] on one
    batch entry [x] of shape [seq x (nhead * head_dim)]: the list, head by
    head, of the [seq x head_dim] column blocks.  The view raises for a
    negative size and, the product [nhead * head_dim] being 0, also for a
    zero one (the inferred size is then ambiguous or the sizes do not
    match). *)
Definition shape_heads (nhead head_dim : Z) (x : Tensor float)
    : option (list (Tensor float)) :=
  let H := Z.to_nat nhead in
  let hd := Z.to_nat head_dim in
  if ((0 <? nhead) && (0 <? head_dim))%Z && (ncols x =? H * hd)%nat then
    Some (map (fun h => tab (nrows x) hd (fun i c => fget x i (h * hd + c)))
            (seq 0 H))
  else None.

(** [output.permute(0, 2, 1, 3).contiguous().view(batch_size, -1, d_model)]
    on one batch entry: row [i] is the concatenation of the rows [i] of the
    heads. *)
Definition concat_heads (d_model : Z) (hd : nat) (heads : list (Tensor float))
    : option (Tensor float) :=
  let d := Z.to_nat d_model in
  let empty := tab 0 0 (fun _ _ => NaN) in
  if (0 <? d_model)%Z && (d =? length heads * hd)%nat then
    Some (tab (nrows (nth 0 heads empty)) d
            (fun i c => fget (nth (c / hd) heads empty) i (c mod hd)))
  else None.

(** Apply a fallible function to every element, raising at the first
    failure. *)
Fixpoint mapM {A B} (f : A -> option B) (l : list A) : option (list B) :=
  match l with
  | [] => Some []
  | a :: l' => b <- f a ;; bs <- mapM f l' ;; Some (b :: bs)
  end.

(** Dropout over the heads of one batch entry, in order. *)
Fixpoint dropout_heads (p : R) (training : bool) (l : list (Tensor float))
    (g : rng) : list (Tensor float) * rng :=
  match l with
  | [] => ([], g)
  | T :: l' =>
      let (T', g1) := dropout p training T g in
      let (l'', g2) := dropout_heads p training l' g1 in
      (T' :: l'', g2)
  end.

(** The linear projections [q], [k], [v] of [forward], split into heads. *)
Definition projections (M : MaskedMultiHeadAttention)
    (query key value : Tensor float)
    : option (list (Tensor float) * list (Tensor float) * list (Tensor float)) :=
  q0 <- Linear_forward (q_linear M) query ;;
  q <- shape_heads (nhead M) (head_dim M) q0 ;;
  k0 <- Linear_forward (k_linear M) key ;;
  k <- shape_heads (nhead M) (head_dim M) k0 ;;
  v0 <- Linear_forward (v_linear M) value ;;
  v <- shape_heads (nhead M) (head_dim M) v0 ;;
  Some (q, k, v).

(** [scores = torch.matmul(q, k.transpose(-2, -1)) / (self.head_dim ** 0.5)]
    and, when a mask is given,
    [scores = scores.masked_fill(mask == 0, float('-inf'))]; the mask has
    batch and head axes of size 1, as the notebook builds it. *)
Definition masked_scores (M : MaskedMultiHeadAttention)
    (q k : list (Tensor float)) (mask : option (Tensor bool))
    : option (list (Tensor float)) :=
  scores <- mapM (fun qk : Tensor float * Tensor float =>
                    s <- matmul (fst qk) (transpose (snd qk)) ;;
                    Some (div_scalar s (sqrt (IZR (head_dim M)))))
                 (combine q k) ;;
  match mask with
  | Some m => mapM (fun s => masked_fill s (eq0 m) NegInf) scores
  | None => Some scores
  end.

(** The value of [attn_weights] after
    [attn_weights = F.softmax(scores, dim=-1)], head by head. *)
Definition attention_weights (M : MaskedMultiHeadAttention)
    (query key value : Tensor float) (mask : option (Tensor bool))
    : option (list (Tensor float)) :=
  qkv <- projections M query key value ;;
  let '(q, k, v) := qkv in
  scores <- masked_scores M q k mask ;;
  Some (map softmax scores).

(** [MaskedMultiHeadAttention.forward(query, key, value, mask=None)] on one
    batch entry. *)
Definition MaskedMultiHeadAttention_forward (M : MaskedMultiHeadAttention)
    (query key value : Tensor float) (mask : option (Tensor bool)) (g : rng)
    : option (Tensor float * rng) :=
  qkv <- projections M query key value ;;
  let '(q, k, v) := qkv in
  scores <- masked_scores M q k mask ;;
  let attn_weights := map softmax scores in
  let (attn_weights, g') := dropout_heads (1 / 10) (training M) attn_weights g in
  output <- mapM (fun wv : Tensor float * Tensor float => matmul (fst wv) (snd wv))
                 (combine attn_weights v) ;;
  output <- concat_heads (d_model M) (Z.to_nat (head_dim M)) output ;;
  y <- Linear_forward (out_linear M) output ;;
  Some (y, g').

(** * Cells 13 to 20: the transformer

    The blocks of the transformer work on whole batches
    [(batch, seq, d_model)]: [nn.MultiheadAttention] reads its input as
    [(seq, batch, embed)], so the batch axis cannot be left out here. *)

Record Tensor3 : Type := mkTensor3 {
  size0 : nat;
  size1 : nat;
  size2 : nat;
  planes : list (list (list float))
}.

Definition get3 (T : Tensor3) (b i c : nat) : float :=
  nth c (nth i (nth b (planes T) []) []) NaN.

Definition tab3 (n0 n1 n2 : nat) (f : nat -> nat -> nat -> float) : Tensor3 :=
  mkTensor3 n0 n1 n2
    (map (fun b => map (fun i => map (f b i) (seq 0 n2)) (seq 0 n1)) (seq 0 n0)).

Definition rtab3 (n0 n1 n2 : nat) (f : nat -> nat -> nat -> R) : Tensor3 :=
  tab3 n0 n1 n2 (fun b i c => Fin (f b i c)).

(** [x[b]] *)
Definition plane (T : Tensor3) (b : nat) : Tensor float :=
  tab (size1 T) (size2 T) (get3 T b).

(** [x[:, n]] *)
Definition column_plane (T : Tensor3) (n : nat) : Tensor float :=
  tab (size0 T) (size2 T) (fun l e => get3 T l n e).

(** The first two axes merged, as every operation on the last axis sees
    its input. *)
Definition flatten (T : Tensor3) : Tensor float :=
  tab (size0 T * size1 T) (size2 T)
    (fun r c => get3 T (r / size1 T) (r mod size1 T) c).

Definition unflatten (n0 n1 : nat) (T : Tensor float) : Tensor3 :=
  tab3 n0 n1 (ncols T) (fun b i c => fget T (b * n1 + i) c).

(** Computations that draw random numbers and may raise. *)
Definition Rand (A : Type) : Type := rng -> option (A * rng).

Definition ret {A} (a : A) : Rand A := fun g => Some (a, g).

Definition bind {A B} (c : Rand A) (k : A -> Rand B) : Rand B :=
  fun g => match c g with
           | Some (a, g') => k a g'
           | None => None
           end.

Definition lift {A} (o : option A) : Rand A :=
  fun g => match o with
           | Some a => Some (a, g)
           | None => None
           end.

Notation "x <~ c ;; k" := (bind c (fun x => k))
  (at level 61, c at next level, right associativity).

Fixpoint mapR {A B} (f : A -> Rand B) (l : list A) : Rand (list B) :=
  match l with
  | [] => ret []
  | a :: l' => b <~ f a ;; bs <~ mapR f l' ;; ret (b :: bs)
  end.

(** [a + b] with broadcasting. *)
Definition add3 (a b : Tensor3) : option Tensor3 :=
  n0 <- bsize (size0 a) (size0 b) ;;
  n1 <- bsize (size1 a) (size1 b) ;;
  n2 <- bsize (size2 a) (size2 b) ;;
  Some (tab3 n0 n1 n2
          (fun p i c =>
             fadd (get3 a (bidx (size0 a) p) (bidx (size1 a) i) (bidx (size2 a) c))
                  (get3 b (bidx (size0 b) p) (bidx (size1 b) i) (bidx (size2 b) c)))).

(** [nn.Dropout(p)] on a batch. *)
Definition dropout3 (p : R) (training : bool) (T : Tensor3) : Rand Tensor3 :=
  fun g =>
    if training then
      Some (tab3 (size0 T) (size1 T) (size2 T)
              (fun b i c =>
                 fmul (get3 T b i c)
                   (Fin (if draw g ((b * size1 T + i) * size2 T + c)
                         then / (1 - p) else 0))),
            advance (size0 T * size1 T * size2 T) g)
    else Some (T, g).

(** A layer acting on the last axis, applied to a batch. *)
Definition on_rows (f : Tensor float -> option (Tensor float)) (T : Tensor3)
    : option Tensor3 :=
  y <- f (flatten T) ;;
  Some (unflatten (size0 T) (size1 T) y).

(** [nn.ReLU] *)
Definition relu_elt (a : float) : float :=
  match a with
  | Fin x => Fin (Rmax 0 x)
  | PosInf => PosInf
  | NegInf => Fin 0
  | NaN => NaN
  end.

Definition ReLU_forward (T : Tensor float) : option (Tensor float) :=
  Some (tmap relu_elt T).

(** [nn.LayerNorm(d)]: [eps = 1e-5], trainable scale and shift. *)
Record LayerNorm : Type := mkLayerNorm {
  normalized_shape : nat;
  ln_weight : nat -> R;
  ln_bias : nat -> R
}.

(** [1 / sqrt (var + eps)]: the variance is not negative; an infinite one
    gives 0. *)
Definition rsqrt_eps (a : float) : float :=
  match a with
  | Fin v => Fin (/ sqrt (v + 1 / 100000))
  | PosInf => Fin 0
  | NegInf | NaN => NaN
  end.

(** One row: [(x - mean) / sqrt (var + eps) * weight + bias], the variance
    being the biased one, in the arithmetic of the tensors: a sum or a
    square that overflows makes the variance infinite, and a row with an
    infinity or a NaN comes out as NaN. *)
Definition layer_norm_row (N : LayerNorm) (xs : list float) : list float :=
  let d := INR (length xs) in
  let mean := fdiv_scalar (fsum xs) d in
  let dev := fun a => fadd a (fneg mean) in
  let var := fdiv_scalar (fsum (map (fun a => fmul (dev a) (dev a)) xs)) d in
  let rstd := rsqrt_eps var in
  map (fun ac : float * nat =>
         fadd (fmul (fmul (dev (fst ac)) rstd) (Fin (ln_weight N (snd ac))))
              (Fin (ln_bias N (snd ac))))
      (combine xs (seq 0 (length xs))).

(** [LayerNorm.forward]; raises unless the last axis has the normalised
    size. *)
Definition LayerNorm_forward (N : LayerNorm) (T : Tensor float)
    : option (Tensor float) :=
  if (ncols T =? normalized_shape N)%nat then
    Some (mkTensor (nrows T) (ncols T) (map (layer_norm_row N) (entry T)))
  else None.

(** [nn.MultiheadAttention(embed_dim, num_heads)] with its defaults
    ([dropout = 0.0], [batch_first = False]): the packed input projection
    is kept as its three blocks. *)
Record MultiheadAttention : Type := mkMultiheadAttention {
  embed_dim : Z;
  num_heads : Z;
  in_proj_q : Linear;
  in_proj_k : Linear;
  in_proj_v : Linear;
  out_proj : Linear
}.

(** The constructor raises unless both sizes are positive and [embed_dim]
    is divisible by [num_heads]. *)
Definition MultiheadAttention_init (embed_dim num_heads : Z) (w : AttentionInit)
    : option MultiheadAttention :=
  if ((embed_dim <=? 0) || (num_heads <=? 0))%Z then None
  else if negb (embed_dim / num_heads * num_heads =? embed_dim)%Z then None
  else
    ql <- Linear_init embed_dim embed_dim (init_q w) ;;
    kl <- Linear_init embed_dim embed_dim (init_k w) ;;
    vl <- Linear_init embed_dim embed_dim (init_v w) ;;
    ol <- Linear_init embed_dim embed_dim (init_out w) ;;
    Some (mkMultiheadAttention embed_dim num_heads ql kl vl ol).

(** For one batch entry the library computes the multi-head scaled
    dot-product attention of the notebook's own class, without mask and
    without dropout. *)
Definition as_masked (A : MultiheadAttention) : MaskedMultiHeadAttention :=
  mkMaskedMultiHeadAttention (embed_dim A) (num_heads A)
    (embed_dim A / num_heads A)
    (in_proj_q A) (in_proj_k A) (in_proj_v A) (out_proj A) false.

Definition no_draws : rng := mkRng (fun _ => true) 0.

(** [MultiheadAttention.forward(query, key, value)]: the inputs are
    [(L, N, E)], [(S, N, E)], [(S, N, E)]; the output is [(L, N, E)] (the
    averaged weights that come with it are dropped by the callers).  Raises
    when the embedding size is not [embed_dim], when key and value differ
    in shape, or when the batch sizes differ. *)
Definition MultiheadAttention_forward (A : MultiheadAttention)
    (query key value : Tensor3) : option Tensor3 :=
  let E := Z.to_nat (embed_dim A) in
  if (size2 query =? E)%nat && (size2 key =? E)%nat && (size2 value =? E)%nat
     && (size0 key =? size0 value)%nat && (size1 key =? size1 value)%nat
     && (size1 key =? size1 query)%nat then
    ys <- mapM (fun n =>
                  yg <- MaskedMultiHeadAttention_forward (as_masked A)
                          (column_plane query n) (column_plane key n)
                          (column_plane value n) None no_draws ;;
                  Some (fst yg))
               (seq 0 (size1 query)) ;;
    Some (tab3 (size0 query) (size1 query) E
            (fun l n e => fget (nth n ys (tab 0 0 (fun _ _ => NaN))) l e))
  else None.

(** ** Cell 13: [TransformerBlock] *)

Record TransformerBlock : Type := mkTransformerBlock {
  attention : MultiheadAttention;
  ffn_in : Linear;     (* [self.ffn[0]] *)
  ffn_out : Linear;    (* [self.ffn[2]] *)
  norm1 : LayerNorm;
  norm2 : LayerNorm;
  block_training : bool
}.

(** [self.ffn(x)]: Linear, ReLU, Linear. *)
Definition TransformerBlock_ffn (T : TransformerBlock) (x : Tensor float)
    : option (Tensor float) :=
  h <- Linear_forward (ffn_in T) x ;;
  h <- ReLU_forward h ;;
  Linear_forward (ffn_out T) h.

(** [TransformerBlock.forward(x, v=None)] *)
Definition TransformerBlock_forward (T : TransformerBlock) (x : Tensor3)
    (v : option Tensor3) : Rand Tensor3 :=
  attn_output <~ lift (match v with
                       | None => MultiheadAttention_forward (attention T) x x x
                       | Some v => MultiheadAttention_forward (attention T) x x v
                       end) ;;
  d <~ dropout3 (1 / 10) (block_training T) attn_output ;;
  x <~ lift (add3 x d) ;;
  x <~ lift (on_rows (LayerNorm_forward (norm1 T)) x) ;;
  ffn_output <~ lift (on_rows (TransformerBlock_ffn T) x) ;;
  d <~ dropout3 (1 / 10) (block_training T) ffn_output ;;
  x <~ lift (add3 x d) ;;
  lift (on_rows (LayerNorm_forward (norm2 T)) x).

(** ** Cell 14: [TransformerEncoder] *)

Record TransformerEncoder : Type := mkTransformerEncoder {
  encoder_positional_encoding : PositionalEncoding;
  layers : list TransformerBlock
}.

(** [PositionalEncoding.forward] on a batch: the table is broadcast along
    the batch axis. *)
Definition PositionalEncoding_forward3 (pe : PositionalEncoding) (x : Tensor3)
    : option Tensor3 :=
  let table := first_rows (encoding pe) (size1 x) in
  n1 <- bsize (size1 x) (nrows table) ;;
  n2 <- bsize (size2 x) (ncols table) ;;
  Some (tab3 (size0 x) n1 n2
          (fun b i c =>
             fadd (get3 x b (bidx (size1 x) i) (bidx (size2 x) c))
                  (bget NaN table i c))).

(** [for layer in self.layers: x = layer(x)] *)
Fixpoint encoder_layers (ls : list TransformerBlock) (x : Tensor3) : Rand Tensor3 :=
  match ls with
  | [] => ret x
  | layer :: rest => x <~ TransformerBlock_forward layer x None ;;
                     encoder_layers rest x
  end.

(** [TransformerEncoder.forward(x)] *)
Definition TransformerEncoder_forward (E : TransformerEncoder) (x : Tensor3)
    : Rand Tensor3 :=
  x <~ lift (PositionalEncoding_forward3 (encoder_positional_encoding E) x) ;;
  encoder_layers (layers E) x.

(** ** Cell 20: [DecoderBlock] and [Transformer] *)

Record DecoderBlock : Type := mkDecoderBlock {
  mask : option (Tensor bool);
  masked_attn : MaskedMultiHeadAttention;
  transformer_block : TransformerBlock;
  norm : LayerNorm;
  decoder_training : bool
}.

(** [self.masked_attn(output, output, output, self.mask)] on a batch: the
    attention of every batch entry, in order; the view with
    [batch_size = 0] raises. *)
Definition masked_self_attention (M : MaskedMultiHeadAttention)
    (mask : option (Tensor bool)) (output : Tensor3) : Rand Tensor3 :=
  if (size0 output =? 0)%nat then lift None
  else
    ys <~ mapR (fun b => MaskedMultiHeadAttention_forward M
                           (plane output b) (plane output b) (plane output b) mask)
               (seq 0 (size0 output)) ;;
    let y0 := nth 0 ys (tab 0 0 (fun _ _ => NaN)) in
    ret (tab3 (size0 output) (nrows y0) (ncols y0)
           (fun b i c => fget (nth b ys y0) i c)).

(** [DecoderBlock.forward(output, x)] *)
Definition DecoderBlock_forward (D : DecoderBlock) (output x : Tensor3)
    : Rand Tensor3 :=
  attn_output <~ masked_self_attention (masked_attn D) (mask D) output ;;
  d <~ dropout3 (1 / 10) (decoder_training D) attn_output ;;
  attn_output <~ lift (add3 output d) ;;
  attn_output <~ lift (on_rows (LayerNorm_forward (norm D)) attn_output) ;;
  TransformerBlock_forward (transformer_block D) x (Some attn_output).

Record Transformer : Type := mkTransformer {
  encoder : TransformerEncoder;
  positional_encoding : PositionalEncoding;
  decoder : list DecoderBlock;
  ffn : Linear    (* [self.ffn[0]]; [self.ffn[1]] is the ReLU *)
}.

(** [self.ffn(x)]: Linear, ReLU. *)
Definition Transformer_ffn (T : Transformer) (x : Tensor3) : option Tensor3 :=
  on_rows (fun x => h <- Linear_forward (ffn T) x ;; ReLU_forward h) x.

(** [for layer in self.decoder: out = layer(out, x)] *)
Fixpoint decoder_layers (ls : list DecoderBlock) (out x : Tensor3) : Rand Tensor3 :=
  match ls with
  | [] => ret out
  | layer :: rest => out <~ DecoderBlock_forward layer out x ;;
                     decoder_layers rest out x
  end.

(** [Transformer.forward(x)] *)
Definition Transformer_forward (T : Transformer) (x : Tensor3) : Rand Tensor3 :=
  x <~ TransformerEncoder_forward (encoder T) x ;;
  out <~ lift (PositionalEncoding_forward3 (positional_encoding T) x) ;;
  out <~ decoder_layers (decoder T) out x ;;
  x <~ lift (Transformer_ffn T x) ;;
  ret x.

(** ** The constructors *)

Record BlockInit : Type := mkBlockInit {
  init_attention : AttentionInit;
  init_ffn_in : LinearInit;
  init_ffn_out : LinearInit
}.

Record DecoderInit : Type := mkDecoderInit {
  init_masked_attn : AttentionInit;
  init_block : BlockInit
}.

Record TransformerInit : Type := mkTransformerInit {
  init_encoder : nat -> BlockInit;
  init_decoder : nat -> DecoderInit;
  init_ffn : LinearInit
}.

(** [nn.LayerNorm(d)]: scale 1, shift 0; a negative size raises. *)
Definition LayerNorm_init (d : Z) : option LayerNorm :=
  if (0 <=? d)%Z then Some (mkLayerNorm (Z.to_nat d) (fun _ => 1) (fun _ => 0))
  else None.

(** [TransformerBlock.__init__(d_model, nhead, dim_feedforward)] *)
Definition TransformerBlock_init (d_model nhead dim_feedforward : Z)
    (w : BlockInit) : option TransformerBlock :=
  a <- MultiheadAttention_init d_model nhead (init_attention w) ;;
  f1 <- Linear_init d_model dim_feedforward (init_ffn_in w) ;;
  f2 <- Linear_init dim_feedforward d_model (init_ffn_out w) ;;
  n1 <- LayerNorm_init d_model ;;
  n2 <- LayerNorm_init d_model ;;
  Some (mkTransformerBlock a f1 f2 n1 n2 true).

(** [TransformerEncoder.__init__(d_model, nhead, num_layers, dim_feedforward)] *)
Definition TransformerEncoder_init (d_model nhead num_layers dim_feedforward : Z)
    (w : nat -> BlockInit) : option TransformerEncoder :=
  pe <- PositionalEncoding_init d_model default_max_len default_l ;;
  ls <- mapM (fun k => TransformerBlock_init d_model nhead dim_feedforward (w k))
             (seq 0 (Z.to_nat num_layers)) ;;
  Some (mkTransformerEncoder pe ls).

(** [DecoderBlock.__init__(d_model, nhead, dim_feedforward, mask)] *)
Definition DecoderBlock_init (d_model nhead dim_feedforward : Z)
    (mask : option (Tensor bool)) (w : DecoderInit) : option DecoderBlock :=
  m <- MaskedMultiHeadAttention_init d_model nhead (init_masked_attn w) ;;
  tb <- TransformerBlock_init d_model nhead dim_feedforward (init_block w) ;;
  n <- LayerNorm_init d_model ;;
  Some (mkDecoderBlock mask m tb n true).

(** [Transformer.__init__(d_model, nhead, num_layers, dim_feedforward,
    dim_out, mask)] *)
Definition Transformer_init (d_model nhead num_layers dim_feedforward dim_out : Z)
    (mask : option (Tensor bool)) (w : TransformerInit) : option Transformer :=
  e <- TransformerEncoder_init d_model nhead num_layers dim_feedforward
         (init_encoder w) ;;
  pe <- PositionalEncoding_init d_model default_max_len default_l ;;
  dec <- mapM (fun k => DecoderBlock_init d_model nhead dim_feedforward mask
                          (init_decoder w k))
              (seq 0 (Z.to_nat num_layers)) ;;
  f <- Linear_init d_model dim_out (init_ffn w) ;;
  Some (mkTransformer e pe dec f).

(** [ffn(encoder(x))] *)
Definition encoder_then_ffn (T : Transformer) (x : Tensor3) : Rand Tensor3 :=
  e <~ TransformerEncoder_forward (encoder T) x ;;
  lift (Transformer_ffn T e).

(** The part of [Transformer.forward] between the encoder and the final
    feed-forward layer: the positional re-encoding and the decoder loop. *)
Definition decoder_pass (T : Transformer) (e : Tensor3) : Rand Tensor3 :=
  out <~ lift (PositionalEncoding_forward3 (positional_encoding T) e) ;;
  decoder_layers (decoder T) out e.

(** * BERT sentiment notebook *)

(** ** Tokenisation *)

(** [BertTokenizer.from_pretrained('bert-base-uncased')]: the pretrained
    vocabulary is external data; the tokenizer is its WordPiece function
    and the ids of its special tokens. *)
Record BertTokenizer : Type := mkBertTokenizer {
  wordpiece : String.string -> list Z;
  cls_token_id : Z;
  sep_token_id : Z;
  pad_token_id : Z
}.

Inductive PaddingStrategy : Type := DoNotPad | PadMaxLength.

(** One row of the [BatchEncoding]. *)
Record Encoding : Type := mkEncoding {
  input_ids : list Z;
  token_type_ids : list Z;
  attention_mask : list Z
}.

(** [tokenizer(text, padding=..., truncation=..., max_length=...)] on one
    text, as the transformers library documents it: the WordPiece ids are
    truncated so that, with [[CLS]] and [[SEP]] added, at most [max_length]
    ids remain; the ids are then padded on the right up to [max_length];
    the attention mask is 1 on the ids and 0 on the padding. *)
Definition tokenizer_call (tok : BertTokenizer) (padding : PaddingStrategy)
    (truncation : bool) (max_length : nat) (text : String.string) : Encoding :=
  let pieces := wordpiece tok text in
  let pieces := if truncation then firstn (max_length - 2) pieces else pieces in
  let ids := cls_token_id tok :: pieces ++ [sep_token_id tok] in
  let pad := match padding with
             | PadMaxLength => (max_length - length ids)%nat
             | DoNotPad => 0%nat
             end in
  mkEncoding (ids ++ repeat (pad_token_id tok) pad)
             (repeat 0%Z (length ids + pad))
             (repeat 1%Z (length ids) ++ repeat 0%Z pad).

(** [tokenize_function(texts)]: [padding='max_length', truncation=True,
    max_length=128]; with [return_tensors='pt'] the rows are stacked into
    one tensor, which raises when there is no row (an empty list of texts)
    and when the rows differ in length. *)
Definition tokenize_function (tokenizer : BertTokenizer)
    (texts : list String.string) : option (list Encoding) :=
  let rows := map (tokenizer_call tokenizer PadMaxLength true 128) texts in
  match rows with
  | [] => None
  | r :: _ =>
      if forallb (fun e => (length (input_ids e) =? length (input_ids r))%nat) rows
      then Some rows else None
  end.

(** ** Training and evaluation *)

(** A batch of the [DataLoader]. *)
Record Batch : Type := mkBatch {
  batch_input_ids : list (list Z);
  batch_attention_mask : list (list Z);
  batch_labels : list Z
}.

(** [BertForSequenceClassification] and [AdamW] are external: the model is
    its parameters [P], its mode and its forward function, which returns
    the logits, one row per sample; the optimizer is its state [O] and its
    update. *)
Record Library (P G O : Type) : Type := mkLibrary {
  bert_logits : P -> bool -> list (list Z) -> list (list Z) -> option (Tensor float);
  bert_loss : P -> bool -> Batch -> rng -> option (R * rng);
  backward : P -> Batch -> G -> G;
  zero_grad : G -> G;
  adamw_step : P -> G -> O -> P * O;
  scheduler_step : O -> O
}.

(** The state of the notebook. *)
Record Notebook (P G O : Type) : Type := mkNotebook {
  model_parameters : P;
  model_training : bool;
  gradients : G;
  optimizer : O;
  generator : rng;
  predictions : list nat;
  true_labels : list Z
}.

(** Torch's order for [argmax]: NaN is the greatest value. *)
Definition fgt (a b : float) : bool :=
  match a, b with
  | NaN, NaN => false
  | NaN, _ => true
  | _, NaN => false
  | PosInf, PosInf => false
  | PosInf, _ => true
  | _, PosInf => false
  | NegInf, _ => false
  | Fin _, NegInf => true
  | Fin x, Fin y => if Rlt_dec y x then true else false
  end.

(** Index of the first greatest element, scanning from index [i] with the
    best candidate so far. *)
Fixpoint argmax_from (best : float) (besti i : nat) (l : list float) : nat :=
  match l with
  | [] => besti
  | a :: l' =>
      if fgt a best then argmax_from a i (S i) l'
      else argmax_from best besti (S i) l'
  end.

(** [torch.argmax(logits, dim=1)]; raises on an empty class axis. *)
Definition argmax_rows (logits : Tensor float) : option (list nat) :=
  if (ncols logits =? 0)%nat then None
  else Some (map (fun r => match r with
                           | [] => 0%nat
                           | a :: l => argmax_from a 0 1 l
                           end) (entry logits)).

(** [sklearn.metrics.accuracy_score(y_true, y_pred)]: the mean of the
    indicator [y_true == y_pred]; raises when the lengths differ; the mean
    of no sample is not a number, here [None] as well. *)
Definition accuracy_score (y_true : list Z) (y_pred : list nat) : option R :=
  if negb (length y_true =? length y_pred)%nat then None
  else if (length y_true =? 0)%nat then None
  else
    Some (rsum (map (fun tp : Z * nat =>
                       if (fst tp =? Z.of_nat (snd tp))%Z then 1 else 0)
                    (combine y_true y_pred))
          / INR (length y_true)).

(** [k] is the index of a greatest element of the row. *)
Definition is_argmax (r : list float) (k : nat) : Prop :=
  (k < length r)%nat /\ forall x, In x r -> fgt x (nth k r NaN) = false.

Section Notebook.

Variables P G O : Type.
Variable lib : Library P G O.

(** The body of the training loop. *)
Definition train_step (st : Notebook P G O) (batch : Batch)
    : option (Notebook P G O * R) :=
  let g0 := zero_grad lib (gradients st) in
  lg <- bert_loss lib (model_parameters st) (model_training st) batch
          (generator st) ;;
  let (loss, gen) := lg in
  let g1 := backward lib (model_parameters st) batch g0 in
  let (p, o) := adamw_step lib (model_parameters st) g1 (optimizer st) in
  let o := scheduler_step lib o in
  Some (mkNotebook p (model_training st) g1 o gen
          (predictions st) (true_labels st), loss).

(** The body of the evaluation loop, under [torch.no_grad()]. *)
Definition eval_step (st : Notebook P G O) (batch : Batch)
    : option (Notebook P G O) :=
  logits <- bert_logits lib (model_parameters st) (model_training st)
              (batch_input_ids batch) (batch_attention_mask batch) ;;
  preds <- argmax_rows logits ;;
  Some (mkNotebook (model_parameters st) (model_training st) (gradients st)
          (optimizer st) (generator st)
          (predictions st ++ preds)
          (true_labels st ++ batch_labels batch)).

Fixpoint eval_loop (st : Notebook P G O) (loader : list Batch)
    : option (Notebook P G O) :=
  match loader with
  | [] => Some st
  | batch :: rest => st' <- eval_step st batch ;; eval_loop st' rest
  end.

(** What one pass of the loop body appends to [predictions]: the argmax
    of the logits of the batch, computed in evaluation mode. *)
Definition appended (p : P) (batch : Batch) (preds : list nat) : Prop :=
  exists logits,
    bert_logits lib p false (batch_input_ids batch) (batch_attention_mask batch)
    = Some logits /\
    argmax_rows logits = Some preds /\
    (wf logits -> Forall2 is_argmax (entry logits) preds).

(** The evaluation cell: [model.eval()], the two empty lists, the loop,
    and the accuracy that is printed. *)
Definition evaluation (st : Notebook P G O) (test_loader : list Batch)
    : option (Notebook P G O * R) :=
  let st := mkNotebook (model_parameters st) false (gradients st)
              (optimizer st) (generator st) [] [] in
  st' <- eval_loop st test_loader ;;
  accuracy <- accuracy_score (true_labels st') (predictions st') ;;
  Some (st', accuracy).

End Notebook.

(** The fraction of predictions that equal the true labels. *)
Definition fraction_correct (y_true : list Z) (y_pred : list nat) : R :=
  INR (length (filter (fun tp : Z * nat => (fst tp =? Z.of_nat (snd tp))%Z)
                 (combine y_true y_pred)))
  / INR (length y_pred).

(** ** The data set and its loaders *)

(** [l[idx]] on a Python list or on the first axis of a tensor: a negative
    index counts from the end; an index out of range raises [IndexError]. *)
Definition py_index {A} (l : list A) (idx : Z) : option A :=
  let n := Z.of_nat (length l) in
  if ((0 <=? idx) && (idx <? n))%Z then nth_error l (Z.to_nat idx)
  else if ((- n <=? idx) && (idx <? 0))%Z then nth_error l (Z.to_nat (idx + n))
  else None.

(** [YelpDataset]: [self.encodings] row by row, and [self.labels]. *)
Record YelpDataset : Type := mkYelpDataset {
  encodings : list Encoding;
  labels : list Z
}.

(** The dictionary returned by [__getitem__]. *)
Record Item : Type := mkItem {
  item_input_ids : list Z;
  item_token_type_ids : list Z;
  item_attention_mask : list Z;
  item_labels : Z
}.

(** [YelpDataset.__getitem__(idx)] *)
Definition YelpDataset_getitem (ds : YelpDataset) (idx : Z) : option Item :=
  e <- py_index (encodings ds) idx ;;
  label <- py_index (labels ds) idx ;;
  Some (mkItem (input_ids e) (token_type_ids e) (attention_mask e) label).

(** The item at an index that both lists have, in closed form. *)
Definition item_at (ds : YelpDataset) (i : nat) : Item :=
  let e := nth i (encodings ds) (mkEncoding [] [] []) in
  mkItem (input_ids e) (token_type_ids e) (attention_mask e) (nth i (labels ds) 0%Z).

(** [YelpDataset.__len__()] *)
Definition YelpDataset_len (ds : YelpDataset) : nat := length (labels ds).

(** The batch sampler of [DataLoader] ([drop_last = False]): indices are
    collected in order and a batch is yielded whenever [batch_size] of them
    are there; what is left at the end is yielded as a last, shorter
    batch. *)
Fixpoint batch_sampler (batch_size : nat) (sampler : list nat) (batch : list nat)
    : list (list nat) :=
  match sampler with
  | [] => if (length batch =? 0)%nat then [] else [batch]
  | idx :: rest =>
      let batch := batch ++ [idx] in
      if (length batch =? batch_size)%nat
      then batch :: batch_sampler batch_size rest []
      else batch_sampler batch_size rest batch
  end.

(** The default collate function: the samples are stacked field by field,
    which raises when the rows of a field differ in length. *)
Definition collate (items : list Item) : option Batch :=
  let same (f : Item -> list Z) :=
    match items with
    | [] => true
    | it :: _ => forallb (fun i => (length (f i) =? length (f it))%nat) items
    end in
  if same item_input_ids && same item_token_type_ids && same item_attention_mask
  then Some (mkBatch (map item_input_ids items) (map item_attention_mask items)
               (map item_labels items))
  else None.

(** Iterating [DataLoader(dataset, batch_size)] with the indices in the
    order [sampler]: every batch is fetched item by item and collated. *)
Definition DataLoader_iter (ds : YelpDataset) (batch_size : nat)
    (sampler : list nat) : option (list Batch) :=
  mapM (fun idxs =>
          items <- mapM (fun i => YelpDataset_getitem ds (Z.of_nat i)) idxs ;;
          collate items)
       (batch_sampler batch_size sampler []).

(** [len(DataLoader(dataset, batch_size))] *)
Definition DataLoader_len (ds : YelpDataset) (batch_size : nat) : nat :=
  ((YelpDataset_len ds + batch_size - 1) / batch_size)%nat.

(** [test_loader = DataLoader(test_dataset, batch_size=8, shuffle=False)] *)
Definition test_loader (ds : YelpDataset) : option (list Batch) :=
  DataLoader_iter ds 8 (seq 0 (YelpDataset_len ds)).

(** [total_steps = len(train_loader) * 3] *)
Definition total_steps (train_loader_len : nat) : nat := (train_loader_len * 3)%nat.

Section Training.

Variables P G O : Type.
Variable lib : Library P G O.

(** [for batch in train_loader: ...; total_loss += loss.item()] *)
Fixpoint train_batches (st : Notebook P G O) (loader : list Batch) (total_loss : R)
    : option (Notebook P G O * R) :=
  match loader with
  | [] => Some (st, total_loss)
  | batch :: rest =>
      r <- train_step lib st batch ;;
      train_batches (fst r) rest (total_loss + snd r)
  end.

(** One epoch; the value is the loss that is printed,
    [total_loss / len(train_loader)]. *)
Definition train_epoch (st : Notebook P G O) (loader : list Batch)
    : option (Notebook P G O * R) :=
  r <- train_batches st loader 0 ;;
  avg <- py_div (snd r) (Z.of_nat (length loader)) ;;
  Some (fst r, avg).

Fixpoint train_epochs (st : Notebook P G O) (train_loader : nat -> list Batch)
    (epochs : list nat) : option (Notebook P G O * list R) :=
  match epochs with
  | [] => Some (st, [])
  | epoch :: rest =>
      r <- train_epoch st (train_loader epoch) ;;
      r' <- train_epochs (fst r) train_loader rest ;;
      Some (fst r', snd r :: snd r')
  end.

(** The training cell: [model.train()] and three epochs;
    [train_loader epoch] is the sequence of batches the shuffling loader
    yields in that epoch.  The value holds the printed losses. *)
Definition training_loop (st : Notebook P G O) (train_loader : nat -> list Batch)
    : option (Notebook P G O * list R) :=
  let st := mkNotebook (model_parameters st) true (gradients st)
              (optimizer st) (generator st) (predictions st) (true_labels st) in
  train_epochs st train_loader (seq 0 3).

End Training.

(** ** The closed-form attention of the specification

    Written from the specification's words, entry by entry, for real
    inputs given as index functions: the query/key dot product scaled by
    the square root of the key dimension [d], masked positions ([visible]
    false) set to negative infinity, i.e. weight [exp (-inf) = 0], before
    the softmax normalisation over the [m] keys, followed by the weighted
    sum of the value vectors. *)

Definition score_formula (q k : nat -> nat -> R) (d : nat) (i j : nat) : R :=
  rsum_n d (fun t => q i t * k j t) / sqrt (INR d).

Definition weight_formula (visible : nat -> nat -> bool) (s : nat -> nat -> R)
    (m : nat) (i j : nat) : R :=
  (if visible i j then exp (s i j) else 0)
  / rsum_n m (fun l => if visible i l then exp (s i l) else 0).

Definition attention_formula (visible : nat -> nat -> bool)
    (q k v : nat -> nat -> R) (m d : nat) (i c : nat) : R :=
  rsum_n m (fun j => weight_formula visible (score_formula q k d) m i j * v j c).

Definition unmasked : nat -> nat -> bool := fun _ _ => true.


(** ** Closed forms used in the statements about multi-head attention *)

(** A linear layer with real parameters. *)
Definition linear_of (i o : nat) (w : LinearInit) : Linear :=
  mkLinear i o (rtab o i (init_weight w)) (rtab 1 o (fun _ c => init_bias w c)).

(** A [MaskedMultiHeadAttention] with [H] heads of width [hd], real
    parameters [w] and training flag [t]: what the constructor returns,
    possibly followed by training steps and [train()] / [eval()]. *)
Definition attention_of (H hd : nat) (w : AttentionInit) (t : bool)
    : MaskedMultiHeadAttention :=
  let d := (H * hd)%nat in
  mkMaskedMultiHeadAttention (Z.of_nat d) (Z.of_nat H) (Z.of_nat hd)
    (linear_of d d (init_q w)) (linear_of d d (init_k w))
    (linear_of d d (init_v w)) (linear_of d d (init_out w)) t.

(** [x W^T + b], entry by entry. *)
Definition linear_formula (i : nat) (w : LinearInit) (x : nat -> nat -> R)
    (r c : nat) : R :=
  rsum_n i (fun k => x r k * init_weight w c k) + init_bias w c.

(** The column block of head [h]. *)
Definition head_slice (hd h : nat) (x : nat -> nat -> R) : nat -> nat -> R :=
  fun i c => x i (h * hd + c)%nat.

(** The mask as a predicate on (query, key) positions; no mask hides
    nothing. *)
Definition visibility (mask : option (nat -> nat -> bool)) : nat -> nat -> bool :=
  match mask with Some vis => vis | None => unmasked end.

(** Query position [i] sees at least one of the [m] keys (or there is no
    key at all). *)
Definition row_visible (vis : nat -> nat -> bool) (m i : nat) : bool :=
  existsb (vis i) (seq 0 m) || (m =? 0)%nat.

(** The factor dropout applies to the weight of head [h] at [(i, j)]. *)
Definition keep_factor (p : R) (t : bool) (g : rng) (nq nk h i j : nat) : R :=
  if t then (if draw g (h * (nq * nk) + (i * nk + j)) then / (1 - p) else 0)
  else 1.

(** The attention of one head with dropped-out weights. *)
Definition dropout_attention (vis : nat -> nat -> bool) (keep : nat -> nat -> R)
    (q k v : nat -> nat -> R) (m d : nat) (i c : nat) : R :=
  rsum_n m (fun j => weight_formula vis (score_formula q k d) m i j
                     * keep i j * v j c).

(** Modules with real parameters, as the constructors return them and
    training leaves them. *)
Definition mha_of (H hd : nat) (w : AttentionInit) : MultiheadAttention :=
  let d := (H * hd)%nat in
  mkMultiheadAttention (Z.of_nat d) (Z.of_nat H)
    (linear_of d d (init_q w)) (linear_of d d (init_k w))
    (linear_of d d (init_v w)) (linear_of d d (init_out w)).

Definition block_of (H hd dff : nat) (w : BlockInit) (g1 b1 g2 b2 : nat -> R)
    (t : bool) : TransformerBlock :=
  let d := (H * hd)%nat in
  mkTransformerBlock (mha_of H hd (init_attention w))
    (linear_of d dff (init_ffn_in w)) (linear_of dff d (init_ffn_out w))
    (mkLayerNorm d g1 b1) (mkLayerNorm d g2 b2) t.

(** A block of width [d = H * hd] with real parameters. *)
Inductive real_block (H hd : nat) : TransformerBlock -> Prop :=
| real_block_intro dff w g1 b1 g2 b2 t :
    real_block H hd (block_of H hd dff w g1 b1 g2 b2 t).

(** A decoder block of width [d = H * hd] with real parameters and the
    causal mask for sequences of length [S]. *)
Inductive causal_decoder (H hd S : nat) : DecoderBlock -> Prop :=
| causal_decoder_intro w t T g b t' :
    real_block H hd T ->
    causal_decoder H hd S
      (mkDecoderBlock (Some (tril S)) (attention_of H hd w t) T
         (mkLayerNorm (H * hd) g b) t').

(** Bounds under which nothing overflows in multi-head attention: every
    entry of the inputs and every parameter has magnitude at most [b], and
    [b] is small enough for the width [D] of the model.  (For [D = 512]
    any [b] up to [10^7] will do.) *)
Definition bounded_linear (b : R) (w : LinearInit) : Prop :=
  forall c k, Rabs (init_weight w c k) <= b /\ Rabs (init_bias w c) <= b.

Definition bounded_attention (b : R) (w : AttentionInit) : Prop :=
  bounded_linear b (init_q w) /\ bounded_linear b (init_k w) /\
  bounded_linear b (init_v w) /\ bounded_linear b (init_out w).

Definition bounded_input (b : R) (x : nat -> nat -> R) (n d : nat) : Prop :=
  forall i c, (i < n)%nat -> (c < d)%nat -> Rabs (x i c) <= b.

Definition attention_in_range (b : R) (D : nat) : Prop :=
  1 <= b /\ 2 * INR (D + 1) ^ 3 * b ^ 4 < overflow_threshold.


(** ** The modules entry by entry

    What the tensor code computes at one index, in the arithmetic of the
    code itself.  The statements on which inputs an output entry depends
    on, and on when the code returns, are proved from these; the real
    closed forms above are reached from them where nothing overflows. *)

(** [x W^T + b] *)
Definition linear_entry (n : nat) (w : LinearInit) (x : nat -> nat -> float)
    (r c : nat) : float :=
  fadd (fsum_n n (fun k => fmul (x r k) (Fin (init_weight w c k))))
       (Fin (init_bias w c)).

(** The column block of head [h]. *)
Definition head_block (hd h : nat) (x : nat -> nat -> float)
    : nat -> nat -> float :=
  fun i c => x i (h * hd + c)%nat.

(** [matmul(q, k.transpose(-2, -1)) / sqrt(d)] *)
Definition score_entry (q k : nat -> nat -> float) (d : nat) (i j : nat) : float :=
  fdiv_scalar (fsum_n d (fun t => fmul (q i t) (k j t))) (sqrt (INR d)).

(** [scores.masked_fill(mask == 0, -inf)] *)
Definition masked_score (vis : nat -> nat -> bool) (s : nat -> nat -> float)
    (i j : nat) : float :=
  if vis i j then s i j else NegInf.

(** [F.softmax(scores, dim=-1)] over [m] keys. *)
Definition weight_entry (s : nat -> nat -> float) (m : nat) (i j : nat) : float :=
  nth j (softmax_row (map (s i) (seq 0 m))) NaN.

(** What [nn.Dropout(p)] makes of the [k]-th element it sees. *)
Definition dropout_entry (p : R) (t : bool) (g : rng) (k : nat) (a : float)
    : float :=
  if t then fmul a (Fin (if draw g k then / (1 - p) else 0)) else a.

(** The generator after [n] dropout decisions in training mode. *)
Definition after_draws (t : bool) (n : nat) (g : rng) : rng :=
  if t then advance n g else g.

(** The weight of head [h] at [(i, j)] after the softmax and the dropout. *)
Definition dropped_weight (t : bool) (g : rng) (nq nk h : nat)
    (vis : nat -> nat -> bool) (q k : nat -> nat -> float) (d : nat)
    (i j : nat) : float :=
  dropout_entry (1 / 10) t g (h * (nq * nk) + (i * nk + j))
    (weight_entry (masked_score vis (score_entry q k d)) nk i j).

(** The output of head [h]: [matmul(attn_weights, v)]. *)
Definition head_entry (t : bool) (g : rng) (nq nk h : nat)
    (vis : nat -> nat -> bool) (q k v : nat -> nat -> float) (d : nat)
    (i c : nat) : float :=
  fsum_n nk (fun j => fmul (dropped_weight t g nq nk h vis q k d i j) (v j c)).

(** [MaskedMultiHeadAttention.forward] on one batch entry: the output
    projection of the concatenated heads. *)
Definition forward_entry (H hd : nat) (w : AttentionInit) (t : bool)
    (vis : nat -> nat -> bool) (g : rng) (nq nk : nat)
    (q k v : nat -> nat -> float) (i c : nat) : float :=
  let D := (H * hd)%nat in
  linear_entry D (init_out w)
    (fun i c =>
       head_entry t g nq nk (c / hd) vis
         (head_block hd (c / hd) (linear_entry D (init_q w) q))
         (head_block hd (c / hd) (linear_entry D (init_k w) k))
         (head_block hd (c / hd) (linear_entry D (init_v w) v))
         hd i (c mod hd))
    i c.

(** [nn.LayerNorm] on one row [y]. *)
Definition layer_norm_entry (N : LayerNorm) (y : nat -> float) (c : nat) : float :=
  nth c (layer_norm_row N (map y (seq 0 (normalized_shape N)))) NaN.

(** Linear, ReLU, Linear on one row [y]. *)
Definition ffn_entry (d dff : nat) (w1 w2 : LinearInit) (y : nat -> float)
    (c : nat) : float :=
  linear_entry dff w2
    (fun _ k => relu_elt (linear_entry d w1 (fun _ => y) 0 k)) 0 c.

(** [TransformerBlock.forward(x, v)] on a batch [B x S x (H * hd)].  The
    attention runs along the first axis, separately for every index of the
    second axis. *)
Definition block_entry (H hd dff : nat) (w : BlockInit)
    (g1 b1 g2 b2 : nat -> R) (t : bool) (B S : nat) (g : rng)
    (x v : nat -> nat -> nat -> float) : nat -> nat -> nat -> float :=
  let D := (H * hd)%nat in
  let a := fun b n e =>
             forward_entry H hd (init_attention w) false unmasked no_draws B B
               (fun l c => x l n c) (fun l c => x l n c) (fun l c => v l n c) b e in
  let x1 := fun b i c =>
              fadd (x b i c)
                   (dropout_entry (1 / 10) t g ((b * S + i) * D + c) (a b i c)) in
  let x2 := fun b i => layer_norm_entry (mkLayerNorm D g1 b1) (x1 b i) in
  let f := fun b i => ffn_entry D dff (init_ffn_in w) (init_ffn_out w) (x2 b i) in
  let g' := after_draws t (B * S * D) g in
  let x3 := fun b i c =>
              fadd (x2 b i c)
                   (dropout_entry (1 / 10) t g' ((b * S + i) * D + c) (f b i c)) in
  fun b i => layer_norm_entry (mkLayerNorm D g2 b2) (x3 b i).

(** The generator after [TransformerBlock.forward]: two dropouts over the
    whole batch in training mode, none in evaluation mode. *)
Definition block_generator (t : bool) (n : nat) (g : rng) : rng :=
  if t then advance n (advance n g) else g.

(** The causal mask as a predicate: position [i] sees the positions
    [j <= i]. *)
Definition causal : nat -> nat -> bool := fun i j => (j <=? i)%nat.

(** [self.norm(output + self.dropout(self.masked_attn(output, output,
    output, mask)))] in [DecoderBlock.forward], with the causal mask, on a
    batch [B x S x (H * hd)]: the value tensor handed to the transformer
    block. *)
Definition decoder_value (H hd : nat) (wm : AttentionInit) (tm : bool)
    (gam bet : nat -> R) (td : bool) (B S : nat) (g : rng)
    (output : nat -> nat -> nat -> float) : nat -> nat -> nat -> float :=
  let D := (H * hd)%nat in
  let a := fun b =>
             forward_entry H hd wm tm causal
               (after_draws tm (b * (H * (S * S))) g) S S
               (output b) (output b) (output b) in
  let ga := after_draws tm (B * (H * (S * S))) g in
  let o1 := fun b i c =>
              fadd (output b i c)
                   (dropout_entry (1 / 10) td ga ((b * S + i) * D + c) (a b i c)) in
  fun b i => layer_norm_entry (mkLayerNorm D gam bet) (o1 b i).

(** A tensor element that is not negative: a real number [>= 0], [+inf],
    or NaN (which [nn.ReLU] lets through). *)
Definition not_negative (a : float) : Prop :=
  match a with
  | Fin x => 0 <= x
  | PosInf | NaN => True
  | NegInf => False
  end.

(** ** Sample values *)


Definition two_100 : R := 1267650600228229401496703205376.

Definition no_tensor : Tensor float := tab 0 0 (fun _ _ => NaN).

(** Real parameters: every weight [a], every bias [b]. *)
Definition const_linear (a b : R) : LinearInit :=
  mkLinearInit (fun _ _ => a) (fun _ => b).

Definition const_attention (a b : R) : AttentionInit :=
  mkAttentionInit (const_linear a b) (const_linear a b) (const_linear a b)
    (const_linear a b).

Definition keep_all : rng := mkRng (fun _ => true) 0.

(** A two-class model that always prefers class 1, with trivial state. *)
Definition sample_library : Library unit unit unit :=
  mkLibrary
    (fun _ _ ids _ => Some (tab (length ids) 2 (fun _ c => Fin (INR c))))
    (fun _ _ _ g => Some (0, g))
    (fun _ _ g => g) (fun g => g) (fun p _ o => (p, o)) (fun o => o).

Definition sample_notebook : Notebook unit unit unit :=
  mkNotebook tt true tt tt keep_all [] [].

Definition sample_loader : list Batch :=
  [mkBatch [[101; 102]; [101; 102]]%Z [[1; 1]; [1; 1]]%Z [1; 0]%Z].

Definition sample_block_init : BlockInit :=
  mkBlockInit (const_attention 1 0) (const_linear 1 0) (const_linear 1 0).

Definition sample_transformer_init : TransformerInit :=
  mkTransformerInit (fun _ => sample_block_init)
    (fun _ => mkDecoderInit (const_attention 1 0) sample_block_init)
    (const_linear 1 0).

Definition ones : nat -> R := fun _ => 1.
Definition zeroes : nat -> R := fun _ => 0.

Definition sample_block : TransformerBlock :=
  block_of 1 2 1 sample_block_init ones zeroes ones zeroes true.

Definition sample_table : PositionalEncoding :=
  mkPositionalEncoding
    (rtab (Z.to_nat default_max_len) (1 * 2) (pe_table default_l 2)).

(** [Transformer(d_model=2, nhead=1, num_layers=1, dim_feedforward=1,
    dim_out=1, mask)] with the causal mask for sequences of length [n]. *)
Definition sample_transformer (n : nat) : Transformer :=
  mkTransformer (mkTransformerEncoder sample_table [sample_block]) sample_table
    [mkDecoderBlock (Some (tril n)) (attention_of 1 2 (const_attention 1 0) true)
       sample_block (mkLayerNorm (1 * 2) ones zeroes) true]
    (linear_of (1 * 2) 1 (const_linear 1 0)).

(** A batch of one sequence of two positions. *)
Definition sample_input : Tensor3 := rtab3 1 2 (1 * 2) (fun _ _ _ => 1).

(** A library whose optimizer state is the number of scheduler steps. *)
Definition counting_library : Library unit unit nat :=
  mkLibrary
    (fun _ _ ids _ => Some (tab (length ids) 2 (fun _ c => Fin (INR c))))
    (fun _ _ _ g => Some (1, g))
    (fun _ _ g => g) (fun g => g) (fun p _ o => (p, o)) S.

Definition sample_tokenizer : BertTokenizer :=
  mkBertTokenizer (fun _ => [7; 8; 9]%Z) 101 102 0.

(** * Properties *)

(** ** Tabulated tensors *)

Lemma nth_map_seq {A} (d : A) (f : nat -> A) (n i : nat) :
  (i < n)%nat -> nth i (map f (seq 0 n)) d = f i.
Proof.
  intros Hi.
  rewrite (nth_indep _ d (f 0%nat)) by (rewrite length_map, length_seq; exact Hi).
  rewrite map_nth, seq_nth by exact Hi. reflexivity.
Qed.

Lemma get_tab {A} (d : A) m n (f : nat -> nat -> A) i j :
  (i < m)%nat -> (j < n)%nat -> get d (tab m n f) i j = f i j.
Proof.
  intros Hi Hj. unfold get, tab; simpl.
  rewrite (nth_map_seq [] (fun i => map (f i) (seq 0 n)) Hi).
  apply nth_map_seq; exact Hj.
Qed.

Lemma row_tab {A} m n (f : nat -> nat -> A) i :
  (i < m)%nat -> row (tab m n f) i = map (f i) (seq 0 n).
Proof.
  intros Hi. unfold row, tab; simpl.
  apply (nth_map_seq [] (fun i => map (f i) (seq 0 n)) Hi).
Qed.

Lemma map_seq_ext {A} (f g : nat -> A) n :
  (forall i, (i < n)%nat -> f i = g i) -> map f (seq 0 n) = map g (seq 0 n).
Proof.
  intros H. apply map_ext_in. intros i Hi. apply in_seq in Hi. apply H. lia.
Qed.

Lemma tab_ext {A} m n (f g : nat -> nat -> A) :
  (forall i j, (i < m)%nat -> (j < n)%nat -> f i j = g i j) ->
  tab m n f = tab m n g.
Proof.
  intros H. unfold tab. f_equal.
  apply map_seq_ext. intros i Hi.
  apply map_seq_ext. intros j Hj. apply H; assumption.
Qed.

Lemma tab_wf {A} m n (f : nat -> nat -> A) : wf (tab m n f).
Proof.
  split; simpl.
  - rewrite length_map, length_seq. reflexivity.
  - apply Forall_forall. intros r Hr. apply in_map_iff in Hr.
    destruct Hr as [i [<- _]]. rewrite length_map, length_seq. reflexivity.
Qed.

Lemma list_eq_nth {A} (d : A) (l1 l2 : list A) :
  length l1 = length l2 ->
  (forall i, (i < length l1)%nat -> nth i l1 d = nth i l2 d) -> l1 = l2.
Proof.
  revert l2. induction l1 as [|a l1 IH]; intros [|b l2] Hlen H; simpl in *;
    try discriminate; try reflexivity.
  f_equal.
  - apply (H 0%nat). lia.
  - apply IH; [lia|]. intros i Hi. apply (H (S i)). lia.
Qed.

(** Every well-formed tensor is the table of its entries. *)
Lemma wf_tab {A} (d : A) (T : Tensor A) :
  wf T -> T = tab (nrows T) (ncols T) (get d T).
Proof.
  destruct T as [m n e]. unfold wf, tab; simpl. intros [Hlen Hrows].
  f_equal. apply (list_eq_nth []).
  - rewrite length_map, length_seq. exact Hlen.
  - intros i Hi. rewrite Hlen in Hi.
    rewrite (nth_map_seq [] (fun i => map (get d (mkTensor m n e) i) (seq 0 n)) Hi).
    assert (Hr : length (nth i e []) = n).
    { rewrite Forall_forall in Hrows. apply Hrows. apply nth_In. lia. }
    apply (list_eq_nth d).
    + rewrite length_map, length_seq. exact Hr.
    + intros j Hj. rewrite Hr in Hj.
      rewrite (nth_map_seq d (get d (mkTensor m n e) i) Hj). reflexivity.
Qed.

(** ** Float32 range *)

Lemma overflow_threshold_pos : 0 < overflow_threshold.
Proof. unfold overflow_threshold. lra. Qed.

Lemma to_float32_in_range x :
  Rabs x < overflow_threshold -> to_float32 x = Fin x.
Proof.
  intros Hx. apply Rabs_def2 in Hx. destruct Hx as [H1 H2].
  unfold to_float32.
  destruct (Rle_dec overflow_threshold x); [exfalso; lra|].
  destruct (Rle_dec x (- overflow_threshold)); [exfalso; lra | reflexivity].
Qed.

Lemma to_float32_overflow x :
  overflow_threshold <= x -> to_float32 x = PosInf.
Proof.
  intros Hx. unfold to_float32.
  destruct (Rle_dec overflow_threshold x); [reflexivity | contradiction].
Qed.

Lemma to_float32_0 : to_float32 0 = Fin 0.
Proof.
  apply to_float32_in_range. rewrite Rabs_R0. apply overflow_threshold_pos.
Qed.

Lemma fadd_Fin x y :
  Rabs (x + y) < overflow_threshold -> fadd (Fin x) (Fin y) = Fin (x + y).
Proof. apply to_float32_in_range. Qed.

Lemma fmul_Fin x y :
  Rabs (x * y) < overflow_threshold -> fmul (Fin x) (Fin y) = Fin (x * y).
Proof. apply to_float32_in_range. Qed.

Lemma fmul_0_l y : fmul (Fin 0) (Fin y) = Fin 0.
Proof. cbn [fmul]. rewrite Rmult_0_l. apply to_float32_0. Qed.

Lemma fmul_0_r x : fmul (Fin x) (Fin 0) = Fin 0.
Proof. cbn [fmul]. rewrite Rmult_0_r. apply to_float32_0. Qed.

Lemma fadd_0_r x : Rabs x < overflow_threshold -> fadd (Fin x) (Fin 0) = Fin x.
Proof. intros Hx. cbn [fadd]. rewrite Rplus_0_r. apply to_float32_in_range, Hx. Qed.

Lemma fmul_NaN_l a : fmul NaN a = NaN.
Proof. reflexivity. Qed.

Lemma fmul_NaN_r a : fmul a NaN = NaN.
Proof. destruct a; reflexivity. Qed.

Lemma fadd_NaN_r a : fadd a NaN = NaN.
Proof. destruct a; reflexivity. Qed.

(** ** Sums *)

Lemma rsum_nonneg (l : list R) :
  Forall (fun x => 0 <= x) l -> 0 <= rsum l.
Proof.
  induction 1 as [|a l Ha _ IH]; simpl; lra.
Qed.

Lemma rsum_abs_nonneg {A} (f : A -> R) (l : list A) :
  0 <= rsum (map (fun a => Rabs (f a)) l).
Proof.
  apply rsum_nonneg, Forall_forall. intros x Hx. apply in_map_iff in Hx.
  destruct Hx as [a [<- _]]. apply Rabs_pos.
Qed.

Lemma rsum_abs_le {A} (f : A -> R) (l : list A) :
  Rabs (rsum (map f l)) <= rsum (map (fun a => Rabs (f a)) l).
Proof.
  induction l as [|a l IH]; simpl.
  - rewrite Rabs_R0. lra.
  - eapply Rle_trans; [apply Rabs_triang|]. lra.
Qed.

(** A sum of real numbers is the real sum when the sum of the magnitudes
    stays inside the range: no partial sum overflows, in whatever order
    the terms are added. *)
Lemma fsum_Fin {A} (f : A -> R) (l : list A) :
  rsum (map (fun a => Rabs (f a)) l) < overflow_threshold ->
  fsum (map (fun k => Fin (f k)) l) = Fin (rsum (map f l)).
Proof.
  induction l as [|a l IH]; intros Hb; [reflexivity|].
  cbn [map rsum fold_right] in Hb.
  pose proof (rsum_abs_nonneg f l) as Hn. pose proof (Rabs_pos (f a)) as Ha.
  change (fadd (Fin (f a)) (fsum (map (fun k => Fin (f k)) l))
          = Fin (f a + rsum (map f l))).
  rewrite IH by (unfold rsum in *; lra). apply fadd_Fin.
  eapply Rle_lt_trans; [apply Rabs_triang|].
  pose proof (rsum_abs_le f l). unfold rsum in *. lra.
Qed.

Lemma fsum_fmul_Fin {A} (a b : A -> R) (l : list A) :
  rsum (map (fun k => Rabs (a k * b k)) l) < overflow_threshold ->
  fsum (map (fun k => fmul (Fin (a k)) (Fin (b k))) l)
  = Fin (rsum (map (fun k => a k * b k) l)).
Proof.
  intros Hb. rewrite <- (fsum_Fin (fun k => a k * b k)) by exact Hb.
  f_equal. apply map_ext_in. intros k Hk. apply fmul_Fin.
  eapply Rle_lt_trans; [|exact Hb]. clear Hb.
  induction l as [|x l IH]; [contradiction|]. cbn [map rsum fold_right].
  pose proof (rsum_abs_nonneg (fun k => a k * b k) l) as Hn.
  pose proof (Rabs_pos (a x * b x)).
  destruct Hk as [-> | Hk]; [unfold rsum in *; lra|].
  specialize (IH Hk). unfold rsum in *. lra.
Qed.

Lemma fsum_n_Fin n (f : nat -> R) :
  rsum_n n (fun k => Rabs (f k)) < overflow_threshold ->
  fsum_n n (fun k => Fin (f k)) = Fin (rsum_n n f).
Proof. apply fsum_Fin. Qed.

Lemma fsum_n_fmul_Fin n (a b : nat -> R) :
  rsum_n n (fun k => Rabs (a k * b k)) < overflow_threshold ->
  fsum_n n (fun k => fmul (Fin (a k)) (Fin (b k)))
  = Fin (rsum_n n (fun k => a k * b k)).
Proof. apply fsum_fmul_Fin. Qed.

Lemma fsum_n_ext n (f g : nat -> float) :
  (forall k, (k < n)%nat -> f k = g k) -> fsum_n n f = fsum_n n g.
Proof. intros H. unfold fsum_n. f_equal. apply map_seq_ext. exact H. Qed.

Lemma rsum_n_ext n (f g : nat -> R) :
  (forall k, (k < n)%nat -> f k = g k) -> rsum_n n f = rsum_n n g.
Proof. intros H. unfold rsum_n. f_equal. apply map_seq_ext. exact H. Qed.

Lemma rsum_scale (c : R) (l : list R) :
  rsum (map (fun x => x * c) l) = rsum l * c.
Proof. induction l as [|a l IH]; simpl; [lra | rewrite IH; lra]. Qed.

Lemma rsum_pos (l : list R) :
  Forall (fun x => 0 <= x) l -> Exists (fun x => 0 < x) l -> 0 < rsum l.
Proof.
  intros Hall Hex. induction Hex as [a l Ha | a l Hex IH]; simpl.
  - inversion Hall as [|? ? _ Hl]; subst. pose proof (rsum_nonneg Hl). lra.
  - inversion Hall as [|? ? Ha Hl]; subst. specialize (IH Hl). lra.
Qed.

Lemma rsum_n_le n (f g : nat -> R) :
  (forall k, (k < n)%nat -> f k <= g k) -> rsum_n n f <= rsum_n n g.
Proof.
  intros H. unfold rsum_n.
  assert (G : forall l, (forall k, In k l -> (k < n)%nat) ->
                        rsum (map f l) <= rsum (map g l)).
  { induction l as [|a l IH]; intros Hl; simpl; [lra|].
    pose proof (H a (Hl a (or_introl eq_refl))).
    pose proof (IH (fun k Hk => Hl k (or_intror Hk))). lra. }
  apply G. intros k Hk. apply in_seq in Hk. lia.
Qed.

Lemma rsum_n_const n (c : R) : rsum_n n (fun _ => c) = INR n * c.
Proof.
  unfold rsum_n.
  assert (G : forall l : list nat, rsum (map (fun _ => c) l) = INR (length l) * c).
  { induction l as [|a l IH]; [simpl; lra|].
    cbn [map rsum fold_right length]. rewrite S_INR.
    unfold rsum in IH. rewrite IH. lra. }
  rewrite G, length_seq. reflexivity.
Qed.

Lemma rsum_n_scale n c (f : nat -> R) :
  rsum_n n (fun k => f k * c) = rsum_n n f * c.
Proof.
  unfold rsum_n. rewrite <- rsum_scale, map_map. reflexivity.
Qed.

(** The sum of the magnitudes of [n] terms bounded by [c]. *)
Lemma rsum_n_bound n (f : nat -> R) c :
  (forall k, (k < n)%nat -> Rabs (f k) <= c) ->
  rsum_n n (fun k => Rabs (f k)) <= INR n * c.
Proof.
  intros H. rewrite <- rsum_n_const. apply rsum_n_le. exact H.
Qed.

Lemma rsum_n_abs_le n (f : nat -> R) :
  Rabs (rsum_n n f) <= rsum_n n (fun k => Rabs (f k)).
Proof. apply rsum_abs_le. Qed.

(** ** Primitives on tabulated tensors *)

Lemma fget_tab m n (f : nat -> nat -> float) i j :
  (i < m)%nat -> (j < n)%nat -> fget (tab m n f) i j = f i j.
Proof. intros Hi Hj. unfold fget. apply get_tab; assumption. Qed.


Lemma transpose_tab m n (f : nat -> nat -> float) :
  transpose (tab m n f) = tab n m (fun i j => f j i).
Proof.
  unfold transpose; simpl. apply tab_ext. intros i j Hi Hj.
  apply fget_tab; assumption.
Qed.

Lemma transpose_rtab m n f :
  transpose (rtab m n f) = rtab n m (fun i j => f j i).
Proof. apply transpose_tab. Qed.

Lemma matmul_tab m n p (f g : nat -> nat -> float) :
  matmul (tab m n f) (tab n p g)
  = Some (tab m p (fun i j => fsum_n n (fun k => fmul (f i k) (g k j)))).
Proof.
  unfold matmul; simpl. rewrite Nat.eqb_refl. f_equal.
  apply tab_ext. intros i j Hi Hj. apply fsum_n_ext. intros k Hk.
  unfold fget. rewrite !get_tab by assumption. reflexivity.
Qed.

Lemma div_scalar_tab m n (f : nat -> nat -> float) s :
  div_scalar (tab m n f) s = tab m n (fun i j => fdiv_scalar (f i j) s).
Proof.
  unfold div_scalar; simpl. apply tab_ext. intros i j Hi Hj.
  rewrite fget_tab by assumption. reflexivity.
Qed.

Lemma list_tabulate {A} (d : A) (l : list A) :
  l = map (fun j => nth j l d) (seq 0 (length l)).
Proof.
  apply (list_eq_nth d).
  - rewrite length_map, length_seq. reflexivity.
  - intros j Hj. rewrite (nth_map_seq d _ Hj). reflexivity.
Qed.

Lemma softmax_row_length xs : length (softmax_row xs) = length xs.
Proof. unfold softmax_row. destruct (regular xs); apply length_map. Qed.

Lemma softmax_tab m n (s : nat -> nat -> float) :
  softmax (tab m n s) = tab m n (weight_entry s n).
Proof.
  unfold softmax, tab; simpl. f_equal. rewrite map_map.
  apply map_ext. intros i. unfold weight_entry.
  rewrite (list_tabulate NaN (softmax_row (map (s i) (seq 0 n)))) at 1.
  rewrite softmax_row_length, length_map, length_seq. reflexivity.
Qed.

(** [self_attention] entry by entry. *)
Lemma self_attention_weights_tab n m d (q k : nat -> nat -> float) :
  self_attention_weights (tab n d q) (tab m d k)
  = Some (tab n m (weight_entry (score_entry q k d) m)).
Proof.
  unfold self_attention_weights, self_attention_scores.
  rewrite transpose_tab, matmul_tab. unfold dimension. cbn [ncols tab].
  rewrite div_scalar_tab, softmax_tab. reflexivity.
Qed.

Lemma self_attention_tab n m d dv (q k v : nat -> nat -> float) :
  self_attention (tab n d q) (tab m d k) (tab m dv v)
  = Some (tab n dv (fun i c =>
            fsum_n m (fun j => fmul (weight_entry (score_entry q k d) m i j)
                                    (v j c)))).
Proof.
  unfold self_attention. rewrite self_attention_weights_tab, matmul_tab.
  reflexivity.
Qed.

(** ** Real results inside the range *)


Lemma fdiv_scalar_Fin x s :
  1 <= s -> Rabs x < overflow_threshold -> fdiv_scalar (Fin x) s = Fin (x / s).
Proof.
  intros Hs Hx. unfold fdiv_scalar. destruct (Req_dec_T s 0); [exfalso; lra|].
  apply fmul_Fin. rewrite Rabs_mult.
  assert (Hi : 0 < / s <= 1).
  { split; [apply Rinv_0_lt_compat; lra|].
    rewrite <- Rinv_1. apply Rinv_le_contravar; lra. }
  rewrite (Rabs_pos_eq (/ s)) by lra.
  pose proof (Rabs_pos x). nra.
Qed.

Lemma sqrt_INR_ge1 d : (0 < d)%nat -> 1 <= sqrt (INR d).
Proof.
  intros Hd. rewrite <- sqrt_1. apply sqrt_le_1_alt.
  change 1 with (INR 1). apply le_INR. lia.
Qed.

Lemma sqrt_INR_neq0 d : (0 < d)%nat -> sqrt (INR d) <> 0.
Proof.
  intros Hd. apply Rgt_not_eq, sqrt_lt_R0. apply lt_0_INR. exact Hd.
Qed.

Lemma score_entry_Fin (q k : nat -> nat -> R) d i j :
  (0 < d)%nat ->
  rsum_n d (fun t => Rabs (q i t * k j t)) < overflow_threshold ->
  score_entry (fun i t => Fin (q i t)) (fun j t => Fin (k j t)) d i j
  = Fin (score_formula q k d i j).
Proof.
  intros Hd Hb. unfold score_entry, score_formula.
  rewrite fsum_n_fmul_Fin by exact Hb.
  apply fdiv_scalar_Fin; [apply sqrt_INR_ge1; exact Hd|].
  eapply Rle_lt_trans; [apply rsum_n_abs_le | exact Hb].
Qed.

(** ** Softmax rows *)

Lemma regular_Fin {A} (f : A -> R) (l : list A) :
  regular (map (fun a => Fin (f a)) l) = true.
Proof.
  unfold regular. apply andb_true_iff. split.
  - apply forallb_forall. intros x Hx. apply in_map_iff in Hx.
    destruct Hx as [a [<- _]]. reflexivity.
  - destruct l as [|a l]; reflexivity.
Qed.

Lemma regular_masked (vis : nat -> bool) (s : nat -> R) m :
  regular (map (fun j => if vis j then Fin (s j) else NegInf) (seq 0 m))
  = existsb vis (seq 0 m) || (m =? 0)%nat.
Proof.
  unfold regular. rewrite length_map, length_seq.
  replace (forallb _ _) with true.
  - cbn [andb]. f_equal. induction (seq 0 m) as [|a l IH]; simpl; [reflexivity|].
    rewrite IH. destruct (vis a); reflexivity.
  - symmetry. apply forallb_forall. intros x Hx. apply in_map_iff in Hx.
    destruct Hx as [j [<- _]]. destruct (vis j); reflexivity.
Qed.

Lemma row_visible_unmasked m i : row_visible unmasked m i = true.
Proof.
  unfold row_visible. destruct m as [|m]; [reflexivity|]. reflexivity.
Qed.

Lemma row_visible_spec vis m i :
  row_visible vis m i = true <->
  (exists j, (j < m)%nat /\ vis i j = true) \/ m = 0%nat.
Proof.
  unfold row_visible. rewrite orb_true_iff, existsb_exists, Nat.eqb_eq.
  split; intros [[j [Hj Hv]] | H]; auto; left; exists j; split; auto.
  - apply in_seq in Hj. lia.
  - apply in_seq. lia.
Qed.

(** The softmax weights of a row whose visible scores are real: the
    weights of the formula when the row sees a key, NaN when all its keys
    are masked. *)
Lemma weight_entry_real vis (s' : nat -> nat -> float) (s : nat -> nat -> R) m i j :
  (forall l, (l < m)%nat -> vis i l = true -> s' i l = Fin (s i l)) ->
  (j < m)%nat ->
  weight_entry (masked_score vis s') m i j
  = if row_visible vis m i then Fin (weight_formula vis s m i j) else NaN.
Proof.
  intros Hs Hj. unfold weight_entry.
  replace (map (masked_score vis s' i) (seq 0 m))
    with (map (fun l => if vis i l then Fin (s i l) else NegInf) (seq 0 m)).
  - unfold softmax_row. rewrite regular_masked. fold (row_visible vis m i).
    destruct (row_visible vis m i); rewrite !map_map.
    + rewrite (nth_map_seq NaN _ Hj). unfold weight_formula, rsum_n.
      replace (map (fun x => fexp (if vis i x then Fin (s i x) else NegInf)) (seq 0 m))
        with (map (fun l => if vis i l then exp (s i l) else 0) (seq 0 m))
        by (apply map_ext; intros l; destruct (vis i l); reflexivity).
      destruct (vis i j); reflexivity.
    + rewrite (nth_map_seq NaN _ Hj). reflexivity.
  - apply map_seq_ext. intros l Hl. unfold masked_score.
    destruct (vis i l) eqn:E; [|reflexivity]. symmetry. apply Hs; assumption.
Qed.

(** A visible score that is [+inf] or NaN (an overflow in the dot product,
    for instance) turns the whole row of weights into NaN. *)
Lemma weight_entry_irregular vis (s' : nat -> nat -> float) m i j l :
  (l < m)%nat -> vis i l = true -> s' i l = PosInf \/ s' i l = NaN ->
  (j < m)%nat ->
  weight_entry (masked_score vis s') m i j = NaN.
Proof.
  intros Hl Hv Hs Hj. unfold weight_entry, softmax_row.
  replace (regular (map (masked_score vis s' i) (seq 0 m))) with false.
  - rewrite map_map. rewrite (nth_map_seq NaN _ Hj). reflexivity.
  - symmetry. unfold regular. apply andb_false_iff. left.
    apply not_true_is_false. intros Hall.
    rewrite forallb_forall in Hall.
    assert (Hin : In (masked_score vis s' i l) (map (masked_score vis s' i) (seq 0 m))).
    { apply in_map. apply in_seq. lia. }
    specialize (Hall _ Hin). unfold masked_score in Hall. rewrite Hv in Hall.
    destruct Hs as [E | E]; rewrite E in Hall; discriminate.
Qed.

Lemma masked_score_unmasked s i j : masked_score unmasked s i j = s i j.
Proof. reflexivity. Qed.
(** ** Softmax weights sum to one *)

Lemma masked_exp_sum_pos (vis : nat -> bool) (s : nat -> R) m :
  (exists j, (j < m)%nat /\ vis j = true) ->
  0 < rsum_n m (fun l => if vis l then exp (s l) else 0).
Proof.
  intros [j [Hj Hv]]. unfold rsum_n. apply rsum_pos.
  - apply Forall_forall. intros x Hx. apply in_map_iff in Hx.
    destruct Hx as [l [<- _]]. destruct (vis l); [left; apply exp_pos | lra].
  - apply Exists_exists. exists (exp (s j)). split; [|apply exp_pos].
    apply in_map_iff. exists j. split; [rewrite Hv; reflexivity|].
    apply in_seq. lia.
Qed.

Lemma weight_formula_sum vis s m i :
  (exists j, (j < m)%nat /\ vis i j = true) ->
  rsum_n m (weight_formula vis s m i) = 1.
Proof.
  intros Hex.
  pose proof (masked_exp_sum_pos (vis i) (s i) Hex) as Hpos.
  unfold weight_formula, rsum_n in *.
  set (S := rsum (map (fun l => if vis i l then exp (s i l) else 0) (seq 0 m))) in *.
  transitivity (rsum (map (fun x => x * / S)
                        (map (fun l => if vis i l then exp (s i l) else 0) (seq 0 m)))).
  - rewrite map_map. reflexivity.
  - rewrite rsum_scale. fold S. field. lra.
Qed.

Lemma weight_formula_nonneg vis s m i j :
  0 <= weight_formula vis s m i j.
Proof.
  unfold weight_formula.
  assert (Hnum : 0 <= (if vis i j then exp (s i j) else 0))
    by (destruct (vis i j); [left; apply exp_pos | lra]).
  assert (Hden : 0 <= rsum_n m (fun l => if vis i l then exp (s i l) else 0)).
  { apply rsum_nonneg, Forall_forall. intros x Hx. apply in_map_iff in Hx.
    destruct Hx as [l [<- _]]. destruct (vis i l); [left; apply exp_pos | lra]. }
  destruct Hden as [Hden | Hden].
  - apply Rlt_le in Hden. apply Rmult_le_pos; [exact Hnum|].
    destruct Hden as [Hden|Hden]; [left; apply Rinv_0_lt_compat; exact Hden|].
    rewrite <- Hden, Rinv_0. lra.
  - rewrite <- Hden. unfold Rdiv. rewrite Rinv_0. lra.
Qed.

Lemma rsum_term_le (l : list R) x :
  Forall (fun y => 0 <= y) l -> In x l -> x <= rsum l.
Proof.
  induction 1 as [|a l Ha Hl IH]; intros Hin; [contradiction|].
  cbn [rsum fold_right]. pose proof (rsum_nonneg Hl) as Hn. unfold rsum in *.
  destruct Hin as [-> | Hin]; [lra|]. specialize (IH Hin). lra.
Qed.

Lemma weight_formula_le1 vis s m i j :
  (j < m)%nat -> weight_formula vis s m i j <= 1.
Proof.
  intros Hj. unfold weight_formula.
  set (e := fun l => if vis i l then exp (s i l) else 0).
  assert (Hall : Forall (fun y => 0 <= y) (map e (seq 0 m))).
  { apply Forall_forall. intros x Hx. apply in_map_iff in Hx.
    destruct Hx as [l [<- _]]. unfold e.
    destruct (vis i l); [left; apply exp_pos | lra]. }
  assert (Hnum : 0 <= e j <= rsum_n m e).
  { split.
    - rewrite Forall_forall in Hall. apply Hall. apply in_map, in_seq. lia.
    - apply rsum_term_le; [exact Hall|]. apply in_map, in_seq. lia. }
  change (e j / rsum_n m e <= 1).
  destruct (Req_dec_T (rsum_n m e) 0) as [E | E].
  - rewrite E. unfold Rdiv. rewrite Rinv_0. lra.
  - apply Rmult_le_reg_r with (rsum_n m e); [lra|].
    unfold Rdiv. rewrite Rmult_assoc, Rinv_l by exact E. lra.
Qed.

(** The sum of the magnitudes of the weighted values of one row stays
    within the bound of the values. *)
Lemma weighted_abs_sum vis s m i (v : nat -> R) b :
  (forall j, (j < m)%nat -> Rabs (v j) <= b) -> 0 <= b ->
  rsum_n m (fun j => Rabs (weight_formula vis s m i j * v j)) <= b.
Proof.
  intros Hv Hb.
  apply Rle_trans with (rsum_n m (fun j => weight_formula vis s m i j * b)).
  - apply rsum_n_le. intros j Hj. rewrite Rabs_mult.
    rewrite (Rabs_pos_eq _ (weight_formula_nonneg vis s m i j)).
    apply Rmult_le_compat_l; [apply weight_formula_nonneg | apply Hv; exact Hj].
  - rewrite rsum_n_scale.
    destruct (row_visible vis m i) eqn:E.
    + apply row_visible_spec in E. destruct E as [Hex | ->].
      * rewrite weight_formula_sum by exact Hex. lra.
      * unfold rsum_n, rsum. simpl. lra.
    + assert (Hz : rsum_n m (weight_formula vis s m i) = 0).
      { unfold row_visible in E. apply orb_false_iff in E. destruct E as [E _].
        rewrite <- (Rmult_0_r (INR m)), <- rsum_n_const.
        apply rsum_n_ext. intros j Hj. unfold weight_formula.
        replace (vis i j) with false; [unfold Rdiv; apply Rmult_0_l|].
        symmetry. apply not_true_is_false. intros Hv'.
        assert (Hex : existsb (vis i) (seq 0 m) = true).
        { apply existsb_exists. exists j. split; [apply in_seq; lia | exact Hv']. }
        congruence. }
      rewrite Hz. lra.
Qed.

(** ** [self_attention] in closed form *)


(** ** Shapes of [self_attention] *)

Lemma self_attention_Some Q K V out :
  self_attention Q K V = Some out ->
  ncols Q = ncols K /\ nrows K = nrows V /\
  nrows out = nrows Q /\ ncols out = ncols V.
Proof.
  unfold self_attention, self_attention_weights, self_attention_scores, matmul.
  simpl.
  destruct (ncols Q =? ncols K)%nat eqn:E1; [|discriminate]. simpl.
  destruct (nrows K =? nrows V)%nat eqn:E2; [|discriminate].
  intros H. injection H as <-. simpl.
  apply Nat.eqb_eq in E1, E2. auto.
Qed.

Lemma self_attention_defined Q K V :
  ncols Q = ncols K -> nrows K = nrows V ->
  exists out, self_attention Q K V = Some out.
Proof.
  intros H1 H2.
  unfold self_attention, self_attention_weights, self_attention_scores, matmul.
  simpl. rewrite H1, Nat.eqb_refl. simpl. rewrite H2, Nat.eqb_refl.
  eexists. reflexivity.
Qed.

(** ** Broadcasting and slices *)

Lemma tmap_tab {A B} (f : A -> B) m n (g : nat -> nat -> A) :
  tmap f (tab m n g) = tab m n (fun i j => f (g i j)).
Proof.
  unfold tmap, tab; simpl. f_equal. rewrite map_map.
  apply map_ext. intros i. rewrite map_map. reflexivity.
Qed.

Lemma bsize_l1 a : bsize a 1 = Some a.
Proof.
  unfold bsize. destruct (a =? 1)%nat eqn:E; [|reflexivity].
  apply Nat.eqb_eq in E. subst. reflexivity.
Qed.

Lemma bsize_1r a : bsize 1 a = Some a.
Proof.
  unfold bsize. destruct (1 =? a)%nat eqn:E; [|reflexivity].
  apply Nat.eqb_eq in E. subst. reflexivity.
Qed.

Lemma bsize_refl a : bsize a a = Some a.
Proof. unfold bsize. rewrite Nat.eqb_refl. reflexivity. Qed.

Lemma bidx_lt a i : (i < a)%nat -> bidx a i = i.
Proof.
  unfold bidx. destruct (a =? 1)%nat eqn:E; [|reflexivity].
  apply Nat.eqb_eq in E. lia.
Qed.

Lemma bget_tab {A} (d : A) m n f i j :
  (i < m)%nat -> (j < n)%nat -> bget d (tab m n f) i j = f i j.
Proof.
  intros Hi Hj. unfold bget; simpl.
  rewrite !bidx_lt by assumption. apply get_tab; assumption.
Qed.

Lemma mul_col_row m k (a : nat -> float) (b : nat -> float) :
  mul (tab m 1 (fun i _ => a i)) (tab 1 k (fun _ t => b t))
  = Some (tab m k (fun i t => fmul (a i) (b t))).
Proof.
  unfold mul, broadcast2; simpl. rewrite bsize_l1, bsize_1r. f_equal.
  apply tab_ext. intros i t Hi Ht. unfold bget; simpl.
  rewrite (bidx_lt Hi), (bidx_lt Ht).
  rewrite !get_tab by (try assumption; unfold bidx; simpl; lia).
  reflexivity.
Qed.

Lemma expand_tab {A} (d : A) m n f :
  expand d (tab m n f) m n = Some (tab m n f).
Proof.
  unfold expand; simpl. rewrite !Nat.eqb_refl. simpl. f_equal.
  apply tab_ext. intros i j Hi Hj. apply bget_tab; assumption.
Qed.

Lemma add_tab m n f g :
  add (tab m n f) (tab m n g) = Some (tab m n (fun i j => fadd (f i j) (g i j))).
Proof.
  unfold add, broadcast2; simpl. rewrite !bsize_refl. f_equal.
  apply tab_ext. intros i j Hi Hj. rewrite !bget_tab by assumption. reflexivity.
Qed.

(** ** [PositionalEncoding] *)

Lemma div_term_entry (l : R) (d : Z) (pos c : nat) :
  (0 < d)%Z ->
  INR pos * exp (INR c * - (ln l / IZR d))
  = INR pos / Rpower l (INR c / IZR d).
Proof.
  intros Hd. unfold Rpower, Rdiv at 2.
  rewrite <- exp_Ropp. do 2 f_equal.
  assert (IZR d <> 0) by (apply not_0_IZR; lia).
  field. assumption.
Qed.

Lemma even_div2 c : Nat.even c = true -> (2 * Nat.div2 c = c)%nat.
Proof.
  intros H. pose proof (Nat.div2_odd c) as E.
  rewrite <- Nat.negb_even, H in E. simpl in E. lia.
Qed.

Lemma odd_div2 c : Nat.even c = false -> (2 * Nat.div2 c + 1 = c)%nat.
Proof.
  intros H. pose proof (Nat.div2_odd c) as E.
  rewrite <- Nat.negb_even, H in E. simpl in E. lia.
Qed.

Lemma div2_lt_even c n :
  (c < n)%nat -> Nat.even c = true -> (Nat.div2 c < Nat.div2 (n + 1))%nat.
Proof.
  intros Hc He. pose proof (even_div2 c He).
  pose proof (Nat.div2_odd (n + 1)). destruct (Nat.odd (n + 1)); simpl in *; lia.
Qed.

Lemma setitem_cols2_tab M D start k (f v : nat -> nat -> float) :
  k = slice2_count D start ->
  setitem_cols2 (tab M D f) start (tab M k v)
  = Some (tab M D (fun i c =>
                     if (start <=? c)%nat && Nat.even (c - start)
                     then v i (Nat.div2 (c - start)) else f i c)).
Proof.
  intros ->. unfold setitem_cols2; simpl. rewrite expand_tab. f_equal.
  apply tab_ext. intros i c Hi Hc.
  destruct ((start <=? c)%nat && Nat.even (c - start)) eqn:E.
  - apply andb_true_iff in E. destruct E as [E1 E2]. apply Nat.leb_le in E1.
    unfold fget. rewrite get_tab; [reflexivity | assumption |].
    unfold slice2_count. apply div2_lt_even; [lia | assumption].
  - unfold fget. apply get_tab; assumption.
Qed.

Lemma setitem_cols2_none M (f v : nat -> nat -> float) :
  setitem_cols2 (tab M 1 f) 1 (tab M 1 v) = Some (tab M 1 f).
Proof.
  unfold setitem_cols2, expand; simpl. rewrite Nat.eqb_refl. simpl. f_equal.
  apply tab_ext. intros i c Hi Hc.
  replace c with 0%nat by lia. simpl. unfold fget. apply get_tab; lia.
Qed.

Lemma even_to_nat (d : Z) :
  (0 <= d)%Z -> Nat.even (Z.to_nat d) = Z.even d.
Proof.
  intros Hd. destruct (Z.even d) eqn:E.
  - apply Z.even_spec in E. destruct E as [k ->].
    apply Nat.even_spec. exists (Z.to_nat k). lia.
  - destruct (Nat.even (Z.to_nat d)) eqn:E'; [|reflexivity].
    apply Nat.even_spec in E'. destruct E' as [k Hk].
    assert (Z.even d = true); [|congruence].
    apply Z.even_spec. exists (Z.of_nat k). lia.
Qed.

Lemma even_pred c : (1 <= c)%nat -> Nat.even (c - 1) = negb (Nat.even c).
Proof.
  intros Hc. destruct c as [|c]; [lia|].
  replace (S c - 1)%nat with c by lia.
  rewrite Nat.even_succ, <- Nat.negb_even, negb_involutive. reflexivity.
Qed.

(** Entry [(pos, c)] of the table after the two slice assignments. *)
(** Entry [(pos, c)] of the table after the two slice assignments. *)
Lemma encoding_entry (l : R) (d : Z) (pos c : nat) :
  (if (1 <=? c)%nat && Nat.even (c - 1)
   then tcos_elt (fmul (Fin (INR pos))
          (texp_elt (fmul (Fin (INR (2 * Nat.div2 (c - 1)))) (Fin (- (ln l / IZR d))))))
   else if (0 <=? c)%nat && Nat.even (c - 0)
   then tsin_elt (fmul (Fin (INR pos))
          (texp_elt (fmul (Fin (INR (2 * Nat.div2 (c - 0)))) (Fin (- (ln l / IZR d))))))
   else Fin 0)
  = pe_entry l d pos c.
Proof.
  unfold pe_entry. rewrite Nat.sub_0_r. change (0 <=? c)%nat with true.
  destruct (Nat.leb_spec 1 c) as [Hc|Hc].
  - rewrite (even_pred Hc). destruct (Nat.even c); reflexivity.
  - replace c with 0%nat by lia. reflexivity.
Qed.

(** The table of a constructed [PositionalEncoding], entry by entry. *)
Lemma PositionalEncoding_init_tab (d max_len : Z) (l : R) :
  (0 <= max_len)%Z -> (0 < d)%Z -> 0 < l ->
  Z.even d = true \/ d = 1%Z ->
  PositionalEncoding_init d max_len l
  = Some (mkPositionalEncoding (tab (Z.to_nat max_len) (Z.to_nat d) (pe_entry l d))).
Proof.
  intros Hm Hd Hl Hev. unfold PositionalEncoding_init, zeros, math_log, py_div.
  replace ((0 <=? max_len)%Z) with true by (symmetry; apply Z.leb_le; lia).
  replace ((0 <=? d)%Z) with true by (symmetry; apply Z.leb_le; lia).
  cbn [andb].
  destruct (Rlt_dec 0 l) as [_|]; [|contradiction].
  replace ((d =? 0)%Z) with false by (symmetry; apply Z.eqb_neq; lia).
  unfold scale, arange2_row, arange_col. rewrite !tmap_tab.
  rewrite (mul_col_row (Z.to_nat max_len) (Nat.div2 (Z.to_nat d + 1))
             (fun i => Fin (INR i))
             (fun j => texp_elt (fmul (Fin (INR (2 * j))) (Fin (- (ln l / IZR d)))))).
  rewrite !tmap_tab.
  rewrite setitem_cols2_tab by (unfold slice2_count; f_equal; lia).
  destruct Hev as [Hev | ->].
  - rewrite <- even_to_nat in Hev by lia.
    rewrite setitem_cols2_tab.
    + do 2 f_equal. apply tab_ext. intros pos c Hpos Hc.
      apply encoding_entry.
    + unfold slice2_count.
      pose proof (even_div2 _ Hev).
      pose proof (Nat.div2_odd (Z.to_nat d + 1)).
      pose proof (Nat.div2_odd (Z.to_nat d - 1 + 1)).
      destruct (Nat.odd (Z.to_nat d + 1)), (Nat.odd (Z.to_nat d - 1 + 1));
        simpl in *; lia.
  - change (Z.to_nat 1) with 1%nat. change (Nat.div2 (1 + 1)) with 1%nat.
    rewrite setitem_cols2_none. reflexivity.
Qed.

(** The greatest entry of [div_term]. *)
Lemma div_term_bound (l : R) (d : Z) (k : nat) :
  0 < l -> (0 < d)%Z -> INR k <= IZR d ->
  Rabs (INR k * - (ln l / IZR d)) <= Rabs (ln l) /\
  exp (INR k * - (ln l / IZR d)) <= Rmax 1 (/ l).
Proof.
  intros Hl Hd Hk.
  assert (Hd' : 0 < IZR d) by (apply IZR_lt; exact Hd).
  assert (Hk0 : 0 <= INR k) by apply pos_INR.
  set (r := INR k / IZR d).
  assert (Hr : 0 <= r <= 1).
  { unfold r. split.
    - apply Rmult_le_pos; [exact Hk0 | left; apply Rinv_0_lt_compat; exact Hd'].
    - apply Rmult_le_reg_r with (IZR d); [exact Hd'|].
      unfold Rdiv. rewrite Rmult_assoc, Rinv_l by lra. lra. }
  replace (INR k * - (ln l / IZR d)) with (r * - ln l) by (unfold r; field; lra).
  split.
  - rewrite Rabs_mult, Rabs_Ropp, (Rabs_pos_eq r) by lra.
    pose proof (Rabs_pos (ln l)). nra.
  - destruct (Rle_dec 1 l) as [H1 | H1].
    + assert (0 <= ln l).
      { rewrite <- ln_1. destruct H1 as [H1 | <-]; [left; apply ln_increasing; lra | lra]. }
      apply Rle_trans with 1; [|apply Rmax_l].
      rewrite <- exp_0. destruct (Req_dec_T (r * - ln l) 0) as [-> | Hne]; [lra|].
      left. apply exp_increasing. nra.
    + assert (ln l < 0) by (rewrite <- ln_1; apply ln_increasing; lra).
      apply Rle_trans with (/ l); [|apply Rmax_r].
      rewrite <- (exp_ln l) at 2 by exact Hl. rewrite <- exp_Ropp.
      destruct (Req_dec_T (r * - ln l) (- ln l)) as [-> | Hne]; [lra|].
      left. apply exp_increasing. nra.
Qed.

(** Inside the range the table holds the sines and cosines of the
    specification. *)
Lemma pe_entry_Fin (l : R) (d max_len : Z) (pos c : nat) :
  0 < l -> (0 < d)%Z -> encoding_in_range max_len l ->
  (pos < Z.to_nat max_len)%nat -> (c < Z.to_nat d)%nat ->
  pe_entry l d pos c = Fin (pe_table l d pos c).
Proof.
  intros Hl Hd [Hln Hmax] Hpos Hc.
  assert (Hm1 : 1 <= Rmax 1 (/ l)) by apply Rmax_l.
  assert (HP : INR pos <= Rmax 1 (IZR max_len)).
  { apply Rle_trans with (IZR max_len); [|apply Rmax_r].
    rewrite INR_IZR_INZ. apply IZR_le. lia. }
  assert (HP0 : 0 <= INR pos) by apply pos_INR.
  assert (Hent : forall k, (k < Z.to_nat d)%nat ->
            fmul (Fin (INR pos)) (texp_elt (fmul (Fin (INR k)) (Fin (- (ln l / IZR d)))))
            = Fin (INR pos / Rpower l (INR k / IZR d))).
  { intros k Hk.
    assert (Hkd : INR k <= IZR d).
    { rewrite INR_IZR_INZ. apply IZR_le. lia. }
    destruct (div_term_bound k Hl Hd Hkd) as [Ha He].
    rewrite fmul_Fin by lra. cbn [texp_elt].
    pose proof (exp_pos (INR k * - (ln l / IZR d))) as Hep.
    assert (Hm2 : 1 <= Rmax 1 (IZR max_len)) by apply Rmax_l.
    rewrite to_float32_in_range by (rewrite Rabs_pos_eq by lra; nra).
    rewrite fmul_Fin.
    - rewrite div_term_entry by exact Hd. reflexivity.
    - rewrite Rabs_pos_eq by nra.
      apply Rle_lt_trans with (Rmax 1 (IZR max_len) * Rmax 1 (/ l)); [|exact Hmax].
      apply Rmult_le_compat; lra. }
  unfold pe_entry, pe_table.
  destruct (Nat.even c) eqn:Ec.
  - rewrite (even_div2 c Ec). rewrite Hent by exact Hc. reflexivity.
  - assert (Hc1 : (1 <= c)%nat) by (destruct c; [discriminate | lia]).
    assert (Ec1 : Nat.even (c - 1) = true) by (rewrite (even_pred Hc1), Ec; reflexivity).
    rewrite (even_div2 (c - 1) Ec1). rewrite Hent by lia. reflexivity.
Qed.

Lemma PositionalEncoding_init_ok (d max_len : Z) (l : R) :
  (0 <= max_len)%Z -> (0 < d)%Z -> 0 < l ->
  Z.even d = true \/ d = 1%Z -> encoding_in_range max_len l ->
  PositionalEncoding_init d max_len l
  = Some (mkPositionalEncoding (rtab (Z.to_nat max_len) (Z.to_nat d) (pe_table l d))).
Proof.
  intros Hm Hd Hl Hev Hr. rewrite PositionalEncoding_init_tab by assumption.
  do 2 f_equal. apply tab_ext. intros pos c Hpos Hc.
  apply (pe_entry_Fin Hl Hd Hr); assumption.
Qed.

Lemma default_l_pos : 0 < default_l.
Proof. unfold default_l. lra. Qed.

Lemma ln_lt_self x : 0 < x -> ln x < x.
Proof.
  intros Hx. rewrite <- (ln_exp x) at 2. apply ln_increasing; [exact Hx|].
  pose proof (exp_ineq1 x). lra.
Qed.

(** With the default base nothing overflows in a table of at most 5000
    positions. *)
Lemma default_encoding_in_range (max_len : Z) :
  (max_len <= default_max_len)%Z -> encoding_in_range max_len default_l.
Proof.
  intros Hm. unfold encoding_in_range, default_l. split.
  - assert (0 < ln 10000) by (rewrite <- ln_1; apply ln_increasing; lra).
    pose proof (@ln_lt_self 10000 ltac:(lra)).
    rewrite Rabs_pos_eq by lra. unfold overflow_threshold. lra.
  - assert (Rmax 1 (/ 10000) = 1) as ->.
    { apply Rmax_left. rewrite <- Rinv_1. apply Rinv_le_contravar; lra. }
    assert (Rmax 1 (IZR max_len) <= 5000).
    { apply Rmax_lub; [lra|]. apply IZR_le. unfold default_max_len in Hm. lia. }
    unfold overflow_threshold. lra.
Qed.

Lemma expand_Some {A} (d : A) (T : Tensor A) m n T' :
  expand d T m n = Some T' ->
  (nrows T = m \/ nrows T = 1%nat) /\ (ncols T = n \/ ncols T = 1%nat).
Proof.
  unfold expand.
  destruct (((nrows T =? m) || (nrows T =? 1))%nat
            && ((ncols T =? n) || (ncols T =? 1))%nat) eqn:E; [|discriminate].
  intros _. apply andb_true_iff in E. destruct E as [E1 E2].
  apply orb_true_iff in E1, E2.
  rewrite !Nat.eqb_eq in E1, E2. auto.
Qed.

Lemma setitem_cols2_shape T start v T' :
  setitem_cols2 T start v = Some T' -> nrows T' = nrows T /\ ncols T' = ncols T.
Proof.
  unfold setitem_cols2. destruct (expand NaN v _ _); [|discriminate].
  intros H. injection H as <-. split; reflexivity.
Qed.

(** The cosine assignment of an odd [d_model >= 3] raises: it has
    [ceil (d_model / 2)] columns for [floor (d_model / 2)] slots. *)
Lemma cosine_assignment_raises (T v : Tensor float) :
  Nat.even (ncols T) = false -> (3 <= ncols T)%nat ->
  ncols v = Nat.div2 (ncols T + 1) ->
  setitem_cols2 T 1 v = None.
Proof.
  intros Hodd H3 Hv. unfold setitem_cols2.
  destruct (expand NaN v (nrows T) (slice2_count (ncols T) 1)) as [v'|] eqn:E;
    [|reflexivity].
  exfalso. apply expand_Some in E. destruct E as [_ E].
  unfold slice2_count in E. rewrite Hv in E.
  pose proof (odd_div2 _ Hodd).
  pose proof (Nat.div2_odd (ncols T + 1)).
  pose proof (Nat.div2_odd (ncols T - 1 + 1)).
  destruct (Nat.odd (ncols T + 1)), (Nat.odd (ncols T - 1 + 1));
    simpl in *; lia.
Qed.

Lemma PositionalEncoding_init_Some (d max_len : Z) (l : R) pe :
  PositionalEncoding_init d max_len l = Some pe ->
  (0 <= max_len)%Z /\ (0 < d)%Z /\ 0 < l /\ (Z.even d = true \/ d = 1%Z).
Proof.
  unfold PositionalEncoding_init, zeros, math_log, py_div.
  destruct ((0 <=? max_len)%Z && (0 <=? d)%Z) eqn:E0; [|discriminate].
  apply andb_true_iff in E0. destruct E0 as [Em Ed]. apply Z.leb_le in Em, Ed.
  destruct (Rlt_dec 0 l) as [Hl|]; [|discriminate].
  destruct (d =? 0)%Z eqn:Ed0; [discriminate|]. apply Z.eqb_neq in Ed0.
  intros H. repeat split; try lia; try assumption.
  destruct (Z.even d) eqn:Ev; [left; reflexivity | right].
  destruct (Z.eq_dec d 1) as [|Hd1]; [assumption | exfalso].
  revert H.
  destruct (mul _ _) as [pd|] eqn:Epd; [|discriminate].
  destruct (setitem_cols2 _ 0 _) as [enc|] eqn:Esin; [|discriminate].
  apply setitem_cols2_shape in Esin. simpl in Esin. destruct Esin as [_ Hcols].
  rewrite (cosine_assignment_raises enc (tmap tcos_elt pd)); [discriminate | | |].
  - rewrite Hcols, even_to_nat by lia. exact Ev.
  - rewrite Hcols.
    assert (d <> 2)%Z by (intros ->; discriminate). lia.
  - rewrite Hcols. unfold mul, broadcast2 in Epd. simpl in Epd.
    rewrite bsize_l1, bsize_1r in Epd. injection Epd as <-. reflexivity.
Qed.

Lemma first_rows_tab M D (f : nat -> nat -> float) n :
  (n <= M)%nat -> first_rows (tab M D f) n = tab n D f.
Proof.
  intros Hn. unfold first_rows; simpl. rewrite Nat.min_l by exact Hn.
  apply tab_ext. intros i c Hi Hc. apply fget_tab; [lia | assumption].
Qed.

Lemma first_rows_rtab M D f n :
  (n <= M)%nat -> first_rows (rtab M D f) n = rtab n D f.
Proof. apply first_rows_tab. Qed.

Lemma add_Some a b c :
  add a b = Some c ->
  (nrows a = nrows b \/ nrows a = 1 \/ nrows b = 1)%nat /\
  (ncols a = ncols b \/ ncols a = 1 \/ ncols b = 1)%nat.
Proof.
  unfold add, broadcast2, bsize.
  destruct (nrows a =? nrows b)%nat eqn:E1;
    destruct (nrows a =? 1)%nat eqn:E2; destruct (nrows b =? 1)%nat eqn:E3;
    destruct (ncols a =? ncols b)%nat eqn:E4;
    destruct (ncols a =? 1)%nat eqn:E5; destruct (ncols b =? 1)%nat eqn:E6;
    try discriminate; intros _;
    rewrite ?Nat.eqb_eq in *; auto.
Qed.

(** ** Linear layers *)

Lemma add_bias_tab n o (y : nat -> nat -> float) (b : nat -> float) :
  add (tab n o y) (tab 1 o (fun _ c => b c))
  = Some (tab n o (fun i c => fadd (y i c) (b c))).
Proof.
  unfold add, broadcast2; simpl. rewrite bsize_l1, bsize_refl. f_equal.
  apply tab_ext. intros i c Hi Hc. rewrite bget_tab by assumption.
  unfold bget; simpl. rewrite (bidx_lt Hc).
  change (bidx 1 i) with 0%nat.
  rewrite get_tab by (try assumption; lia). reflexivity.
Qed.

Lemma Linear_forward_tab i o w n (x : nat -> nat -> float) :
  Linear_forward (linear_of i o w) (tab n i x)
  = Some (tab n o (linear_entry i w x)).
Proof.
  unfold Linear_forward, linear_of; simpl.
  rewrite transpose_rtab. unfold matmul; simpl. rewrite Nat.eqb_refl.
  unfold rtab. rewrite add_bias_tab. f_equal.
  apply tab_ext. intros r c Hr Hc. unfold linear_entry. f_equal.
  apply fsum_n_ext. intros k Hk.
  unfold fget. rewrite !get_tab by assumption. reflexivity.
Qed.

Lemma linear_entry_ext n w (x x' : nat -> nat -> float) r c :
  (forall k, (k < n)%nat -> x r k = x' r k) ->
  linear_entry n w x r c = linear_entry n w x' r c.
Proof.
  intros Hx. unfold linear_entry. f_equal.
  apply fsum_n_ext. intros k Hk. rewrite (Hx k Hk). reflexivity.
Qed.

Lemma Linear_init_of (i o : Z) w L :
  Linear_init i o w = Some L ->
  (0 <= i)%Z /\ (0 <= o)%Z /\ L = linear_of (Z.to_nat i) (Z.to_nat o) w.
Proof.
  unfold Linear_init.
  destruct ((0 <=? i)%Z && (0 <=? o)%Z) eqn:E; [|discriminate].
  apply andb_true_iff in E. destruct E as [E1 E2]. apply Z.leb_le in E1, E2.
  intros H. injection H as <-. auto.
Qed.

(** ** Heads *)

Lemma mapM_map_seq {A B} (f : A -> option B) (g : nat -> A) (r : nat -> B) n :
  (forall h, (h < n)%nat -> f (g h) = Some (r h)) ->
  mapM f (map g (seq 0 n)) = Some (map r (seq 0 n)).
Proof.
  intros H.
  assert (G : forall l, (forall h, In h l -> (h < n)%nat) ->
                        mapM f (map g l) = Some (map r l)).
  { induction l as [|a l IH]; intros Hl; simpl; [reflexivity|].
    rewrite H by (apply Hl; left; reflexivity).
    rewrite IH by (intros h Hh; apply Hl; right; exact Hh). reflexivity. }
  apply G. intros h Hh. apply in_seq in Hh. lia.
Qed.

Lemma mapM_map_seq_id {B} (f : nat -> option B) (r : nat -> B) n :
  (forall h, (h < n)%nat -> f h = Some (r h)) ->
  mapM f (seq 0 n) = Some (map r (seq 0 n)).
Proof.
  intros H. rewrite <- (map_id (seq 0 n)) at 1.
  apply (mapM_map_seq f (fun h => h) r). exact H.
Qed.

Lemma combine_map {A B C} (f : C -> A) (g : C -> B) (l : list C) :
  combine (map f l) (map g l) = map (fun h => (f h, g h)) l.
Proof. induction l as [|a l IH]; simpl; [reflexivity | rewrite IH; reflexivity]. Qed.

Lemma head_index_lt H hd h c :
  (h < H)%nat -> (c < hd)%nat -> (h * hd + c < H * hd)%nat.
Proof.
  intros Hh Hc. apply Nat.lt_le_trans with (S h * hd)%nat; [simpl; lia|].
  apply Nat.mul_le_mono_r. lia.
Qed.

Lemma shape_heads_tab H hd n (x : nat -> nat -> float) :
  (0 < H)%nat -> (0 < hd)%nat ->
  shape_heads (Z.of_nat H) (Z.of_nat hd) (tab n (H * hd) x)
  = Some (map (fun h => tab n hd (head_block hd h x)) (seq 0 H)).
Proof.
  intros HH Hhd. unfold shape_heads; simpl.
  replace ((0 <? Z.of_nat H)%Z) with true by (symmetry; apply Z.ltb_lt; lia).
  replace ((0 <? Z.of_nat hd)%Z) with true by (symmetry; apply Z.ltb_lt; lia).
  rewrite !Nat2Z.id, Nat.eqb_refl. cbn [andb]. f_equal.
  apply map_seq_ext. intros h Hh. apply tab_ext. intros i c Hi Hc.
  unfold head_block. apply fget_tab; [assumption | apply head_index_lt; assumption].
Qed.

Lemma fsum_n_NaN n (f : nat -> float) :
  (0 < n)%nat -> (forall k, (k < n)%nat -> f k = NaN) -> fsum_n n f = NaN.
Proof.
  intros Hn Hf. unfold fsum_n. destruct n as [|n]; [lia|].
  simpl. rewrite (Hf 0%nat) by lia. reflexivity.
Qed.

Lemma div_mod_lt H hd c :
  (c < H * hd)%nat -> (c / hd < H)%nat /\ (c mod hd < hd)%nat.
Proof.
  intros Hc. assert (hd <> 0)%nat by (intros ->; lia). split.
  - apply Nat.Div0.div_lt_upper_bound. rewrite Nat.mul_comm. exact Hc.
  - apply Nat.mod_upper_bound. assumption.
Qed.

(** ** Masked scores *)

Lemma masked_fill_tab nq nk (s : nat -> nat -> float) vis :
  masked_fill (tab nq nk s) (eq0 (tab nq nk vis)) NegInf
  = Some (tab nq nk (masked_score vis s)).
Proof.
  unfold masked_fill, eq0. rewrite tmap_tab.
  unfold broadcast2; simpl. rewrite !bsize_refl. f_equal.
  apply tab_ext. intros i j Hi Hj.
  rewrite !bget_tab by assumption. unfold masked_score.
  destruct (vis i j); reflexivity.
Qed.

(** ** Dropout over the heads *)

Lemma advance_advance a b g : advance b (advance a g) = advance (a + b) g.
Proof. unfold advance; simpl. f_equal. lia. Qed.

Lemma advance_0 g : advance 0 g = g.
Proof. destruct g as [s d]. unfold advance; simpl. f_equal. lia. Qed.

Lemma dropout_heads_eval p l g : dropout_heads p false l g = (l, g).
Proof.
  induction l as [|T l IH]; simpl; [reflexivity|]. rewrite IH. reflexivity.
Qed.

Lemma dropout_heads_training p nq nk (W : nat -> nat -> nat -> float) g n :
  forall a,
  dropout_heads p true (map (fun h => tab nq nk (W h)) (seq a n))
    (advance (a * (nq * nk)) g)
  = (map (fun h => tab nq nk (fun i j =>
            fmul (W h i j)
              (Fin (if draw g (h * (nq * nk) + (i * nk + j)) then / (1 - p) else 0))))
       (seq a n),
     advance ((a + n) * (nq * nk)) g).
Proof.
  induction n as [|n IH]; intros a.
  - simpl. rewrite Nat.add_0_r. reflexivity.
  - cbn [seq map dropout_heads dropout nrows ncols tab].
    rewrite advance_advance.
    replace (a * (nq * nk) + nq * nk)%nat with (S a * (nq * nk))%nat by lia.
    rewrite IH. f_equal.
    + f_equal. apply tab_ext. intros i j Hi Hj.
      unfold fget. rewrite get_tab by assumption.
      unfold draw, advance; simpl.
      replace (drawn g + a * (nq * nk) + (i * nk + j))%nat
        with (drawn g + (a * (nq * nk) + (i * nk + j)))%nat by lia.
      reflexivity.
    + f_equal. lia.
Qed.

(** ** [MaskedMultiHeadAttention.forward] entry by entry *)

Section MultiHead.

Variables (H hd : nat) (w : AttentionInit) (t : bool).
Hypotheses (HH : (0 < H)%nat) (Hhd : (0 < hd)%nat).
Variables (nq nk : nat) (qf kf vf : nat -> nat -> float).
Variable mask : option (nat -> nat -> bool).

Local Abbreviation D := (H * hd)%nat.
Local Abbreviation M := (attention_of H hd w t).
Local Abbreviation query := (tab nq D qf).
Local Abbreviation key := (tab nk D kf).
Local Abbreviation value := (tab nk D vf).
Local Abbreviation qp := (linear_entry D (init_q w) qf).
Local Abbreviation kp := (linear_entry D (init_k w) kf).
Local Abbreviation vp := (linear_entry D (init_v w) vf).
Local Abbreviation vis := (visibility mask).
Local Abbreviation tmask := (option_map (tab nq nk) mask).

Lemma projections_tab :
  projections M query key value
  = Some (map (fun h => tab nq hd (head_block hd h qp)) (seq 0 H),
          map (fun h => tab nk hd (head_block hd h kp)) (seq 0 H),
          map (fun h => tab nk hd (head_block hd h vp)) (seq 0 H)).
Proof.
  unfold projections, attention_of; simpl.
  rewrite !Linear_forward_tab.
  rewrite !shape_heads_tab by assumption. reflexivity.
Qed.

(** The scores of head [h] after the masking. *)
Local Abbreviation score :=
  (fun h => masked_score vis (score_entry (head_block hd h qp) (head_block hd h kp) hd)).

Lemma masked_scores_tab :
  masked_scores M
    (map (fun h => tab nq hd (head_block hd h qp)) (seq 0 H))
    (map (fun h => tab nk hd (head_block hd h kp)) (seq 0 H)) tmask
  = Some (map (fun h => tab nq nk (score h)) (seq 0 H)).
Proof.
  unfold masked_scores. rewrite combine_map.
  rewrite (mapM_map_seq _ _
             (fun h => tab nq nk
                (score_entry (head_block hd h qp) (head_block hd h kp) hd))).
  - destruct mask as [v|]; simpl.
    + apply mapM_map_seq. intros h Hh. apply masked_fill_tab.
    + reflexivity.
  - intros h Hh. cbn [fst snd].
    rewrite transpose_tab, matmul_tab. cbn [attention_of head_dim].
    rewrite <- INR_IZR_INZ. rewrite div_scalar_tab. reflexivity.
Qed.

Lemma attention_weights_tab :
  attention_weights M query key value tmask
  = Some (map (fun h => tab nq nk (weight_entry (score h) nk)) (seq 0 H)).
Proof.
  unfold attention_weights. rewrite projections_tab, masked_scores_tab.
  rewrite map_map. f_equal. apply map_ext. intros h. apply softmax_tab.
Qed.

Lemma dropout_heads_weights g :
  dropout_heads (1 / 10) t
    (map (fun h => tab nq nk (weight_entry (score h) nk)) (seq 0 H)) g
  = (map (fun h => tab nq nk
            (dropped_weight t g nq nk h vis
               (head_block hd h qp) (head_block hd h kp) hd))
       (seq 0 H),
     after_draws t (H * (nq * nk)) g).
Proof.
  unfold dropped_weight, dropout_entry, after_draws. destruct t.
  - rewrite <- (advance_0 g) at 1.
    change 0%nat with (0 * (nq * nk))%nat at 1.
    rewrite dropout_heads_training. reflexivity.
  - rewrite dropout_heads_eval. reflexivity.
Qed.

Lemma concat_heads_tab (out : nat -> nat -> nat -> float) :
  concat_heads (d_model M) (Z.to_nat (head_dim M))
    (map (fun h => tab nq hd (out h)) (seq 0 H))
  = Some (tab nq D (fun i c => out (c / hd)%nat i (c mod hd)%nat)).
Proof.
  unfold concat_heads. cbn [attention_of d_model head_dim].
  rewrite !Nat2Z.id, length_map, length_seq, Nat.eqb_refl.
  assert (HD : (0 < H * hd)%nat) by (apply Nat.mul_pos_pos; assumption).
  replace ((0 <? Z.of_nat (H * hd))%Z) with true by (symmetry; apply Z.ltb_lt; lia).
  cbn [andb]. f_equal.
  rewrite (nth_map_seq _ _ HH). cbn [nrows tab].
  apply tab_ext. intros i c Hi Hc.
  destruct (div_mod_lt _ _ Hc) as [Hh Hm].
  rewrite (nth_map_seq _ _ Hh).
  unfold fget. rewrite get_tab by assumption. reflexivity.
Qed.

(** [forward] entry by entry. *)
Lemma forward_tab g :
  MaskedMultiHeadAttention_forward M query key value tmask g
  = Some (tab nq D (forward_entry H hd w t vis g nq nk qf kf vf),
          after_draws t (H * (nq * nk)) g).
Proof.
  unfold MaskedMultiHeadAttention_forward.
  rewrite projections_tab, masked_scores_tab.
  rewrite map_map.
  rewrite (map_ext _ _ (fun h => softmax_tab nq nk (score h))).
  change (training M) with t.
  rewrite dropout_heads_weights.
  rewrite combine_map.
  rewrite (mapM_map_seq _ _
             (fun h => tab nq hd
                (head_entry t g nq nk h vis (head_block hd h qp)
                   (head_block hd h kp) (head_block hd h vp) hd)))
    by (intros h Hh; apply matmul_tab).
  rewrite concat_heads_tab.
  cbn [attention_of out_linear].
  rewrite Linear_forward_tab. reflexivity.
Qed.

End MultiHead.

(** Which inputs an output entry of [forward] depends on: the query row
    of its position, and the key and value rows of the keys the position
    sees; of a key it does not see, only whether the projected value is
    finite matters. *)
Lemma dropped_weight_ext t g nq nk h vis (q q' k k' : nat -> nat -> float) d i j :
  (forall c, (c < d)%nat -> q i c = q' i c) ->
  (forall l c, (l < nk)%nat -> vis i l = true -> (c < d)%nat -> k l c = k' l c) ->
  dropped_weight t g nq nk h vis q k d i j
  = dropped_weight t g nq nk h vis q' k' d i j.
Proof.
  intros Hq Hk. unfold dropped_weight. f_equal. unfold weight_entry. do 2 f_equal.
  apply map_seq_ext. intros l Hl. unfold masked_score.
  destruct (vis i l) eqn:E; [|reflexivity].
  unfold score_entry. f_equal. apply fsum_n_ext. intros c Hc.
  rewrite (Hq c Hc), (Hk l c Hl E Hc). reflexivity.
Qed.

(** The weight of a masked key is 0, or NaN when the row of weights is
    NaN. *)
Lemma weight_entry_hidden vis (s : nat -> nat -> float) m i j :
  (j < m)%nat -> vis i j = false ->
  weight_entry (masked_score vis s) m i j = Fin 0 \/
  weight_entry (masked_score vis s) m i j = NaN.
Proof.
  intros Hj Hv. unfold weight_entry, softmax_row.
  destruct (regular _); rewrite map_map, (nth_map_seq NaN _ Hj).
  - left. unfold masked_score at 1. rewrite Hv. cbn [fexp].
    unfold Rdiv. rewrite Rmult_0_l. reflexivity.
  - right. reflexivity.
Qed.

Lemma dropped_weight_hidden t g nq nk h vis (q k : nat -> nat -> float) d i j :
  (j < nk)%nat -> vis i j = false ->
  dropped_weight t g nq nk h vis q k d i j = Fin 0 \/
  dropped_weight t g nq nk h vis q k d i j = NaN.
Proof.
  intros Hj Hv. unfold dropped_weight, dropout_entry.
  destruct (@weight_entry_hidden vis (score_entry q k d) nk i j Hj Hv) as [-> | ->].
  - left. destruct t; [apply fmul_0_l | reflexivity].
  - right. destruct t; reflexivity.
Qed.

Lemma fmul_hidden (a x y : float) :
  a = Fin 0 \/ a = NaN -> is_fin x = true -> is_fin y = true ->
  fmul a x = fmul a y.
Proof.
  intros [-> | ->] Hx Hy; [|reflexivity].
  destruct x as [x| | |]; try discriminate. destruct y as [y| | |]; try discriminate.
  rewrite !fmul_0_l. reflexivity.
Qed.

Lemma head_entry_ext t g nq nk h vis (q q' k k' v v' : nat -> nat -> float) d i c :
  (forall e, (e < d)%nat -> q i e = q' i e) ->
  (forall l e, (l < nk)%nat -> vis i l = true -> (e < d)%nat -> k l e = k' l e) ->
  (forall l, (l < nk)%nat -> vis i l = true -> v l c = v' l c) ->
  (forall l, (l < nk)%nat -> vis i l = false ->
     is_fin (v l c) = true /\ is_fin (v' l c) = true) ->
  head_entry t g nq nk h vis q k v d i c = head_entry t g nq nk h vis q' k' v' d i c.
Proof.
  intros Hq Hk Hv Hfin. unfold head_entry. apply fsum_n_ext. intros j Hj.
  rewrite (@dropped_weight_ext t g nq nk h vis q q' k k' d i j Hq Hk).
  destruct (vis i j) eqn:E.
  - rewrite (Hv j Hj E). reflexivity.
  - destruct (Hfin j Hj E) as [F F'].
    apply fmul_hidden; [|exact F | exact F'].
    apply dropped_weight_hidden; assumption.
Qed.

Lemma forward_entry_ext H hd w t vis g nq nk (q q' k k' v v' : nat -> nat -> float) i c :
  (0 < hd)%nat ->
  (forall e, (e < H * hd)%nat -> q i e = q' i e) ->
  (forall l e, (l < nk)%nat -> vis i l = true -> (e < H * hd)%nat -> k l e = k' l e) ->
  (forall l e, (l < nk)%nat -> vis i l = true -> (e < H * hd)%nat -> v l e = v' l e) ->
  (forall l e, (l < nk)%nat -> vis i l = false -> (e < H * hd)%nat ->
     is_fin (linear_entry (H * hd) (init_v w) v l e) = true /\
     is_fin (linear_entry (H * hd) (init_v w) v' l e) = true) ->
  forward_entry H hd w t vis g nq nk q k v i c
  = forward_entry H hd w t vis g nq nk q' k' v' i c.
Proof.
  intros Hhd Hq Hk Hv Hfin. unfold forward_entry.
  apply linear_entry_ext. intros e He.
  destruct (div_mod_lt _ _ He) as [Hh Hm].
  assert (Hidx : forall u, (u < hd)%nat -> (e / hd * hd + u < H * hd)%nat)
    by (intros u Hu; apply head_index_lt; assumption).
  apply head_entry_ext; unfold head_block.
  - intros u Hu. apply linear_entry_ext. exact Hq.
  - intros l u Hl Hvis Hu. apply linear_entry_ext. intros a Ha. apply Hk; assumption.
  - intros l Hl Hvis. apply linear_entry_ext. intros a Ha. apply Hv; assumption.
  - intros l Hl Hvis. apply Hfin; [assumption | assumption |].
    apply Hidx. exact Hm.
Qed.

(** ** Multi-head attention inside the range *)

Lemma linear_entry_Fin n w (x : nat -> nat -> R) r c bx bw :
  (forall k, (k < n)%nat -> Rabs (x r k) <= bx) -> bounded_linear bw w ->
  0 <= bx -> 0 <= bw ->
  INR n * (bx * bw) + bw < overflow_threshold ->
  linear_entry n w (fun i k => Fin (x i k)) r c = Fin (linear_formula n w x r c) /\
  Rabs (linear_formula n w x r c) <= INR n * (bx * bw) + bw.
Proof.
  intros Hx Hw Hbx Hbw Hr.
  assert (Hs : rsum_n n (fun k => Rabs (x r k * init_weight w c k)) <= INR n * (bx * bw)).
  { apply rsum_n_bound. intros k Hk. rewrite Rabs_mult.
    destruct (Hw c k) as [Hwk _].
    apply Rmult_le_compat; try apply Rabs_pos; [apply Hx; exact Hk | exact Hwk]. }
  pose proof (rsum_n_abs_le n (fun k => x r k * init_weight w c k)) as Ha.
  destruct (Hw c 0%nat) as [_ Hbias].
  assert (Hlin : Rabs (linear_formula n w x r c) <= INR n * (bx * bw) + bw).
  { unfold linear_formula. eapply Rle_trans; [apply Rabs_triang|]. lra. }
  split; [|exact Hlin].
  unfold linear_entry. rewrite fsum_n_fmul_Fin by lra.
  apply fadd_Fin. unfold linear_formula in Hlin. lra.
Qed.

Lemma attention_range_facts b D hd :
  attention_in_range b D -> (0 < hd)%nat -> (hd <= D)%nat ->
  0 <= b /\
  INR D * (b * b) + b < overflow_threshold /\
  INR hd * ((INR D * (b * b) + b) * (INR D * (b * b) + b)) < overflow_threshold /\
  10 / 9 * (INR D * (b * b) + b) < overflow_threshold /\
  INR D * (10 / 9 * (INR D * (b * b) + b) * b) + b < overflow_threshold.
Proof.
  intros [Hb Hr] Hhd HD.
  rewrite plus_INR in Hr. change (INR 1) with 1 in Hr.
  assert (Hn : 1 <= INR D) by (change 1 with (INR 1); apply le_INR; lia).
  assert (Hm : 0 <= INR hd <= INR D) by (split; [apply pos_INR | apply le_INR; lia]).
  set (n := INR D) in *. set (m := INR hd) in *.
  set (b2 := b * b).
  assert (Hb2 : b <= b2) by (unfold b2; nra).
  set (B1 := n * b2 + b).
  assert (HB1 : 0 <= B1 <= (n + 1) * b2) by (unfold B1; nra).
  assert (HP : (n + 1) ^ 3 * b ^ 4 = (n + 1) * ((n + 1) * b2) * ((n + 1) * b2))
    by (unfold b2; ring).
  rewrite Rmult_assoc, HP in Hr.
  set (Q := (n + 1) * b2) in *.
  assert (HQ : 1 <= b2 <= Q) by (unfold Q; nra).
  assert (HQQ : Q <= Q * Q) by nra.
  assert (HnQQ : Q * Q <= (n + 1) * Q * Q) by nra.
  assert (HB : B1 * B1 <= Q * Q) by nra.
  split; [lra|]. split; [lra|]. split; [|split].
  - apply Rle_lt_trans with ((n + 1) * Q * Q); [|lra].
    apply Rle_trans with (n * (Q * Q)); [|nra].
    apply Rmult_le_compat; nra.
  - lra.
  - assert (n * (B1 * b) <= n * (Q * b2)).
    { apply Rmult_le_compat_l; [lra|]. apply Rmult_le_compat; lra. }
    assert (Q * b2 <= Q * Q) by (apply Rmult_le_compat_l; lra).
    assert (n * (Q * Q) + Q * Q = (n + 1) * Q * Q) by ring.
    nra.
Qed.

Lemma dropout_entry_weight t g k wt :
  0 <= wt <= 1 ->
  dropout_entry (1 / 10) t g k (Fin wt)
  = Fin (wt * (if t then (if draw g k then / (1 - 1 / 10) else 0) else 1)).
Proof.
  intros Hw. unfold dropout_entry. destruct t; [|rewrite Rmult_1_r; reflexivity].
  apply fmul_Fin.
  assert (Hk : 0 <= (if draw g k then / (1 - 1 / 10) else 0) <= 2).
  { destruct (draw g k); [|lra].
    replace (/ (1 - 1 / 10)) with (10 / 9) by field. lra. }
  rewrite Rabs_pos_eq by nra. unfold overflow_threshold. nra.
Qed.

Lemma keep_factor_bound p t g nq nk h i j :
  p = 1 / 10 -> 0 <= keep_factor p t g nq nk h i j <= 10 / 9.
Proof.
  intros ->. unfold keep_factor.
  replace (/ (1 - 1 / 10)) with (10 / 9) by field.
  destruct t; [destruct (draw g _)|]; lra.
Qed.

Lemma head_entry_plain_ext t g nq nk h vis (q q' k k' v v' : nat -> nat -> float) d i c :
  (forall e, (e < d)%nat -> q i e = q' i e) ->
  (forall l e, (l < nk)%nat -> (e < d)%nat -> k l e = k' l e) ->
  (forall l, (l < nk)%nat -> v l c = v' l c) ->
  head_entry t g nq nk h vis q k v d i c = head_entry t g nq nk h vis q' k' v' d i c.
Proof.
  intros Hq Hk Hv. unfold head_entry. apply fsum_n_ext. intros j Hj.
  rewrite (Hv j Hj). f_equal. apply dropped_weight_ext; [exact Hq|].
  intros l e Hl _ He. apply Hk; assumption.
Qed.

(** One head on real projections bounded by [B]. *)
Lemma head_entry_Fin t g nq nk h vis (q k v : nat -> nat -> R) d i c B :
  (0 < d)%nat ->
  (forall e, (e < d)%nat -> Rabs (q i e) <= B) ->
  (forall l e, (l < nk)%nat -> (e < d)%nat -> Rabs (k l e) <= B) ->
  (forall l, (l < nk)%nat -> Rabs (v l c) <= B) ->
  0 <= B -> INR d * (B * B) < overflow_threshold ->
  10 / 9 * B < overflow_threshold ->
  head_entry t g nq nk h vis (fun i e => Fin (q i e)) (fun l e => Fin (k l e))
    (fun l e => Fin (v l e)) d i c
  = if row_visible vis nk i
    then Fin (dropout_attention vis (keep_factor (1 / 10) t g nq nk h) q k v nk d i c)
    else NaN.
Proof.
  intros Hd Hq Hk Hv HB Hs Hh. unfold head_entry.
  assert (Hw : forall j, (j < nk)%nat ->
            dropped_weight t g nq nk h vis (fun i e => Fin (q i e))
              (fun l e => Fin (k l e)) d i j
            = if row_visible vis nk i
              then Fin (weight_formula vis (score_formula q k d) nk i j
                        * keep_factor (1 / 10) t g nq nk h i j)
              else NaN).
  { intros j Hj. unfold dropped_weight.
    rewrite (@weight_entry_real vis _ (score_formula q k d) nk i j); [| |exact Hj].
    - destruct (row_visible vis nk i).
      + rewrite dropout_entry_weight; [reflexivity|].
        split; [apply weight_formula_nonneg | apply weight_formula_le1; exact Hj].
      + unfold dropout_entry. destruct t; reflexivity.
    - intros l Hl _. apply score_entry_Fin; [exact Hd|].
      eapply Rle_lt_trans; [|exact Hs].
      apply rsum_n_bound. intros e He. rewrite Rabs_mult.
      apply Rmult_le_compat; try apply Rabs_pos; [apply Hq | apply Hk]; assumption. }
  destruct (row_visible vis nk i) eqn:E.
  - rewrite (fsum_n_ext _ (fun j => fmul
               (Fin (weight_formula vis (score_formula q k d) nk i j
                     * keep_factor (1 / 10) t g nq nk h i j)) (Fin (v j c))))
      by (intros j Hj; rewrite (Hw j Hj); reflexivity).
    rewrite fsum_n_fmul_Fin; [reflexivity|].
    eapply Rle_lt_trans; [|exact Hh].
    rewrite (rsum_n_ext _ (fun j => Rabs (weight_formula vis (score_formula q k d) nk i j
                                          * (keep_factor (1 / 10) t g nq nk h i j * v j c))))
      by (intros j Hj; f_equal; ring).
    apply weighted_abs_sum.
    + intros j Hj. rewrite Rabs_mult.
      pose proof (@keep_factor_bound (1 / 10) t g nq nk h i j eq_refl) as Hkf.
      rewrite (Rabs_pos_eq (keep_factor _ _ _ _ _ _ _ _)) by lra.
      pose proof (Hv j Hj). pose proof (Rabs_pos (v j c)). nra.
    + lra.
  - apply fsum_n_NaN.
    + destruct nk; [|lia]. unfold row_visible in E.
      rewrite orb_true_r in E. discriminate.
    + intros j Hj. rewrite (Hw j Hj). reflexivity.
Qed.

Lemma hd_le_mul H hd : (0 < H)%nat -> (hd <= H * hd)%nat.
Proof. intros HH. destruct H as [|H']; [lia|]. simpl. lia. Qed.

Section MultiHeadReal.

Variables (H hd : nat) (w : AttentionInit) (t : bool).
Hypotheses (HH : (0 < H)%nat) (Hhd : (0 < hd)%nat).
Variables (nq nk : nat) (qf kf vf : nat -> nat -> R).
Variable mask : option (nat -> nat -> bool).
Variable b : R.

Local Abbreviation D := (H * hd)%nat.
Local Abbreviation M := (attention_of H hd w t).
Local Abbreviation query := (rtab nq D qf).
Local Abbreviation key := (rtab nk D kf).
Local Abbreviation value := (rtab nk D vf).
Local Abbreviation qp := (linear_formula D (init_q w) qf).
Local Abbreviation kp := (linear_formula D (init_k w) kf).
Local Abbreviation vp := (linear_formula D (init_v w) vf).
Local Abbreviation vis := (visibility mask).
Local Abbreviation tmask := (option_map (tab nq nk) mask).

Hypothesis Hrange : attention_in_range b D.
Hypothesis Hw : bounded_attention b w.
Hypothesis Hq : bounded_input b qf nq D.
Hypothesis Hk : bounded_input b kf nk D.
Hypothesis Hv : bounded_input b vf nk D.

Local Abbreviation B1 := (INR D * (b * b) + b).

Lemma projection_Fin (l : LinearInit) (x : nat -> nat -> R) n r c :
  bounded_linear b l -> bounded_input b x n D -> (r < n)%nat ->
  linear_entry D l (fun i k => Fin (x i k)) r c = Fin (linear_formula D l x r c) /\
  Rabs (linear_formula D l x r c) <= B1.
Proof.
  intros Hl Hx Hr.
  destruct (attention_range_facts Hrange Hhd (hd_le_mul hd HH)) as (Hb0 & HB1 & _).
  apply linear_entry_Fin; try assumption.
  intros k Hk'. apply Hx; assumption.
Qed.

(** The weight of head [h] at [(i, j)] after the softmax. *)
Local Abbreviation weight :=
  (fun h => weight_formula vis
              (score_formula (head_slice hd h qp) (head_slice hd h kp) hd) nk).

Lemma attention_weights_rtab :
  attention_weights M query key value tmask
  = Some (map (fun h => tab nq nk
                 (fun i j => if row_visible vis nk i
                             then Fin (weight h i j) else NaN))
            (seq 0 H)).
Proof.
  destruct Hw as (Hwq & Hwk & Hwv & Hwo).
  destruct (attention_range_facts Hrange Hhd (hd_le_mul hd HH)) as (Hb0 & HB1 & HS & _).
  unfold rtab. rewrite attention_weights_tab by assumption. f_equal.
  apply map_seq_ext. intros h Hh. apply tab_ext. intros i j Hi Hj.
  apply weight_entry_real; [|exact Hj].
  intros l Hl _. unfold score_entry, score_formula, head_block, head_slice.
  rewrite (fsum_n_ext _ (fun e => fmul (Fin (qp i (h * hd + e)%nat))
                                       (Fin (kp l (h * hd + e)%nat)))).
  - rewrite fsum_n_fmul_Fin.
    + apply fdiv_scalar_Fin; [apply sqrt_INR_ge1; exact Hhd|].
      eapply Rle_lt_trans; [apply rsum_n_abs_le|].
      eapply Rle_lt_trans; [|exact HS].
      apply rsum_n_bound. intros e He. rewrite Rabs_mult.
      apply Rmult_le_compat; try apply Rabs_pos;
        [apply (projection_Fin _ Hwq Hq Hi) | apply (projection_Fin _ Hwk Hk Hl)].
    + eapply Rle_lt_trans; [|exact HS].
      apply rsum_n_bound. intros e He. rewrite Rabs_mult.
      apply Rmult_le_compat; try apply Rabs_pos;
        [apply (projection_Fin _ Hwq Hq Hi) | apply (projection_Fin _ Hwk Hk Hl)].
  - intros e He.
    rewrite (proj1 (projection_Fin _ Hwq Hq Hi)), (proj1 (projection_Fin _ Hwk Hk Hl)).
    reflexivity.
Qed.

Local Abbreviation keep := (keep_factor (1 / 10) t).

(** The output of head [h] before the heads are concatenated. *)
Local Abbreviation head_out :=
  (fun g h => dropout_attention vis (keep g nq nk h)
                (head_slice hd h qp) (head_slice hd h kp) (head_slice hd h vp) nk hd).

(** The concatenated heads, entry by entry. *)
Local Abbreviation merged :=
  (fun g (i c : nat) => head_out g (c / hd)%nat i (c mod hd)%nat).

Lemma head_out_Fin g h i c :
  (h < H)%nat -> (i < nq)%nat -> (c < hd)%nat ->
  head_entry t g nq nk h vis
    (head_block hd h (linear_entry D (init_q w) (fun i k => Fin (qf i k))))
    (head_block hd h (linear_entry D (init_k w) (fun i k => Fin (kf i k))))
    (head_block hd h (linear_entry D (init_v w) (fun i k => Fin (vf i k))))
    hd i c
  = if row_visible vis nk i then Fin (head_out g h i c) else NaN.
Proof.
  intros Hh Hi Hc.
  destruct Hw as (Hwq & Hwk & Hwv & Hwo).
  destruct (attention_range_facts Hrange Hhd (hd_le_mul hd HH)) as (Hb0 & HB1 & HS & HV & _).
  rewrite (@head_entry_plain_ext t g nq nk h vis _
             (fun i e => Fin (head_slice hd h qp i e)) _
             (fun l e => Fin (head_slice hd h kp l e)) _
             (fun l e => Fin (head_slice hd h vp l e)) hd i c).
  - apply head_entry_Fin with (B := B1); try assumption.
    + intros e He. apply (projection_Fin _ Hwq Hq Hi).
    + intros l e Hl He. apply (projection_Fin _ Hwk Hk Hl).
    + intros l Hl. apply (projection_Fin _ Hwv Hv Hl).
    + assert (0 <= INR D) by apply pos_INR. nra.
  - intros e He. apply (projection_Fin _ Hwq Hq Hi).
  - intros l e Hl He. apply (projection_Fin _ Hwk Hk Hl).
  - intros l Hl. apply (projection_Fin _ Hwv Hv Hl).
Qed.

Lemma head_out_bound g h i c :
  (i < nq)%nat -> Rabs (head_out g h i c) <= 10 / 9 * B1.
Proof.
  intros Hi.
  destruct Hw as (Hwq & Hwk & Hwv & Hwo).
  destruct (attention_range_facts Hrange Hhd (hd_le_mul hd HH)) as (Hb0 & HB1 & _).
  assert (HB : 0 <= B1) by (assert (0 <= INR D) by apply pos_INR; nra).
  unfold dropout_attention.
  eapply Rle_trans; [apply rsum_n_abs_le|].
  rewrite (rsum_n_ext _
             (fun j => Rabs (weight h i j * (keep g nq nk h i j * head_slice hd h vp j c))))
    by (intros j Hj; f_equal; ring).
  apply weighted_abs_sum; [|lra].
  intros j Hj. rewrite Rabs_mult.
  pose proof (@keep_factor_bound (1 / 10) t g nq nk h i j eq_refl) as Hkf.
  rewrite (Rabs_pos_eq (keep_factor _ _ _ _ _ _ _ _)) by lra.
  pose proof (proj2 (projection_Fin (h * hd + c) Hwv Hv Hj)) as Hvb.
  unfold head_slice. pose proof (Rabs_pos (vp j (h * hd + c)%nat)). nra.
Qed.

(** The closed form of [forward] inside the range: at a query position
    that sees a key, the output projection of the concatenated heads; NaN
    at a position whose keys are all masked. *)
Lemma forward_rtab g :
  MaskedMultiHeadAttention_forward M query key value tmask g
  = Some (tab nq D (fun i c => if row_visible vis nk i
                               then Fin (linear_formula D (init_out w) (merged g) i c)
                               else NaN),
          if t then advance (H * (nq * nk)) g else g).
Proof.
  destruct Hw as (Hwq & Hwk & Hwv & Hwo).
  destruct (attention_range_facts Hrange Hhd (hd_le_mul hd HH)) as (Hb0 & HB1 & HS & HV & HO).
  unfold rtab. rewrite forward_tab by assumption. do 2 f_equal.
  apply tab_ext. intros i c Hi Hc. unfold forward_entry.
  assert (HD : (0 < H * hd)%nat) by (apply Nat.mul_pos_pos; assumption).
  destruct (row_visible vis nk i) eqn:E.
  - rewrite (@linear_entry_ext D (init_out w) _ (fun i c => Fin (merged g i c)) i c).
    + refine (proj1 (@linear_entry_Fin D (init_out w) (merged g) i c (10 / 9 * B1) b
                       _ Hwo _ Hb0 _)).
      * intros e He. apply head_out_bound. exact Hi.
      * assert (0 <= INR D) by apply pos_INR. nra.
      * lra.
    + intros e He. destruct (div_mod_lt _ _ He) as [Hh Hm].
      rewrite head_out_Fin by assumption. rewrite E. reflexivity.
  - unfold linear_entry. rewrite fsum_n_NaN; [reflexivity | exact HD |].
    intros e He. destruct (div_mod_lt _ _ He) as [Hh Hm].
    rewrite head_out_Fin by assumption. rewrite E. reflexivity.
Qed.

End MultiHeadReal.

(** ** Small inputs are inside the range *)

Lemma bounded_const_linear (a b c : R) :
  Rabs a <= c -> Rabs b <= c -> bounded_linear c (const_linear a b).
Proof. intros Ha Hb o k. split; assumption. Qed.

Lemma bounded_const_attention (a b c : R) :
  Rabs a <= c -> Rabs b <= c -> bounded_attention c (const_attention a b).
Proof.
  intros Ha Hb. unfold bounded_attention, bounded_linear, const_attention.
  cbn [init_q init_k init_v init_out init_weight init_bias const_linear].
  repeat split; assumption.
Qed.

Lemma bounded_const_input (a c : R) n d :
  Rabs a <= c -> bounded_input c (fun _ _ => a) n d.
Proof. intros Ha i k _ _. exact Ha. Qed.

Lemma Rabs_0_le_1 : Rabs 0 <= 1.
Proof. rewrite Rabs_R0. lra. Qed.

Lemma Rabs_1_le_1 : Rabs 1 <= 1.
Proof. rewrite Rabs_R1. lra. Qed.

Lemma attention_in_range_small b D :
  1 <= b <= 2 -> (D <= 1000)%nat -> attention_in_range b D.
Proof.
  intros Hb HD. split; [lra|].
  assert (H1 : 0 <= INR (D + 1) <= 1001).
  { split; [apply pos_INR|]. rewrite INR_IZR_INZ. apply IZR_le. lia. }
  set (n := INR (D + 1)) in *.
  assert (n * n <= 1001 * 1001) by nra.
  assert (0 <= n * n * n <= 1001 * 1001 * 1001) by nra.
  assert (0 <= b * b <= 4) by nra.
  assert (0 <= b * b * (b * b) <= 16) by nra.
  replace (2 * n ^ 3 * b ^ 4) with (2 * (n * n * n) * (b * b * (b * b))) by ring.
  unfold overflow_threshold. nra.
Qed.

Lemma attention_in_range_1 D : (D <= 1000)%nat -> attention_in_range 1 D.
Proof. apply attention_in_range_small. lra. Qed.

(** * The claims *)

(** ** C4: shape of the output of [self_attention] *)

(** C4, as stated, fails: with two query rows against three key/value rows
    the output has the two rows of [Q], not the three of [V]. *)
Lemma output_rows_follow_Q :
  exists out,
    self_attention (rtab 2 4 (fun _ _ => 0)) (rtab 3 4 (fun _ _ => 0))
      (rtab 3 4 (fun _ _ => 0)) = Some out /\
    shape out = (2%nat, 4%nat) /\
    shape out <> shape (rtab 3 4 (fun _ _ => 0)).
Proof.
  unfold rtab. rewrite self_attention_tab. eexists. split; [reflexivity|].
  split; [reflexivity | discriminate].
Qed.

(** C4 (amended): [self_attention] accepts [Q], [K], [V] exactly when [Q] and
    [K] have the same number of columns and [K] and [V] the same number of
    rows; the output then has the rows of [Q] and the columns of [V], which
    is the shape of [V] exactly when [Q] has as many rows as [V]. *)
Theorem self_attention_shape (Q K V : Tensor float) :
  ((exists out, self_attention Q K V = Some out) <->
   ncols Q = ncols K /\ nrows K = nrows V) /\
  (forall out, self_attention Q K V = Some out ->
     shape out = (nrows Q, ncols V) /\
     (shape out = shape V <-> nrows Q = nrows V)).
Proof.
  split.
  - split.
    + intros [out Hout]. apply self_attention_Some in Hout. tauto.
    + intros [H1 H2]. apply self_attention_defined; assumption.
  - intros out Hout. apply self_attention_Some in Hout.
    destruct Hout as (_ & _ & Hr & Hc). unfold shape. rewrite Hr, Hc.
    split; [reflexivity|]. split; [intros E; injection E; auto | intros ->; reflexivity].
Qed.

Lemma self_attention_shape_witness :
  exists out,
    self_attention (rtab 3 4 (fun _ _ => 0)) (rtab 3 4 (fun _ _ => 0))
      (rtab 3 4 (fun _ _ => 0)) = Some out /\
    shape out = (3%nat, 4%nat) /\
    (shape out = shape (rtab 3 4 (fun _ _ => 0)) <-> 3%nat = 3%nat).
Proof.
  pose proof (self_attention_tab 3 3 4 4 (fun _ _ => Fin 0) (fun _ _ => Fin 0)
                (fun _ _ => Fin 0)) as E.
  eexists. split; [exact E|].
  exact (proj2 (self_attention_shape (rtab 3 4 (fun _ _ => 0))
                  (rtab 3 4 (fun _ _ => 0)) (rtab 3 4 (fun _ _ => 0))) _ E).
Defined.

(** ** C3: softmax weights sum to one *)



Lemma sample_score_overflows :
  score_entry (fun _ _ : nat => Fin two_100)
    (fun j _ : nat => Fin (if (j =? 0)%nat then two_100 else 0)) 1 0 0
  = PosInf.
Proof.
  unfold score_entry, fsum_n, fsum. cbn [seq map fold_right Nat.eqb fmul].
  rewrite to_float32_overflow
    by (unfold two_100, overflow_threshold; lra).
  cbn [fadd]. unfold fdiv_scalar. change (INR 1) with 1. rewrite sqrt_1.
  destruct (Req_dec_T 1 0) as [E | _]; [exfalso; lra|].
  cbn [fmul]. unfold inf_of_sign. rewrite Rinv_1.
  destruct (Req_dec_T 1 0) as [E | _]; [exfalso; lra|].
  destruct (Rlt_dec 0 1) as [_ | N]; [reflexivity | exfalso; lra].
Qed.

(** The same happens, without any mask, when a score overflows: the
    query [[2^100]] against the keys [[2^100]] and [[0]] has the scores
    [+inf] and [0], and softmax turns the row into NaN. *)
Lemma overflowing_score_weights_are_nan :
  exists W,
    self_attention_weights (rtab 1 1 (fun _ _ => two_100))
      (rtab 2 1 (fun j _ => if (j =? 0)%nat then two_100 else 0)) = Some W /\
    fget W 0 0 = NaN /\ fget W 0 1 = NaN.
Proof.
  unfold rtab. rewrite self_attention_weights_tab. eexists. split; [reflexivity|].
  split; rewrite fget_tab by lia;
    apply (@weight_entry_irregular unmasked _ 2 0 _ 0); try lia; try reflexivity;
    left; exact sample_score_overflows.
Qed.



(** ** C1: the closed form of attention *)

Lemma weight_single (s : nat -> nat -> R) i :
  weight_formula unmasked s 1 i 0 = 1.
Proof.
  unfold weight_formula, unmasked, rsum_n, rsum; simpl.
  field. pose proof (exp_pos (s i 0%nat)). lra.
Qed.

(** A NaN among the terms of a sum makes the sum NaN. *)
Lemma fsum_n_has_NaN n (f : nat -> float) l :
  (l < n)%nat -> f l = NaN -> fsum_n n f = NaN.
Proof.
  intros Hl Hf. unfold fsum_n.
  assert (G : forall ks, In l ks -> fsum (map f ks) = NaN).
  { induction ks as [|a ks IH]; intros Hin; [contradiction|].
    cbn [map fsum fold_right]. destruct Hin as [-> | Hin].
    - rewrite Hf. reflexivity.
    - fold (fsum (map f ks)). rewrite (IH Hin). apply fadd_NaN_r. }
  apply G. apply in_seq. lia.
Qed.

Lemma linear_entry_NaN n w (x : nat -> nat -> float) r c k :
  (k < n)%nat -> x r k = NaN -> linear_entry n w x r c = NaN.
Proof.
  intros Hk Hx. unfold linear_entry.
  rewrite (@fsum_n_has_NaN n _ k Hk); [reflexivity|]. rewrite Hx. reflexivity.
Qed.


Lemma dropout_attention_eval vis p g nq nk h q k v m d i c :
  dropout_attention vis (keep_factor p false g nq nk h) q k v m d i c
  = attention_formula vis q k v m d i c.
Proof.
  unfold dropout_attention, attention_formula, keep_factor.
  apply rsum_n_ext. intros j _. lra.
Qed.



(** ** C2: causal masking *)







(** ** C9: construction of [MaskedMultiHeadAttention] *)

(** Splitting into heads and concatenating the heads are inverse. *)
Lemma concat_shape_heads H hd n (x : nat -> nat -> float) :
  (0 < H)%nat -> (0 < hd)%nat ->
  concat_heads (Z.of_nat (H * hd)) hd
    (map (fun h => tab n hd (fun i c => x i (h * hd + c)%nat)) (seq 0 H))
  = Some (tab n (H * hd) x).
Proof.
  intros HH Hhd. unfold concat_heads.
  rewrite !Nat2Z.id, length_map, length_seq, Nat.eqb_refl.
  assert (HD : (0 < H * hd)%nat) by (apply Nat.mul_pos_pos; assumption).
  replace ((0 <? Z.of_nat (H * hd))%Z) with true by (symmetry; apply Z.ltb_lt; lia).
  cbn [andb]. f_equal.
  rewrite (nth_map_seq _ _ HH). cbn [nrows tab].
  apply tab_ext. intros i c Hi Hc.
  assert (Hh : (c / hd < H)%nat)
    by (apply Nat.Div0.div_lt_upper_bound; rewrite Nat.mul_comm; exact Hc).
  assert (Hm : (c mod hd < hd)%nat) by (apply Nat.mod_upper_bound; lia).
  rewrite (nth_map_seq _ _ Hh).
  unfold fget. rewrite get_tab by assumption. f_equal.
  rewrite (Nat.div_mod_eq c hd) at 3. lia.
Qed.

Lemma MaskedMultiHeadAttention_init_Some d nhead w M :
  MaskedMultiHeadAttention_init d nhead w = Some M ->
  nhead <> 0%Z /\ (d mod nhead = 0)%Z /\ (0 <= d)%Z /\
  M = mkMaskedMultiHeadAttention d nhead (d / nhead)
        (linear_of (Z.to_nat d) (Z.to_nat d) (init_q w))
        (linear_of (Z.to_nat d) (Z.to_nat d) (init_k w))
        (linear_of (Z.to_nat d) (Z.to_nat d) (init_v w))
        (linear_of (Z.to_nat d) (Z.to_nat d) (init_out w)) true.
Proof.
  unfold MaskedMultiHeadAttention_init.
  destruct (nhead =? 0)%Z eqn:E0; [discriminate|]. apply Z.eqb_neq in E0.
  destruct (d mod nhead =? 0)%Z eqn:E1; [|discriminate]. apply Z.eqb_eq in E1.
  cbn [negb].
  destruct (Linear_init d d (init_q w)) as [ql|] eqn:Eq; [|discriminate].
  destruct (Linear_init d d (init_k w)) as [kl|] eqn:Ek; [|discriminate].
  destruct (Linear_init d d (init_v w)) as [vl|] eqn:Ev; [|discriminate].
  destruct (Linear_init d d (init_out w)) as [ol|] eqn:Eo; [|discriminate].
  apply Linear_init_of in Eq, Ek, Ev, Eo.
  destruct Eq as (Hd & _ & ->), Ek as (_ & _ & ->), Ev as (_ & _ & ->),
           Eo as (_ & _ & ->).
  intros E. injection E as <-. auto.
Qed.

Lemma MaskedMultiHeadAttention_init_ok d nhead w :
  nhead <> 0%Z -> (d mod nhead = 0)%Z -> (0 <= d)%Z ->
  exists M, MaskedMultiHeadAttention_init d nhead w = Some M.
Proof.
  intros H0 H1 Hd. unfold MaskedMultiHeadAttention_init, Linear_init.
  replace ((nhead =? 0)%Z) with false by (symmetry; apply Z.eqb_neq; exact H0).
  replace ((d mod nhead =? 0)%Z) with true by (symmetry; apply Z.eqb_eq; exact H1).
  replace ((0 <=? d)%Z) with true by (symmetry; apply Z.leb_le; exact Hd).
  cbn [negb andb]. eexists. reflexivity.
Qed.

(** With [d_model = 0] the construction succeeds, but the head-splitting
    view is rejected: its inferred size is ambiguous. *)
Lemma zero_d_model_cannot_be_split (nhead' : Z) w M (x : Tensor float) :
  (0 < nhead')%Z ->
  MaskedMultiHeadAttention_init 0 nhead' w = Some M ->
  shape_heads (nhead M) (head_dim M) x = None.
Proof.
  intros Hn HM. apply MaskedMultiHeadAttention_init_Some in HM.
  destruct HM as (_ & _ & _ & ->). cbn [nhead head_dim].
  unfold shape_heads. rewrite Z.div_0_l by lia.
  rewrite andb_false_r. reflexivity.
Qed.

(** C9, as stated, fails: [d_model = -2] is divisible by [nhead = 1], the
    assertion passes, and the construction raises in [nn.Linear(-2, -2)]. *)
Lemma negative_d_model_divisible_but_rejected :
  (0 < 1)%Z /\ ((-2) mod 1 = 0)%Z /\
  MaskedMultiHeadAttention_init (-2) 1 (const_attention 0 0) = None.
Proof. repeat split. Qed.

(** C9 (amended): for non-negative [d_model] and positive [nhead],
    constructing [MaskedMultiHeadAttention] succeeds if and only if
    [d_model] is divisible by [nhead], and then [head_dim * nhead = d_model];
    when moreover [d_model] is positive, on every input with [d_model]
    columns the head-splitting reshape is defined, yields [nhead] heads of
    [head_dim] columns each, and the head-concatenating reshape maps them
    back to the input. *)
Theorem MaskedMultiHeadAttention_init_divisible (d nhead' : Z) w :
  (0 <= d)%Z -> (0 < nhead')%Z ->
  ((exists M, MaskedMultiHeadAttention_init d nhead' w = Some M) <->
   (d mod nhead' = 0)%Z) /\
  (forall M, MaskedMultiHeadAttention_init d nhead' w = Some M ->
     (head_dim M * nhead M = d_model M)%Z /\
     ((0 < d)%Z ->
      M = attention_of (Z.to_nat nhead') (Z.to_nat (d / nhead')) w true /\
      forall n (x : nat -> nat -> float),
      exists heads,
        shape_heads (nhead M) (head_dim M) (tab n (Z.to_nat (d_model M)) x)
        = Some heads /\
        length heads = Z.to_nat (nhead M) /\
        Forall (fun h => shape h = (n, Z.to_nat (head_dim M))) heads /\
        concat_heads (d_model M) (Z.to_nat (head_dim M)) heads
        = Some (tab n (Z.to_nat (d_model M)) x))).
Proof.
  intros Hd0 Hn. split.
  - split.
    + intros [M HM]. apply MaskedMultiHeadAttention_init_Some in HM. tauto.
    + intros Hdiv. apply MaskedMultiHeadAttention_init_ok; lia.
  - intros M HM. apply MaskedMultiHeadAttention_init_Some in HM.
    destruct HM as (_ & Hdiv & _ & ->). cbn [head_dim nhead d_model].
    assert (Hmul : (d / nhead' * nhead' = d)%Z).
    { pose proof (Z.div_mod d nhead' ltac:(lia)). lia. }
    split; [exact Hmul|]. intros Hd.
    assert (Hq : (0 < d / nhead')%Z).
    { apply Z.div_str_pos. split; [lia|].
      destruct (Z.le_gt_cases nhead' d) as [|Hlt]; [assumption|].
      rewrite Z.mod_small in Hdiv by lia. lia. }
    set (H := Z.to_nat nhead'). set (hd := Z.to_nat (d / nhead')).
    assert (HH : (0 < H)%nat) by (unfold H; lia).
    assert (Hhd : (0 < hd)%nat) by (unfold hd; lia).
    assert (HD : Z.to_nat d = (H * hd)%nat).
    { unfold H, hd. rewrite <- Z2Nat.inj_mul by lia. f_equal. lia. }
    assert (EH : nhead' = Z.of_nat H) by (unfold H; lia).
    assert (Ehd : (d / nhead')%Z = Z.of_nat hd) by (unfold hd; lia).
    assert (Ed : d = Z.of_nat (H * hd)) by lia.
    clearbody H hd.
    split.
    + unfold attention_of. rewrite <- Ed, <- HD, <- EH, <- Ehd. reflexivity.
    + intros n x. rewrite Ehd, HD, EH.
      rewrite shape_heads_tab by assumption. eexists. split; [reflexivity|].
      rewrite length_map, length_seq.
      split; [reflexivity|]. split.
      * apply Forall_forall. intros h Hh. apply in_map_iff in Hh.
        destruct Hh as [k [<- _]]. reflexivity.
      * rewrite Ed at 1. apply concat_shape_heads; assumption.
Qed.

Lemma MaskedMultiHeadAttention_init_divisible_witness :
  ((exists M, MaskedMultiHeadAttention_init 64 8 (const_attention 0 0) = Some M) <->
   (64 mod 8 = 0)%Z) /\
  exists M, MaskedMultiHeadAttention_init 64 8 (const_attention 0 0) = Some M /\
            (head_dim M * nhead M = d_model M)%Z.
Proof.
  pose proof (MaskedMultiHeadAttention_init_divisible (d := 64) (nhead' := 8)
                (const_attention 0 0) ltac:(lia) ltac:(lia)) as [Hiff HM].
  split; [exact Hiff|].
  destruct (proj2 Hiff eq_refl) as [M E]. exists M. split; [exact E|].
  exact (proj1 (HM M E)).
Defined.

(** ** C5: the positional encoding table *)

Lemma PositionalEncoding_forward_rows pe (x : Tensor float) :
  (nrows x <= nrows (encoding pe))%nat -> ncols x = ncols (encoding pe) ->
  PositionalEncoding_forward pe x
  = Some (tab (nrows x) (ncols x)
            (fun i c => fadd (fget x i c) (fget (encoding pe) i c))).
Proof.
  intros Hr Hc. unfold PositionalEncoding_forward, add, broadcast2, first_rows.
  cbn [nrows ncols tab]. rewrite Nat.min_l by exact Hr.
  rewrite <- Hc, !bsize_refl. f_equal.
  apply tab_ext. intros i c Hi Hc'.
  rewrite bget_tab by assumption.
  unfold bget. rewrite (bidx_lt Hi), (bidx_lt Hc'). reflexivity.
Qed.






(** ** C10: where [PositionalEncoding] is defined *)

(** C10, as stated, fails: the odd [d_model = 1] is accepted (its cosine
    slice is empty and the one-column value broadcasts into it), and a
    table with [max_len = 1] is added to a longer input by broadcasting. *)
Lemma positional_encoding_odd_and_short :
  (exists pe, PositionalEncoding_init 1 default_max_len default_l = Some pe /\
              Z.even 1 = false) /\
  (exists pe out,
     PositionalEncoding_init 2 1 default_l = Some pe /\
     PositionalEncoding_forward pe (rtab 3 2 (fun _ _ => 0)) = Some out /\
     ~ (nrows (rtab 3 2 (fun _ _ => 0%R)) <= 1)%nat).
Proof.
  split.
  - eexists. split; [|reflexivity].
    apply PositionalEncoding_init_tab;
      [unfold default_max_len; lia | lia | apply default_l_pos | right; reflexivity].
  - eexists _, _. split; [|split].
    + apply PositionalEncoding_init_tab;
        [lia | lia | apply default_l_pos | left; reflexivity].
    + reflexivity.
    + simpl. lia.
Qed.

(** C10 (amended): constructing [PositionalEncoding] succeeds only for
    even [d_model] or [d_model = 1]; for odd [d_model >= 3] the cosine
    assignment has [ceil (d_model / 2)] columns for [floor (d_model / 2)]
    slots and the construction raises; [forward(x)] is defined only when the
    sequence length of [x] is at most [max_len], or one of the two is 1 (and
    broadcasts). *)
Theorem positional_encoding_domain :
  (forall (d max_len : Z) (l : R) pe,
     PositionalEncoding_init d max_len l = Some pe ->
     (Z.even d = true \/ d = 1%Z) /\
     nrows (encoding pe) = Z.to_nat max_len) /\
  (forall (d max_len : Z) (l : R),
     Z.even d = false -> (3 <= d)%Z ->
     PositionalEncoding_init d max_len l = None) /\
  (forall pe (x out : Tensor float),
     PositionalEncoding_forward pe x = Some out ->
     (nrows x <= nrows (encoding pe))%nat \/
     nrows (encoding pe) = 1%nat \/ nrows x = 1%nat).
Proof.
  split; [|split].
  - intros d max_len l pe Hinit.
    pose proof (@PositionalEncoding_init_Some _ _ _ _ Hinit) as (Hm & Hd & Hl & Hev).
    split; [exact Hev|].
    rewrite (PositionalEncoding_init_tab Hm Hd Hl Hev) in Hinit.
    injection Hinit as <-. reflexivity.
  - intros d max_len l Hodd H3.
    destruct (PositionalEncoding_init d max_len l) as [pe|] eqn:E; [|reflexivity].
    apply PositionalEncoding_init_Some in E. destruct E as (_ & _ & _ & [E | E]).
    + congruence.
    + lia.
  - intros pe x out Hfwd. unfold PositionalEncoding_forward in Hfwd.
    apply add_Some in Hfwd. destruct Hfwd as [Hr _].
    unfold first_rows in Hr. cbn [nrows tab] in Hr. lia.
Qed.

Lemma positional_encoding_domain_witness :
  exists pe out,
    PositionalEncoding_init 4 default_max_len default_l = Some pe /\
    (Z.even 4 = true \/ 4%Z = 1%Z) /\
    nrows (encoding pe) = Z.to_nat default_max_len /\
    PositionalEncoding_init 3 default_max_len default_l = None /\
    PositionalEncoding_forward pe (rtab 3 4 (fun _ _ => 1)) = Some out /\
    ((nrows (rtab 3 4 (fun _ _ => 1%R)) <= nrows (encoding pe))%nat \/
     nrows (encoding pe) = 1%nat \/ nrows (rtab 3 4 (fun _ _ => 1)) = 1%nat).
Proof.
  assert (E : PositionalEncoding_init 4 default_max_len default_l
              = Some (mkPositionalEncoding
                        (rtab (Z.to_nat default_max_len) (Z.to_nat 4)
                           (pe_table default_l 4)))).
  { apply PositionalEncoding_init_ok;
      [unfold default_max_len; lia | lia | apply default_l_pos | left; reflexivity
       | apply default_encoding_in_range; lia]. }
  destruct positional_encoding_domain as (H1 & H2 & H3).
  destruct (H1 _ _ _ _ E) as [Hev Hrows].
  assert (F : PositionalEncoding_forward
                (mkPositionalEncoding
                   (rtab (Z.to_nat default_max_len) (Z.to_nat 4) (pe_table default_l 4)))
                (rtab 3 4 (fun _ _ => 1))
              = Some (tab 3 4 (fun i c =>
                   fadd (fget (rtab 3 4 (fun _ _ => 1)) i c)
                        (fget (rtab (Z.to_nat default_max_len) (Z.to_nat 4)
                                 (pe_table default_l 4)) i c)))).
  { apply (PositionalEncoding_forward_rows
             (mkPositionalEncoding
                (rtab (Z.to_nat default_max_len) (Z.to_nat 4) (pe_table default_l 4)))
             (rtab 3 4 (fun _ _ => 1))); [unfold default_max_len; simpl; lia|].
    reflexivity. }
  eexists _, _. split; [exact E|]. split; [exact Hev|]. split; [exact Hrows|].
  split; [apply H2; [reflexivity | lia]|].
  split; [exact F|]. exact (H3 _ _ _ F).
Defined.

(** ** C8: the tokenised encoding *)

Lemma tokenizer_call_max_length tok (max_length : nat) text :
  (2 <= max_length)%nat ->
  let e := tokenizer_call tok PadMaxLength true max_length text in
  length (input_ids e) = max_length /\
  length (attention_mask e) = max_length /\
  length (token_type_ids e) = max_length.
Proof.
  intros Hm. unfold tokenizer_call. cbn [input_ids attention_mask token_type_ids].
  rewrite !length_app, !repeat_length. cbn [length].
  rewrite !length_app, length_firstn. cbn [length]. lia.
Qed.

(** Without truncation a long text is not cut down to [max_length]. *)
Lemma tokenizer_call_untruncated tok (max_length : nat) text :
  (max_length - 2 < length (wordpiece tok text))%nat ->
  (max_length < length (input_ids (tokenizer_call tok PadMaxLength false max_length text)))%nat.
Proof.
  intros Hlong. unfold tokenizer_call. cbn [input_ids].
  rewrite !length_app, !repeat_length. cbn [length].
  rewrite !length_app. cbn [length]. lia.
Qed.

(** An empty list of texts has no row to stack: the tokenizer raises. *)
Lemma tokenize_function_empty (tokenizer : BertTokenizer) :
  tokenize_function tokenizer [] = None.
Proof. reflexivity. Qed.

(** C8: for every text of a list of texts, the encoding produced by
    [tokenize_function] is a sequence of exactly 128 integer ids, padded or
    truncated to [max_length = 128], together with an attention mask of the
    same length.  (On the empty list, which holds no text, the tokenizer
    raises.) *)
Theorem tokenize_function_fixed_length (tokenizer : BertTokenizer)
    (texts : list String.string) :
  texts <> [] ->
  exists rows,
    tokenize_function tokenizer texts = Some rows /\
    rows = map (tokenizer_call tokenizer PadMaxLength true 128) texts /\
    Forall (fun e => length (input_ids e) = 128%nat /\
                     length (attention_mask e) = 128%nat) rows.
Proof.
  intros Hne.
  assert (Hall : Forall (fun e => length (input_ids e) = 128%nat /\
                                  length (attention_mask e) = 128%nat)
                   (map (tokenizer_call tokenizer PadMaxLength true 128) texts)).
  { apply Forall_forall. intros e He. apply in_map_iff in He.
    destruct He as [text [<- _]].
    pose proof (@tokenizer_call_max_length tokenizer 128 text ltac:(lia)) as H.
    cbv zeta in H. tauto. }
  exists (map (tokenizer_call tokenizer PadMaxLength true 128) texts).
  split; [|split; [reflexivity | exact Hall]].
  unfold tokenize_function.
  destruct (map (tokenizer_call tokenizer PadMaxLength true 128) texts)
    as [|r rows] eqn:E.
  - destruct texts; [contradiction | discriminate].
  - replace (forallb _ (r :: rows)) with true; [reflexivity|].
    symmetry. apply forallb_forall. intros e He. apply Nat.eqb_eq.
    rewrite Forall_forall in Hall.
    destruct (Hall e He) as [-> _].
    destruct (Hall r (or_introl eq_refl)) as [-> _]. reflexivity.
Qed.

Lemma tokenize_function_fixed_length_witness :
  exists rows,
    tokenize_function sample_tokenizer [String.EmptyString; String.EmptyString] = Some rows /\
    rows = map (tokenizer_call sample_tokenizer PadMaxLength true 128)
             [String.EmptyString; String.EmptyString] /\
    Forall (fun e => length (input_ids e) = 128%nat /\
                     length (attention_mask e) = 128%nat) rows.
Proof.
  apply (@tokenize_function_fixed_length sample_tokenizer
           [String.EmptyString; String.EmptyString]).
  discriminate.
Defined.

(** ** C7: the evaluation loop *)

Lemma fgt_trans_gt a b m :
  fgt a b = true -> fgt a m = false -> fgt b m = false.
Proof.
  destruct a, b, m; simpl; try congruence;
    repeat match goal with |- context [Rlt_dec ?x ?y] => destruct (Rlt_dec x y) end;
    try congruence; intros; exfalso; lra.
Qed.

Lemma fgt_trans_le a b m :
  fgt a b = false -> fgt b m = false -> fgt a m = false.
Proof.
  destruct a, b, m; simpl; try congruence;
    repeat match goal with |- context [Rlt_dec ?x ?y] => destruct (Rlt_dec x y) end;
    try congruence; intros; exfalso; lra.
Qed.

Lemma fgt_irrefl a : fgt a a = false.
Proof.
  destruct a; simpl; try reflexivity.
  destruct (Rlt_dec r r); [exfalso; lra | reflexivity].
Qed.

Lemma argmax_from_max l :
  forall best besti i,
  exists m,
    (m = best /\ argmax_from best besti i l = besti \/
     exists k, (k < length l)%nat /\ argmax_from best besti i l = (i + k)%nat /\
               m = nth k l NaN) /\
    fgt best m = false /\
    forall x, In x l -> fgt x m = false.
Proof.
  induction l as [|a l IH]; intros best besti i.
  - exists best. split; [left; split; reflexivity|].
    split; [apply fgt_irrefl | intros x []].
  - cbn [argmax_from]. destruct (fgt a best) eqn:E.
    + destruct (IH a i (S i)) as [m [Hm [Ham Hl]]]. exists m. split.
      * right. destruct Hm as [[-> Hr] | [k [Hk [Hr ->]]]].
        -- exists 0%nat. cbn [length nth]. split; [lia|]. split; [lia | reflexivity].
        -- exists (S k). cbn [length nth]. split; [lia|]. split; [lia | reflexivity].
      * split; [apply (fgt_trans_gt _ _ _ E Ham)|].
        intros x [<- | Hx]; [exact Ham | apply Hl; exact Hx].
    + destruct (IH best besti (S i)) as [m [Hm [Hbm Hl]]]. exists m. split.
      * destruct Hm as [[-> Hr] | [k [Hk [Hr ->]]]].
        -- left. split; [reflexivity | exact Hr].
        -- right. exists (S k). cbn [length nth]. split; [lia|]. split; [lia | reflexivity].
      * split; [exact Hbm|].
        intros x [<- | Hx]; [apply (fgt_trans_le _ _ _ E Hbm) | apply Hl; exact Hx].
Qed.

Lemma argmax_row_is_argmax a l : is_argmax (a :: l) (argmax_from a 0 1 l).
Proof.
  destruct (argmax_from_max l a 0 1) as [m [Hm [Ham Hl]]].
  destruct Hm as [[-> ->] | [k [Hk [-> ->]]]]; split; cbn [length nth Nat.add].
  - lia.
  - intros x [<- | Hx]; [exact Ham | apply Hl; exact Hx].
  - lia.
  - intros x [<- | Hx]; [exact Ham | apply Hl; exact Hx].
Qed.

(** [torch.argmax(logits, dim=1)] returns, for every row, the index of a
    greatest logit. *)
Lemma argmax_rows_spec (logits : Tensor float) preds :
  argmax_rows logits = Some preds ->
  wf logits ->
  Forall2 is_argmax (entry logits) preds.
Proof.
  unfold argmax_rows. destruct (ncols logits =? 0)%nat eqn:E; [discriminate|].
  apply Nat.eqb_neq in E. intros H [_ Hrows]. injection H as <-.
  induction Hrows as [|r rows Hr _ IH]; cbn [map]; constructor; [|exact IH].
  destruct r as [|a l]; [simpl in Hr; lia|]. apply argmax_row_is_argmax.
Qed.

Lemma indicator_sum (p : Z * nat -> bool) (l : list (Z * nat)) :
  rsum (map (fun tp => if p tp then 1 else 0) l) = INR (length (filter p l)).
Proof.
  induction l as [|a l IH]; [reflexivity|].
  cbn [map rsum fold_right filter]. fold (rsum (map (fun tp => if p tp then 1 else 0) l)).
  rewrite IH. destruct (p a); [|lra].
  cbn [length]. rewrite S_INR. lra.
Qed.

Lemma accuracy_score_fraction y_true y_pred acc :
  accuracy_score y_true y_pred = Some acc ->
  length y_true = length y_pred /\ (0 < length y_pred)%nat /\
  acc = fraction_correct y_true y_pred.
Proof.
  unfold accuracy_score, fraction_correct.
  destruct (length y_true =? length y_pred)%nat eqn:E1; [|discriminate].
  apply Nat.eqb_eq in E1. cbn [negb].
  destruct (length y_true =? 0)%nat eqn:E2; [discriminate|].
  apply Nat.eqb_neq in E2. intros H. injection H as <-.
  split; [exact E1|]. split; [lia|].
  rewrite indicator_sum, E1. reflexivity.
Qed.

Section Evaluation.

Variables P G O : Type.
Variable lib : Library P G O.

Lemma eval_loop_spec loader :
  forall st st',
  model_training st = false ->
  eval_loop lib st loader = Some st' ->
  model_parameters st' = model_parameters st /\
  gradients st' = gradients st /\
  optimizer st' = optimizer st /\
  generator st' = generator st /\
  model_training st' = false /\
  exists preds,
    Forall2 (appended lib (model_parameters st)) loader preds /\
    predictions st' = predictions st ++ concat preds /\
    true_labels st' = true_labels st ++ concat (map batch_labels loader).
Proof.
  induction loader as [|batch rest IH]; intros st st' Hmode Hrun.
  - cbn in Hrun. injection Hrun as <-. repeat split; try assumption.
    exists []. cbn. rewrite !app_nil_r. repeat split. constructor.
  - cbn [eval_loop] in Hrun. unfold eval_step in Hrun.
    rewrite Hmode in Hrun.
    destruct (bert_logits lib _ _ _ _) as [logits|] eqn:El; [|discriminate].
    destruct (argmax_rows logits) as [ps|] eqn:Ea; [|discriminate].
    apply IH in Hrun; [|reflexivity]. cbn in Hrun.
    destruct Hrun as (Hp & Hg & Ho & Hgen & Ht & preds & Hall & Hpred & Hlab).
    repeat split; try assumption.
    exists (ps :: preds). split; [|split].
    + constructor; [|exact Hall]. exists logits.
      split; [exact El|]. split; [exact Ea|]. apply argmax_rows_spec. exact Ea.
    + rewrite Hpred. cbn [concat]. rewrite app_assoc. reflexivity.
    + rewrite Hlab. cbn [map concat]. rewrite app_assoc. reflexivity.
Qed.

Lemma eval_loop_total loader :
  forall st,
  model_training st = false ->
  Forall (fun batch =>
            exists logits,
              bert_logits lib (model_parameters st) false
                (batch_input_ids batch) (batch_attention_mask batch)
              = Some logits /\ ncols logits <> 0%nat) loader ->
  exists st', eval_loop lib st loader = Some st'.
Proof.
  induction loader as [|batch rest IH]; intros st Hmode Hall.
  - exists st. reflexivity.
  - inversion Hall as [|? ? [logits [El Hc]] Hrest]; subst.
    cbn [eval_loop]. unfold eval_step. rewrite Hmode, El.
    unfold argmax_rows. apply Nat.eqb_neq in Hc. rewrite Hc.
    apply IH; [reflexivity | exact Hrest].
Qed.

End Evaluation.

Lemma argmax_rows_length logits preds :
  argmax_rows logits = Some preds -> length preds = length (entry logits).
Proof.
  unfold argmax_rows. destruct (ncols logits =? 0)%nat; [discriminate|].
  intros H. injection H as <-. apply length_map.
Qed.

(** C7: the evaluation loop only runs forward passes: it returns the model
    parameters (and the gradients and the optimizer state) unchanged; the
    predictions are, batch after batch, the argmax of the logits along the
    class dimension, the logits being computed in evaluation mode; and the
    reported accuracy is the fraction of predictions equal to the true
    labels.  The loop returns whenever every forward pass returns logits
    with one row per label and at least one class, for a non-empty test
    set. *)
Theorem evaluation_forward_only (P G O : Type) (lib : Library P G O)
    (st : Notebook P G O) (test_loader : list Batch) :
  (forall st' accuracy,
     evaluation lib st test_loader = Some (st', accuracy) ->
     model_parameters st' = model_parameters st /\
     gradients st' = gradients st /\
     optimizer st' = optimizer st /\
     (exists preds,
        Forall2 (appended lib (model_parameters st)) test_loader preds /\
        predictions st' = concat preds) /\
     true_labels st' = concat (map batch_labels test_loader) /\
     accuracy = fraction_correct (true_labels st') (predictions st')) /\
  (Forall (fun batch =>
             exists logits,
               bert_logits lib (model_parameters st) false
                 (batch_input_ids batch) (batch_attention_mask batch)
               = Some logits /\
               ncols logits <> 0%nat /\
               length (entry logits) = length (batch_labels batch)) test_loader ->
   concat (map batch_labels test_loader) <> [] ->
   exists st' accuracy, evaluation lib st test_loader = Some (st', accuracy)).
Proof.
  split.
  - intros st' accuracy Hrun. unfold evaluation in Hrun.
    destruct (eval_loop lib _ test_loader) as [st1|] eqn:Eloop; [|discriminate].
    destruct (accuracy_score _ _) as [acc|] eqn:Eacc; [|discriminate].
    injection Hrun as <- <-.
    apply eval_loop_spec in Eloop; [|reflexivity]. cbn in Eloop.
    destruct Eloop as (Hp & Hg & Ho & _ & _ & preds & Hall & Hpred & Hlab).
    apply accuracy_score_fraction in Eacc. destruct Eacc as (_ & _ & Hacc).
    repeat split; try assumption. exists preds. split; assumption.
  - intros Hall Hne. unfold evaluation.
    set (st0 := mkNotebook (model_parameters st) false (gradients st)
                  (optimizer st) (generator st) [] []).
    destruct (@eval_loop_total P G O lib test_loader st0 eq_refl) as [st1 Eloop].
    { apply Forall_impl with (2 := Hall). intros batch [logits [El [Hc _]]].
      exists logits. split; assumption. }
    rewrite Eloop.
    pose proof (@eval_loop_spec P G O lib test_loader st0 st1 eq_refl Eloop) as Hs.
    cbn in Hs. destruct Hs as (_ & _ & _ & _ & _ & preds & Hap & Hpred & Hlab).
    assert (Hlen : length (concat preds)
                   = length (concat (map batch_labels test_loader))).
    { clear - Hap Hall. induction Hap as [|batch ps rest preds Hb _ IH]; [reflexivity|].
      inversion Hall as [|? ? [logits [El [_ Hrows]]] Hrest]; subst.
      destruct Hb as [logits' [El' [Ea _]]]. cbn in El'.
      rewrite El in El'. injection El' as <-.
      cbn [map concat]. rewrite !length_app, (IH Hrest).
      rewrite (argmax_rows_length _ Ea), Hrows. reflexivity. }
    unfold accuracy_score. rewrite Hpred, Hlab, Hlen, Nat.eqb_refl. cbn [negb].
    destruct (length (concat (map batch_labels test_loader)) =? 0)%nat eqn:E0.
    + exfalso. apply Nat.eqb_eq in E0.
      apply length_zero_iff_nil in E0. contradiction.
    + eexists _, _. reflexivity.
Qed.

Lemma evaluation_forward_only_witness :
  exists st' accuracy,
    evaluation sample_library sample_notebook sample_loader = Some (st', accuracy) /\
    model_parameters st' = model_parameters sample_notebook /\
    accuracy = fraction_correct (true_labels st') (predictions st').
Proof.
  destruct (evaluation_forward_only sample_library sample_notebook sample_loader)
    as [Hspec Htotal].
  destruct Htotal as [st' [accuracy E]].
  - repeat constructor. eexists. split; [reflexivity|]. split; [simpl; lia | reflexivity].
  - discriminate.
  - exists st', accuracy. split; [exact E|].
    destruct (Hspec st' accuracy E) as (Hp & _ & _ & _ & _ & Hacc).
    split; assumption.
Defined.

(** ** Batches *)

Lemma get3_tab3 n0 n1 n2 f b i c :
  (b < n0)%nat -> (i < n1)%nat -> (c < n2)%nat ->
  get3 (tab3 n0 n1 n2 f) b i c = f b i c.
Proof.
  intros Hb Hi Hc. unfold get3, tab3; cbn [planes].
  rewrite (nth_map_seq [] (fun b => map (fun i => map (f b i) (seq 0 n2)) (seq 0 n1)) Hb).
  rewrite (nth_map_seq [] (fun i => map (f b i) (seq 0 n2)) Hi).
  apply nth_map_seq. exact Hc.
Qed.

Lemma tab3_ext n0 n1 n2 f g :
  (forall b i c, (b < n0)%nat -> (i < n1)%nat -> (c < n2)%nat -> f b i c = g b i c) ->
  tab3 n0 n1 n2 f = tab3 n0 n1 n2 g.
Proof.
  intros H. unfold tab3. f_equal.
  apply map_seq_ext. intros b Hb. apply map_seq_ext. intros i Hi.
  apply map_seq_ext. intros c Hc. apply H; assumption.
Qed.

Lemma flat_index n1 r n0 :
  (r < n0 * n1)%nat -> (r / n1 < n0)%nat /\ (r mod n1 < n1)%nat.
Proof.
  intros Hr. assert (n1 <> 0)%nat by (intros ->; lia). split.
  - apply Nat.Div0.div_lt_upper_bound. rewrite Nat.mul_comm. exact Hr.
  - apply Nat.mod_upper_bound. assumption.
Qed.

Lemma flatten_tab3 n0 n1 n2 (x : nat -> nat -> nat -> float) :
  flatten (tab3 n0 n1 n2 x)
  = tab (n0 * n1) n2 (fun r c => x (r / n1)%nat (r mod n1)%nat c).
Proof.
  unfold flatten; cbn [size0 size1 size2 tab3]. apply tab_ext.
  intros r c Hr Hc. destruct (@flat_index _ _ _ Hr) as [Hb Hi].
  apply get3_tab3; assumption.
Qed.

Lemma unflatten_tab n0 n1 n2 (y : nat -> nat -> float) :
  unflatten n0 n1 (tab (n0 * n1) n2 y)
  = tab3 n0 n1 n2 (fun b i c => y (b * n1 + i)%nat c).
Proof.
  unfold unflatten; cbn [ncols tab]. apply tab3_ext.
  intros b i c Hb Hi Hc. apply fget_tab; [|exact Hc].
  apply head_index_lt; assumption.
Qed.

Lemma unflat_index n1 b i :
  (i < n1)%nat -> ((b * n1 + i) / n1 = b /\ (b * n1 + i) mod n1 = i)%nat.
Proof.
  intros Hi. assert (n1 <> 0)%nat by lia. split.
  - rewrite Nat.div_add_l by assumption. rewrite Nat.div_small by exact Hi. lia.
  - rewrite Nat.add_comm, Nat.Div0.mod_add. apply Nat.mod_small. exact Hi.
Qed.

(** A layer that works row by row works entry by entry on batches. *)
Lemma on_rows_tab3 f n0 n1 n2 m2 (F : (nat -> float) -> nat -> float)
    (x : nat -> nat -> nat -> float) :
  (forall r y, f (tab r n2 y) = Some (tab r m2 (fun i => F (y i)))) ->
  on_rows f (tab3 n0 n1 n2 x) = Some (tab3 n0 n1 m2 (fun b i => F (x b i))).
Proof.
  intros Hf. unfold on_rows. rewrite flatten_tab3, Hf.
  cbn [size0 size1 tab3]. rewrite unflatten_tab. f_equal.
  apply tab3_ext. intros b i c Hb Hi Hc.
  destruct (unflat_index b Hi) as [-> ->]. reflexivity.
Qed.

Lemma layer_norm_row_length N xs : length (layer_norm_row N xs) = length xs.
Proof.
  unfold layer_norm_row.
  rewrite length_map, length_combine, length_seq. apply Nat.min_id.
Qed.

Lemma LayerNorm_forward_tab d gam bet r (y : nat -> nat -> float) :
  LayerNorm_forward (mkLayerNorm d gam bet) (tab r d y)
  = Some (tab r d (fun i => layer_norm_entry (mkLayerNorm d gam bet) (y i))).
Proof.
  unfold LayerNorm_forward; cbn [ncols tab normalized_shape].
  rewrite Nat.eqb_refl. unfold tab. cbn [nrows ncols entry]. do 2 f_equal.
  rewrite map_map. apply map_ext. intros i. unfold layer_norm_entry.
  cbn [normalized_shape].
  rewrite (list_tabulate NaN
             (layer_norm_row (mkLayerNorm d gam bet) (map (y i) (seq 0 d)))) at 1.
  rewrite layer_norm_row_length, length_map, length_seq. reflexivity.
Qed.

Lemma layer_norm_entry_ext N (y y' : nat -> float) c :
  (forall k, (k < normalized_shape N)%nat -> y k = y' k) ->
  layer_norm_entry N y c = layer_norm_entry N y' c.
Proof.
  intros Hy. unfold layer_norm_entry. do 2 f_equal. apply map_seq_ext. exact Hy.
Qed.

Lemma ReLU_forward_tab r n (y : nat -> nat -> float) :
  ReLU_forward (tab r n y) = Some (tab r n (fun i c => relu_elt (y i c))).
Proof. unfold ReLU_forward. rewrite tmap_tab. reflexivity. Qed.

Lemma TransformerBlock_ffn_tab H hd dff w g1 b1 g2 b2 t r (y : nat -> nat -> float) :
  TransformerBlock_ffn (block_of H hd dff w g1 b1 g2 b2 t) (tab r (H * hd) y)
  = Some (tab r (H * hd)
            (fun i => ffn_entry (H * hd) dff (init_ffn_in w) (init_ffn_out w) (y i))).
Proof.
  unfold TransformerBlock_ffn, block_of; cbn [ffn_in ffn_out].
  rewrite Linear_forward_tab, ReLU_forward_tab, Linear_forward_tab.
  reflexivity.
Qed.

Lemma ffn_entry_ext d dff w1 w2 (y y' : nat -> float) c :
  (forall k, (k < d)%nat -> y k = y' k) ->
  ffn_entry d dff w1 w2 y c = ffn_entry d dff w1 w2 y' c.
Proof.
  intros Hy. unfold ffn_entry. apply linear_entry_ext. intros k Hk.
  f_equal. apply linear_entry_ext. exact Hy.
Qed.

Lemma add3_tab3 n0 n1 n2 (x y : nat -> nat -> nat -> float) :
  add3 (tab3 n0 n1 n2 x) (tab3 n0 n1 n2 y)
  = Some (tab3 n0 n1 n2 (fun b i c => fadd (x b i c) (y b i c))).
Proof.
  unfold add3; cbn [size0 size1 size2 tab3]. rewrite !bsize_refl. f_equal.
  apply tab3_ext. intros b i c Hb Hi Hc.
  rewrite (bidx_lt Hb), (bidx_lt Hi), (bidx_lt Hc).
  rewrite !get3_tab3 by assumption. reflexivity.
Qed.

Lemma dropout3_tab3 p t n0 n1 n2 (x : nat -> nat -> nat -> float) g :
  dropout3 p t (tab3 n0 n1 n2 x) g
  = Some (tab3 n0 n1 n2
            (fun b i c => dropout_entry p t g ((b * n1 + i) * n2 + c) (x b i c)),
          after_draws t (n0 * n1 * n2) g).
Proof.
  unfold dropout3, dropout_entry, after_draws. destruct t; [|reflexivity].
  do 2 f_equal. cbn [size0 size1 size2 tab3]. apply tab3_ext.
  intros b i c Hb Hi Hc. rewrite get3_tab3 by assumption. reflexivity.
Qed.

Lemma PositionalEncoding_forward3_tab3 M d (tbl : nat -> nat -> float) B S
    (x : nat -> nat -> nat -> float) :
  (S <= M)%nat ->
  PositionalEncoding_forward3 (mkPositionalEncoding (tab M d tbl)) (tab3 B S d x)
  = Some (tab3 B S d (fun b i c => fadd (x b i c) (tbl i c))).
Proof.
  intros HS. unfold PositionalEncoding_forward3. cbn [encoding].
  change (size0 (tab3 B S d x)) with B. change (size1 (tab3 B S d x)) with S.
  change (size2 (tab3 B S d x)) with d.
  rewrite first_rows_tab by exact HS.
  change (nrows (tab S d tbl)) with S. change (ncols (tab S d tbl)) with d.
  rewrite !bsize_refl. f_equal. apply tab3_ext. intros b i c Hb Hi Hc.
  rewrite (bidx_lt Hi), (bidx_lt Hc).
  rewrite get3_tab3, bget_tab by assumption. reflexivity.
Qed.

Lemma PositionalEncoding_forward3_too_long M d (tbl : nat -> nat -> float) B S
    (x : nat -> nat -> nat -> float) :
  (M < S)%nat -> (2 <= M)%nat ->
  PositionalEncoding_forward3 (mkPositionalEncoding (tab M d tbl)) (tab3 B S d x)
  = None.
Proof.
  intros HS HM. unfold PositionalEncoding_forward3, first_rows.
  cbn [encoding nrows ncols tab size0 size1 size2 tab3].
  rewrite Nat.min_r by lia. unfold bsize.
  replace (S =? M)%nat with false by (symmetry; apply Nat.eqb_neq; lia).
  replace (S =? 1)%nat with false by (symmetry; apply Nat.eqb_neq; lia).
  replace (M =? 1)%nat with false by (symmetry; apply Nat.eqb_neq; lia).
  reflexivity.
Qed.

Lemma as_masked_of H hd w :
  (0 < H)%nat -> as_masked (mha_of H hd w) = attention_of H hd w false.
Proof.
  intros HH. unfold as_masked, mha_of, attention_of.
  cbn [embed_dim num_heads in_proj_q in_proj_k in_proj_v out_proj]. f_equal.
  rewrite Nat2Z.inj_mul, Z.mul_comm. apply Z.div_mul. lia.
Qed.

Lemma column_plane_tab3 L N E (x : nat -> nat -> nat -> float) n :
  (n < N)%nat ->
  column_plane (tab3 L N E x) n = tab L E (fun l e => x l n e).
Proof.
  intros Hn. unfold column_plane; cbn [size0 size2 tab3].
  apply tab_ext. intros l e Hl He. apply get3_tab3; assumption.
Qed.

Lemma plane_tab3 B S D (x : nat -> nat -> nat -> float) b :
  (b < B)%nat -> plane (tab3 B S D x) b = tab S D (x b).
Proof.
  intros Hb. unfold plane; cbn [size1 size2 tab3].
  apply tab_ext. intros i c Hi Hc. apply get3_tab3; assumption.
Qed.

(** ** The transformer block entry by entry *)

(** [nn.MultiheadAttention]: the attention of the notebook's class along
    the first axis, without mask and without dropout, separately for every
    index of the second axis. *)
Lemma MultiheadAttention_forward_tab3 H hd w L N (q k v : nat -> nat -> nat -> float) :
  (0 < H)%nat -> (0 < hd)%nat ->
  MultiheadAttention_forward (mha_of H hd w)
    (tab3 L N (H * hd) q) (tab3 L N (H * hd) k) (tab3 L N (H * hd) v)
  = Some (tab3 L N (H * hd)
            (fun l n e =>
               forward_entry H hd w false unmasked no_draws L L
                 (fun l c => q l n c) (fun l c => k l n c) (fun l c => v l n c) l e)).
Proof.
  intros HH Hhd. unfold MultiheadAttention_forward.
  cbn [mha_of embed_dim size0 size1 size2 tab3].
  rewrite Nat2Z.id, !Nat.eqb_refl. cbn [andb].
  fold (tab3 L N (H * hd) q). fold (tab3 L N (H * hd) k).
  fold (tab3 L N (H * hd) v).
  fold (mha_of H hd w). rewrite (as_masked_of hd w HH).
  rewrite (mapM_map_seq_id _
             (fun n => tab L (H * hd)
                         (forward_entry H hd w false unmasked no_draws L L
                            (fun l c => q l n c) (fun l c => k l n c)
                            (fun l c => v l n c)))).
  - f_equal. apply tab3_ext. intros l n e Hl Hn He.
    rewrite (nth_map_seq _ _ Hn). apply fget_tab; assumption.
  - intros n Hn. rewrite !column_plane_tab3 by exact Hn.
    rewrite (@forward_tab H hd w false HH Hhd L L _ _ _ None no_draws).
    reflexivity.
Qed.

(** [TransformerBlock.forward] on a batch of its width, with or without a
    value tensor of the same shape. *)
Lemma TransformerBlock_forward_tab3 H hd dff w g1 b1 g2 b2 t B S
    (x : nat -> nat -> nat -> float) (v : option (nat -> nat -> nat -> float)) g :
  (0 < H)%nat -> (0 < hd)%nat ->
  TransformerBlock_forward (block_of H hd dff w g1 b1 g2 b2 t)
    (tab3 B S (H * hd) x) (option_map (tab3 B S (H * hd)) v) g
  = Some (tab3 B S (H * hd)
            (block_entry H hd dff w g1 b1 g2 b2 t B S g x
               (match v with Some v => v | None => x end)),
          block_generator t (B * S * (H * hd)) g).
Proof.
  intros HH Hhd.
  assert (Hattn :
            match option_map (tab3 B S (H * hd)) v with
            | None => MultiheadAttention_forward
                        (attention (block_of H hd dff w g1 b1 g2 b2 t))
                        (tab3 B S (H * hd) x) (tab3 B S (H * hd) x)
                        (tab3 B S (H * hd) x)
            | Some v' => MultiheadAttention_forward
                           (attention (block_of H hd dff w g1 b1 g2 b2 t))
                           (tab3 B S (H * hd) x) (tab3 B S (H * hd) x) v'
            end
            = Some (tab3 B S (H * hd)
                      (fun b n e =>
                         forward_entry H hd (init_attention w) false unmasked
                           no_draws B B
                           (fun l c => x l n c) (fun l c => x l n c)
                           (fun l c => match v with Some v => v | None => x end l n c)
                           b e))).
  { destruct v as [v|]; cbn [option_map block_of attention];
      apply MultiheadAttention_forward_tab3; assumption. }
  unfold TransformerBlock_forward, bind, lift. rewrite Hattn.
  change (block_training (block_of H hd dff w g1 b1 g2 b2 t)) with t.
  change (norm1 (block_of H hd dff w g1 b1 g2 b2 t))
    with (mkLayerNorm (H * hd) g1 b1).
  change (norm2 (block_of H hd dff w g1 b1 g2 b2 t))
    with (mkLayerNorm (H * hd) g2 b2).
  rewrite dropout3_tab3, add3_tab3.
  rewrite (@on_rows_tab3 (LayerNorm_forward (mkLayerNorm (H * hd) g1 b1))
             B S (H * hd) (H * hd) (layer_norm_entry (mkLayerNorm (H * hd) g1 b1)) _
             (LayerNorm_forward_tab (H * hd) g1 b1)).
  rewrite (@on_rows_tab3
             (TransformerBlock_ffn (block_of H hd dff w g1 b1 g2 b2 t))
             B S (H * hd) (H * hd)
             (ffn_entry (H * hd) dff (init_ffn_in w) (init_ffn_out w)) _
             (TransformerBlock_ffn_tab H hd dff w g1 b1 g2 b2 t)).
  rewrite dropout3_tab3, add3_tab3.
  rewrite (@on_rows_tab3 (LayerNorm_forward (mkLayerNorm (H * hd) g2 b2))
             B S (H * hd) (H * hd) (layer_norm_entry (mkLayerNorm (H * hd) g2 b2)) _
             (LayerNorm_forward_tab (H * hd) g2 b2)).
  unfold block_generator, after_draws. destruct t; reflexivity.
Qed.

(** Extensionality of [forward] without mask: all keys are seen. *)
Lemma forward_entry_unmasked_ext H hd w t g nq nk
    (q q' k k' v v' : nat -> nat -> float) i c :
  (0 < hd)%nat ->
  (forall e, (e < H * hd)%nat -> q i e = q' i e) ->
  (forall l e, (l < nk)%nat -> (e < H * hd)%nat -> k l e = k' l e) ->
  (forall l e, (l < nk)%nat -> (e < H * hd)%nat -> v l e = v' l e) ->
  forward_entry H hd w t unmasked g nq nk q k v i c
  = forward_entry H hd w t unmasked g nq nk q' k' v' i c.
Proof.
  intros Hhd Hq Hk Hv. apply forward_entry_ext; [exact Hhd | exact Hq | | |].
  - intros l e Hl _ He. apply Hk; assumption.
  - intros l e Hl _ He. apply Hv; assumption.
  - intros l e Hl Hvis. discriminate.
Qed.

(** Position [n] of the result of a block depends on position [n] of its
    arguments only. *)
Lemma block_entry_local H hd dff w g1 b1 g2 b2 t B S g
    (x x' v v' : nat -> nat -> nat -> float) n :
  (0 < hd)%nat ->
  (forall b c, (b < B)%nat -> (c < H * hd)%nat -> x b n c = x' b n c) ->
  (forall b c, (b < B)%nat -> (c < H * hd)%nat -> v b n c = v' b n c) ->
  forall b c, (b < B)%nat -> (c < H * hd)%nat ->
    block_entry H hd dff w g1 b1 g2 b2 t B S g x v b n c
    = block_entry H hd dff w g1 b1 g2 b2 t B S g x' v' b n c.
Proof.
  intros Hhd Hx Hv b c Hb Hc. unfold block_entry.
  set (a := fun (x v : nat -> nat -> nat -> float) e =>
              forward_entry H hd (init_attention w) false unmasked no_draws B B
                (fun l c => x l n c) (fun l c => x l n c) (fun l c => v l n c) b e).
  assert (Ha : forall e, (e < H * hd)%nat -> a x v e = a x' v' e).
  { intros e He. unfold a. apply forward_entry_unmasked_ext; [exact Hhd | | |].
    - intros u Hu. apply Hx; assumption.
    - intros l u Hl Hu. apply Hx; assumption.
    - intros l u Hl Hu. apply Hv; assumption. }
  set (x1 := fun (x v : nat -> nat -> nat -> float) e =>
               fadd (x b n e)
                 (dropout_entry (1 / 10) t g ((b * S + n) * (H * hd) + e) (a x v e))).
  assert (H1 : forall e, (e < H * hd)%nat -> x1 x v e = x1 x' v' e).
  { intros e He. unfold x1. rewrite (Hx b e Hb He), (Ha e He). reflexivity. }
  set (x2 := fun (x v : nat -> nat -> nat -> float) =>
               layer_norm_entry (mkLayerNorm (H * hd) g1 b1) (x1 x v)).
  assert (H2 : forall e, (e < H * hd)%nat -> x2 x v e = x2 x' v' e).
  { intros e He. unfold x2. apply layer_norm_entry_ext. exact H1. }
  change (layer_norm_entry (mkLayerNorm (H * hd) g2 b2)
            (fun c0 => fadd (x2 x v c0)
               (dropout_entry (1 / 10) t (after_draws t (B * S * (H * hd)) g)
                  ((b * S + n) * (H * hd) + c0)
                  (ffn_entry (H * hd) dff (init_ffn_in w) (init_ffn_out w)
                     (x2 x v) c0))) c
          = layer_norm_entry (mkLayerNorm (H * hd) g2 b2)
              (fun c0 => fadd (x2 x' v' c0)
                 (dropout_entry (1 / 10) t (after_draws t (B * S * (H * hd)) g)
                    ((b * S + n) * (H * hd) + c0)
                    (ffn_entry (H * hd) dff (init_ffn_in w) (init_ffn_out w)
                       (x2 x' v') c0))) c).
  apply layer_norm_entry_ext. intros e He. cbn [normalized_shape] in He.
  rewrite (H2 e He). do 2 f_equal. apply ffn_entry_ext. exact H2.
Qed.

Lemma encoder_layers_local H hd ls B S n :
  (0 < H)%nat -> (0 < hd)%nat -> Forall (real_block H hd) ls ->
  forall (x x' : nat -> nat -> nat -> float) g,
  (forall b c, (b < B)%nat -> (c < H * hd)%nat -> x b n c = x' b n c) ->
  exists z z' g',
    encoder_layers ls (tab3 B S (H * hd) x) g = Some (tab3 B S (H * hd) z, g') /\
    encoder_layers ls (tab3 B S (H * hd) x') g = Some (tab3 B S (H * hd) z', g') /\
    forall b c, (b < B)%nat -> (c < H * hd)%nat -> z b n c = z' b n c.
Proof.
  intros HH Hhd Hls. induction Hls as [|T ls HT _ IH]; intros x x' g Hx.
  - exists x, x', g. repeat split. exact Hx.
  - destruct HT as [dff w g1 b1 g2 b2 t].
    cbn [encoder_layers]. unfold bind.
    pose proof (@TransformerBlock_forward_tab3 H hd dff w g1 b1 g2 b2 t B S x
                  None g HH Hhd) as E.
    pose proof (@TransformerBlock_forward_tab3 H hd dff w g1 b1 g2 b2 t B S x'
                  None g HH Hhd) as E'.
    cbn [option_map] in E, E'. rewrite E, E'.
    apply IH. apply block_entry_local; assumption.
Qed.

Lemma encoder_layers_tab3 H hd ls B S :
  (0 < H)%nat -> (0 < hd)%nat -> Forall (real_block H hd) ls ->
  forall (x : nat -> nat -> nat -> float) g,
  exists z g', encoder_layers ls (tab3 B S (H * hd) x) g
               = Some (tab3 B S (H * hd) z, g').
Proof.
  intros HH Hhd Hls x g.
  destruct (@encoder_layers_local H hd ls B S 0 HH Hhd Hls x x g)
    as (z & _ & g' & E & _); [reflexivity|].
  exists z, g'. exact E.
Qed.

(** The encoder returns on every batch of its width that is not longer
    than the table. *)
Lemma TransformerEncoder_forward_tab3 H hd M (tbl : nat -> nat -> float) ls B S
    (x : nat -> nat -> nat -> float) g :
  (0 < H)%nat -> (0 < hd)%nat -> Forall (real_block H hd) ls -> (S <= M)%nat ->
  exists z g',
    TransformerEncoder_forward
      (mkTransformerEncoder (mkPositionalEncoding (tab M (H * hd) tbl)) ls)
      (tab3 B S (H * hd) x) g
    = Some (tab3 B S (H * hd) z, g').
Proof.
  intros HH Hhd Hls HS. unfold TransformerEncoder_forward, bind, lift.
  cbn [encoder_positional_encoding layers].
  rewrite PositionalEncoding_forward3_tab3 by exact HS.
  apply encoder_layers_tab3; assumption.
Qed.

Lemma Transformer_ffn_tab3 e pe dls d dout w B S (x : nat -> nat -> nat -> float) :
  Transformer_ffn (mkTransformer e pe dls (linear_of d dout w)) (tab3 B S d x)
  = Some (tab3 B S dout
            (fun b i c => relu_elt (linear_entry d w (fun _ => x b i) 0 c))).
Proof.
  unfold Transformer_ffn. cbn [ffn].
  apply (@on_rows_tab3 _ B S d dout
           (fun y c => relu_elt (linear_entry d w (fun _ => y) 0 c))).
  intros r y. rewrite Linear_forward_tab, ReLU_forward_tab. reflexivity.
Qed.

(** ** A mask that does not fit the scores *)

Lemma mapM_head_None {A B} (f : A -> option B) a l :
  f a = None -> mapM f (a :: l) = None.
Proof. intros H. cbn [mapM]. rewrite H. reflexivity. Qed.

Lemma masked_fill_mismatch (s : Tensor float) (m : Tensor bool) v :
  bsize (nrows s) (nrows m) = None \/ bsize (ncols s) (ncols m) = None ->
  masked_fill s (eq0 m) v = None.
Proof.
  unfold masked_fill, broadcast2, eq0. cbn [nrows ncols tmap].
  intros [-> | ->]; [reflexivity|].
  destruct (bsize (nrows s) (nrows m)); reflexivity.
Qed.

(** When the mask cannot be broadcast against the scores, [forward]
    raises. *)
Lemma forward_mask_mismatch H hd w t nq nk (qf kf vf : nat -> nat -> float)
    (m : Tensor bool) g :
  (0 < H)%nat -> (0 < hd)%nat ->
  bsize nq (nrows m) = None \/ bsize nk (ncols m) = None ->
  MaskedMultiHeadAttention_forward (attention_of H hd w t)
    (tab nq (H * hd) qf) (tab nk (H * hd) kf) (tab nk (H * hd) vf) (Some m) g
  = None.
Proof.
  intros HH Hhd Hm. unfold MaskedMultiHeadAttention_forward.
  rewrite projections_tab by assumption.
  pose proof (masked_scores_tab H hd w t nq nk qf kf None) as E.
  cbn [option_map] in E. unfold masked_scores in E |- *.
  destruct (mapM _ (combine _ _)) as [scores|]; [|reflexivity].
  injection E as ->.
  destruct H as [|H]; [lia|]. cbn [seq map].
  rewrite mapM_head_None; [reflexivity|].
  apply masked_fill_mismatch. exact Hm.
Qed.

(** ** The decoder block entry by entry *)

Lemma forward_causal_tab H hd w t S (x : nat -> nat -> float) g :
  (0 < H)%nat -> (0 < hd)%nat ->
  MaskedMultiHeadAttention_forward (attention_of H hd w t)
    (tab S (H * hd) x) (tab S (H * hd) x) (tab S (H * hd) x) (Some (tril S)) g
  = Some (tab S (H * hd) (forward_entry H hd w t causal g S S x x x),
          after_draws t (H * (S * S)) g).
Proof.
  intros HH Hhd.
  exact (@forward_tab H hd w t HH Hhd S S x x x (Some causal) g).
Qed.

Lemma after_draws_add t a b g :
  after_draws t b (after_draws t a g) = after_draws t (a + b) g.
Proof. unfold after_draws. destruct t; [apply advance_advance | reflexivity]. Qed.

Lemma after_draws_0 t g : after_draws t 0 g = g.
Proof. unfold after_draws. destruct t; [apply advance_0 | reflexivity]. Qed.

(** Running a computation over the batch entries in order, each drawing
    [k] decisions in training mode. *)
Lemma mapR_seq_draws {A} (f : nat -> Rand A) (r : nat -> rng -> A) t k B g n :
  (forall b g0, (b < B)%nat -> f b g0 = Some (r b g0, after_draws t k g0)) ->
  forall a, (a + n <= B)%nat ->
  mapR f (seq a n) (after_draws t (a * k) g)
  = Some (map (fun b => r b (after_draws t (b * k) g)) (seq a n),
          after_draws t ((a + n) * k) g).
Proof.
  intros Hf. induction n as [|n IH]; intros a Ha.
  - cbn [seq mapR map]. unfold ret. rewrite Nat.add_0_r. reflexivity.
  - cbn [seq mapR map]. unfold bind. rewrite Hf by lia.
    rewrite after_draws_add.
    replace (a * k + k)%nat with (S a * k)%nat by lia.
    rewrite IH by lia. unfold ret.
    replace (S a + n)%nat with (a + S n)%nat by lia. reflexivity.
Qed.

Lemma masked_self_attention_tab3 H hd w t B S (x : nat -> nat -> nat -> float) g :
  (0 < H)%nat -> (0 < hd)%nat -> (0 < B)%nat ->
  masked_self_attention (attention_of H hd w t) (Some (tril S))
    (tab3 B S (H * hd) x) g
  = Some (tab3 B S (H * hd)
            (fun b => forward_entry H hd w t causal
                        (after_draws t (b * (H * (S * S))) g) S S (x b) (x b) (x b)),
          after_draws t (B * (H * (S * S))) g).
Proof.
  intros HH Hhd HB. unfold masked_self_attention.
  change (size0 (tab3 B S (H * hd) x)) with B.
  replace (B =? 0)%nat with false by (symmetry; apply Nat.eqb_neq; lia).
  unfold bind.
  pose proof (@mapR_seq_draws _
                (fun b => MaskedMultiHeadAttention_forward (attention_of H hd w t)
                            (plane (tab3 B S (H * hd) x) b)
                            (plane (tab3 B S (H * hd) x) b)
                            (plane (tab3 B S (H * hd) x) b) (Some (tril S)))
                (fun b g0 => tab S (H * hd)
                               (forward_entry H hd w t causal g0 S S (x b) (x b) (x b)))
                t (H * (S * S))%nat B g B) as E.
  rewrite <- (after_draws_0 t g) at 1.
  change 0%nat with (0 * (H * (S * S)))%nat at 1.
  rewrite E; [| |lia].
  - unfold ret. cbn [Nat.add]. do 2 f_equal.
    rewrite (nth_map_seq _ _ HB).
    change (nrows (tab S (H * hd) ?f)) with S.
    change (ncols (tab S (H * hd) ?f)) with (H * hd)%nat.
    apply tab3_ext. intros b i c Hb Hi Hc.
    rewrite (nth_map_seq _ _ Hb). apply fget_tab; assumption.
  - intros b g0 Hb. rewrite plane_tab3 by exact Hb.
    apply forward_causal_tab; assumption.
Qed.

Lemma DecoderBlock_forward_tab3 H hd dff wm tm w g1 b1 g2 b2 t gam bet td B S
    (output x : nat -> nat -> nat -> float) g :
  (0 < H)%nat -> (0 < hd)%nat -> (0 < B)%nat ->
  DecoderBlock_forward
    (mkDecoderBlock (Some (tril S)) (attention_of H hd wm tm)
       (block_of H hd dff w g1 b1 g2 b2 t) (mkLayerNorm (H * hd) gam bet) td)
    (tab3 B S (H * hd) output) (tab3 B S (H * hd) x) g
  = Some (tab3 B S (H * hd)
            (block_entry H hd dff w g1 b1 g2 b2 t B S
               (after_draws td (B * S * (H * hd))
                  (after_draws tm (B * (H * (S * S))) g))
               x (decoder_value H hd wm tm gam bet td B S g output)),
          block_generator t (B * S * (H * hd))
            (after_draws td (B * S * (H * hd))
               (after_draws tm (B * (H * (S * S))) g))).
Proof.
  intros HH Hhd HB. unfold DecoderBlock_forward, bind, lift.
  cbn [masked_attn mask decoder_training norm transformer_block].
  rewrite masked_self_attention_tab3 by assumption.
  rewrite dropout3_tab3, add3_tab3.
  rewrite (@on_rows_tab3 (LayerNorm_forward (mkLayerNorm (H * hd) gam bet))
             B S (H * hd) (H * hd) (layer_norm_entry (mkLayerNorm (H * hd) gam bet)) _
             (LayerNorm_forward_tab (H * hd) gam bet)).
  exact (@TransformerBlock_forward_tab3 H hd dff w g1 b1 g2 b2 t B S x
           (Some (decoder_value H hd wm tm gam bet td B S g output))
           (after_draws td (B * S * (H * hd)) (after_draws tm (B * (H * (S * S))) g))
           HH Hhd).
Qed.

Lemma decoder_layers_tab3 H hd S ls B (x : nat -> nat -> nat -> float) :
  (0 < H)%nat -> (0 < hd)%nat -> (0 < B)%nat ->
  Forall (causal_decoder H hd S) ls ->
  forall (out : nat -> nat -> nat -> float) g,
  exists z g', decoder_layers ls (tab3 B S (H * hd) out) (tab3 B S (H * hd) x) g
               = Some (tab3 B S (H * hd) z, g').
Proof.
  intros HH Hhd HB Hls. induction Hls as [|D ls HD _ IH]; intros out g.
  - eexists _, _. reflexivity.
  - cbn [decoder_layers]. unfold bind.
    destruct HD as [wm tm T gam bet td HT]. destruct HT as [dff w g1 b1 g2 b2 t].
    rewrite DecoderBlock_forward_tab3 by assumption.
    apply IH.
Qed.

(** ** C6: the output of [Transformer.forward] *)

Lemma default_table_constructed d :
  (0 < d)%Z -> Z.even d = true \/ d = 1%Z ->
  PositionalEncoding_init d default_max_len default_l
  = Some (mkPositionalEncoding
            (rtab (Z.to_nat default_max_len) (Z.to_nat d) (pe_table default_l d))).
Proof.
  intros Hd Hev. apply PositionalEncoding_init_ok;
    [unfold default_max_len; lia | exact Hd | exact default_l_pos | exact Hev |].
  apply default_encoding_in_range. lia.
Qed.

Lemma sample_transformer_constructed n :
  Transformer_init 2 1 1 1 1 (Some (tril n)) sample_transformer_init
  = Some (sample_transformer n).
Proof.
  unfold Transformer_init, TransformerEncoder_init.
  rewrite (@default_table_constructed 2 ltac:(lia) (or_introl eq_refl)).
  reflexivity.
Qed.

Lemma sample_encoder n g :
  exists e g1,
    TransformerEncoder_forward (encoder (sample_transformer n)) sample_input g
    = Some (tab3 1 2 (1 * 2) e, g1).
Proof.
  apply (@TransformerEncoder_forward_tab3 1 2 (Z.to_nat default_max_len)
           (fun i c => Fin (pe_table default_l 2 i c)) [sample_block] 1 2
           (fun _ _ _ => Fin 1) g); try lia.
  - repeat constructor.
  - unfold default_max_len. lia.
Qed.

Lemma sample_encoder_then_ffn n g :
  exists y g1,
    encoder_then_ffn (sample_transformer n) sample_input g
    = Some (tab3 1 2 1 y, g1).
Proof.
  destruct (sample_encoder n g) as [e [g1 E]].
  unfold encoder_then_ffn, bind, lift. rewrite E.
  unfold sample_transformer at 1. rewrite Transformer_ffn_tab3.
  eexists _, _. reflexivity.
Qed.

(** C6, as stated, fails: with the causal mask built for three positions
    and an input of two positions, the encoder and the final feed-forward
    layer return, but the decoder loop raises (the mask does not broadcast
    against the scores), and so does [Transformer.forward]. *)
Lemma transformer_raises_in_unused_decoder :
  Transformer_init 2 1 1 1 1 (Some (tril 3)) sample_transformer_init
  = Some (sample_transformer 3) /\
  Transformer_forward (sample_transformer 3) sample_input keep_all = None /\
  exists y g1,
    encoder_then_ffn (sample_transformer 3) sample_input keep_all = Some (y, g1).
Proof.
  split; [apply sample_transformer_constructed|]. split.
  - destruct (sample_encoder 3 keep_all) as [e [g1 E]].
    unfold Transformer_forward, bind, lift. rewrite E.
    unfold sample_transformer, sample_table, rtab.
    cbn [positional_encoding decoder].
    rewrite PositionalEncoding_forward3_tab3 by (unfold default_max_len; lia).
    cbn [decoder_layers]. unfold bind, DecoderBlock_forward, bind.
    cbn [masked_attn mask]. unfold masked_self_attention.
    change (size0 (tab3 1 2 (1 * 2) ?f)) with 1%nat. cbn [Nat.eqb seq mapR].
    unfold bind. rewrite plane_tab3 by lia.
    rewrite forward_mask_mismatch; [reflexivity | lia | lia |].
    left. reflexivity.
  - destruct (sample_encoder_then_ffn 3 keep_all) as [y [g1 E]].
    eexists _, _. exact E.
Qed.

(** With the mask built for its sequence length, the sample transformer
    returns. *)
Lemma sample_decoder_pass (e : nat -> nat -> nat -> float) g :
  exists out g',
    decoder_pass (sample_transformer 2) (tab3 1 2 (1 * 2) e) g = Some (out, g').
Proof.
  unfold decoder_pass, bind, lift, sample_transformer, sample_table, rtab.
  cbn [positional_encoding decoder].
  rewrite PositionalEncoding_forward3_tab3 by (unfold default_max_len; lia).
  destruct (@decoder_layers_tab3 1 2 2
              [mkDecoderBlock (Some (tril 2))
                 (attention_of 1 2 (const_attention 1 0) true)
                 sample_block (mkLayerNorm (1 * 2) ones zeroes) true]
              1 e ltac:(lia) ltac:(lia) ltac:(lia)
              ltac:(repeat constructor)
              (fun b i c => fadd (e b i c) (Fin (pe_table default_l 2 i c))) g)
    as [z [g' E]].
  eexists _, _. exact E.
Qed.

(** C6 (amended): whenever [Transformer.forward] returns, its value is
    [ffn(encoder(x))]; it returns exactly when the encoder, the positional
    re-encoding with the decoder loop, and the final feed-forward layer all
    return, and raises when the re-encoding or a decoder block raises.  The
    returned value does not depend on the decoder blocks, the positional
    re-encoding or the mask: two transformers with the same encoder and the
    same final layer that both return, return the same value. *)
Theorem Transformer_forward_output (T : Transformer) (x : Tensor3) (g : rng) :
  (forall y g',
     Transformer_forward T x g = Some (y, g') ->
     exists g1, encoder_then_ffn T x g = Some (y, g1)) /\
  (forall e g1 out g2,
     TransformerEncoder_forward (encoder T) x g = Some (e, g1) ->
     decoder_pass T e g1 = Some (out, g2) ->
     Transformer_forward T x g = lift (Transformer_ffn T e) g2) /\
  (forall e g1,
     TransformerEncoder_forward (encoder T) x g = Some (e, g1) ->
     decoder_pass T e g1 = None ->
     Transformer_forward T x g = None) /\
  (forall T' y g' y' g'',
     encoder T' = encoder T -> ffn T' = ffn T ->
     Transformer_forward T x g = Some (y, g') ->
     Transformer_forward T' x g = Some (y', g'') ->
     y' = y).
Proof.
  assert (Hval : forall T0 y g',
            Transformer_forward T0 x g = Some (y, g') ->
            exists e g1,
              TransformerEncoder_forward (encoder T0) x g = Some (e, g1) /\
              Transformer_ffn T0 e = Some y).
  { intros T0 y g'. unfold Transformer_forward, bind, lift, ret.
    destruct (TransformerEncoder_forward (encoder T0) x g) as [[e g1]|] eqn:He;
      [|discriminate].
    destruct (PositionalEncoding_forward3 (positional_encoding T0) e); [|discriminate].
    destruct (decoder_layers (decoder T0) _ e g1) as [[out g2]|]; [|discriminate].
    destruct (Transformer_ffn T0 e) as [y0|] eqn:Hy; [|discriminate].
    intros E. injection E as <- _. exists e, g1. split; [reflexivity | exact Hy]. }
  split; [|split; [|split]].
  - intros y g' Hrun. destruct (Hval T y g' Hrun) as [e [g1 [He Hy]]].
    exists g1. unfold encoder_then_ffn, bind, lift. rewrite He, Hy. reflexivity.
  - intros e g1 out g2 He Hdec.
    unfold decoder_pass, bind, lift in Hdec.
    unfold Transformer_forward, bind, lift, ret. rewrite He.
    destruct (PositionalEncoding_forward3 (positional_encoding T) e); [|discriminate].
    rewrite Hdec. destruct (Transformer_ffn T e); reflexivity.
  - intros e g1 He Hdec.
    unfold decoder_pass, bind, lift in Hdec.
    unfold Transformer_forward, bind, lift. rewrite He.
    destruct (PositionalEncoding_forward3 (positional_encoding T) e); [|reflexivity].
    rewrite Hdec. reflexivity.
  - intros T' y g' y' g'' Henc Hffn Hrun Hrun'.
    destruct (Hval T y g' Hrun) as [e [g1 [He Hy]]].
    destruct (Hval T' y' g'' Hrun') as [e' [g1' [He' Hy']]].
    rewrite Henc, He in He'. injection He' as <- <-.
    unfold Transformer_ffn in Hy, Hy'. rewrite Hffn, Hy in Hy'.
    injection Hy' as <-. reflexivity.
Qed.

Lemma Transformer_forward_output_witness :
  exists y g',
    Transformer_forward (sample_transformer 2) sample_input keep_all = Some (y, g') /\
    exists g1,
      encoder_then_ffn (sample_transformer 2) sample_input keep_all = Some (y, g1).
Proof.
  destruct (Transformer_forward_output (sample_transformer 2) sample_input keep_all)
    as (Hval & Hret & _ & _).
  destruct (sample_encoder 2 keep_all) as [e [g1 E]].
  destruct (sample_decoder_pass e g1) as [out [g2 Hdec]].
  pose proof (Hret _ _ _ _ E Hdec) as Hrun.
  unfold lift in Hrun. unfold sample_transformer in Hrun at 2.
  rewrite Transformer_ffn_tab3 in Hrun.
  eexists _, _. split; [exact Hrun|].
  exact (Hval _ _ Hrun).
Defined.

(** * Further properties *)

(** ** [self_attention]: degenerate sizes *)

(** X5: degenerate sizes.  Without any key, every output entry is an empty sum,
    that is 0.  With keys of width 0 the scores are [0 / 0]: every output
    entry is NaN. *)
Theorem self_attention_degenerate n dv (q k v : nat -> nat -> R) :
  (forall d, self_attention (rtab n d q) (rtab 0 d k) (rtab 0 dv v)
             = Some (rtab n dv (fun _ _ => 0))) /\
  (forall m, (0 < m)%nat ->
             self_attention (rtab n 0 q) (rtab m 0 k) (rtab m dv v)
             = Some (tab n dv (fun _ _ => NaN))).
Proof.
  split.
  - intros d. unfold rtab. rewrite self_attention_tab. reflexivity.
  - intros m Hm. unfold rtab. rewrite self_attention_tab. f_equal.
    apply tab_ext. intros i c Hi Hc. apply fsum_n_NaN; [exact Hm|].
    intros j Hj.
    assert (Hs : score_entry (fun i j => Fin (q i j)) (fun i j => Fin (k i j)) 0 i 0
                 = NaN).
    { unfold score_entry, fdiv_scalar, fsum_n, inf_of_sign.
      cbn [seq map fsum fold_right INR]. rewrite sqrt_0.
      destruct (Req_dec_T 0 0) as [_|Hne]; [|exfalso; apply Hne; reflexivity].
      destruct (Req_dec_T 0 0) as [_|Hne]; [reflexivity | exfalso; apply Hne; reflexivity]. }
    assert (Hw : weight_entry
                   (score_entry (fun i j => Fin (q i j)) (fun i j => Fin (k i j)) 0)
                   m i j = NaN).
    { apply (@weight_entry_irregular unmasked _ m i j 0%nat);
        [exact Hm | reflexivity | right; exact Hs | exact Hj]. }
    rewrite Hw. reflexivity.
Qed.

Lemma self_attention_degenerate_witness :
  self_attention (rtab 1 0 (fun _ _ => 1)) (rtab 2 0 (fun _ _ => 1))
    (rtab 2 1 (fun _ _ => 1))
  = Some (tab 1 1 (fun _ _ => NaN)).
Proof.
  apply (proj2 (self_attention_degenerate 1 1 (fun _ _ => 1) (fun _ _ => 1)
                  (fun _ _ => 1)) 2%nat). lia.
Defined.

(** ** [MaskedMultiHeadAttention.forward]: masked rows, generator, errors *)

Lemma row_not_visible vis nk i :
  row_visible vis nk i = false ->
  (0 < nk)%nat /\ forall l, (l < nk)%nat -> vis i l = false.
Proof.
  intros Hrow. split.
  - destruct nk as [|nk]; [|lia].
    assert (row_visible vis 0 i = true) by (apply row_visible_spec; right; reflexivity).
    congruence.
  - intros l Hl. apply not_true_is_false. intros Hv.
    assert (row_visible vis nk i = true)
      by (apply row_visible_spec; left; exists l; split; assumption).
    congruence.
Qed.

(** A query position all of whose keys are masked: every weight is NaN, and
    so is every output entry. *)
Lemma forward_entry_hidden_row H hd w t vis g nq nk (q k v : nat -> nat -> float) i c :
  (0 < H)%nat -> (0 < hd)%nat -> row_visible vis nk i = false ->
  forward_entry H hd w t vis g nq nk q k v i c = NaN.
Proof.
  intros HH Hhd Hrow. destruct (row_not_visible _ _ _ Hrow) as [Hnk Hall].
  unfold forward_entry.
  apply (@linear_entry_NaN (H * hd) (init_out w) _ i c 0%nat).
  - apply Nat.mul_pos_pos; assumption.
  - unfold head_entry. apply (@fsum_n_has_NaN nk _ 0%nat Hnk).
    unfold dropped_weight.
    rewrite (@weight_entry_real vis _ (fun _ _ => 0) nk i 0%nat); [| |exact Hnk].
    + rewrite Hrow. unfold dropout_entry. destruct t; reflexivity.
    + intros l Hl Hv. rewrite (Hall l Hl) in Hv. discriminate.
Qed.

(** X6: the output of [MaskedMultiHeadAttention.forward] has one row per query
    position and [d_model] columns.  A query position all of whose keys are
    masked gets a row of NaN, whatever the inputs are.  A query position
    that sees at least one key (or when there is no key at all) gets a row
    of real numbers when the inputs and the parameters are inside the
    bounds, so that no product or sum overflows. *)
Theorem forward_masked_rows H hd w t nq nk (qf kf vf : nat -> nat -> R)
    (vis : nat -> nat -> bool) g :
  (0 < H)%nat -> (0 < hd)%nat ->
  exists out g',
    MaskedMultiHeadAttention_forward (attention_of H hd w t)
      (rtab nq (H * hd) qf) (rtab nk (H * hd) kf) (rtab nk (H * hd) vf)
      (Some (tab nq nk vis)) g = Some (out, g') /\
    shape out = (nq, (H * hd)%nat) /\
    (forall i c, (i < nq)%nat -> (c < H * hd)%nat ->
       row_visible vis nk i = false -> fget out i c = NaN) /\
    (forall b,
       attention_in_range b (H * hd) -> bounded_attention b w ->
       bounded_input b qf nq (H * hd) -> bounded_input b kf nk (H * hd) ->
       bounded_input b vf nk (H * hd) ->
       forall i c, (i < nq)%nat -> (c < H * hd)%nat ->
         row_visible vis nk i = true -> exists r, fget out i c = Fin r).
Proof.
  intros HH Hhd.
  pose proof (@forward_tab H hd w t HH Hhd nq nk
                (fun i c => Fin (qf i c)) (fun i c => Fin (kf i c))
                (fun i c => Fin (vf i c)) (Some vis) g) as E.
  cbn [option_map visibility] in E.
  eexists _, _. split; [exact E|]. split; [reflexivity|]. split.
  - intros i c Hi Hc Hrow. rewrite fget_tab by assumption.
    apply forward_entry_hidden_row; assumption.
  - intros b Hr Hw Hq Hk Hv i c Hi Hc Hrow.
    pose proof (@forward_rtab H hd w t HH Hhd nq nk qf kf vf (Some vis) b
                  Hr Hw Hq Hk Hv g) as E'.
    cbn [option_map visibility] in E'. unfold rtab in E'.
    rewrite E in E'.
    match type of E' with
    | Some (?a, _) = Some (?a', _) => assert (Et : a = a') by congruence
    end.
    rewrite Et.
    rewrite fget_tab by assumption. rewrite Hrow. eexists. reflexivity.
Qed.

Lemma forward_masked_rows_witness :
  exists out g',
    MaskedMultiHeadAttention_forward (attention_of 1 1 (const_attention 1 0) true)
      (rtab 2 (1 * 1) (fun _ _ => 1)) (rtab 2 (1 * 1) (fun _ _ => 1))
      (rtab 2 (1 * 1) (fun _ _ => 1))
      (Some (tab 2 2 (fun i j => (j <? i)%nat))) keep_all = Some (out, g') /\
    shape out = (2%nat, (1 * 1)%nat) /\
    fget out 0 0 = NaN /\
    exists r, fget out 1 0 = Fin r.
Proof.
  destruct (@forward_masked_rows 1 1 (const_attention 1 0) true 2 2
              (fun _ _ => 1) (fun _ _ => 1) (fun _ _ => 1)
              (fun i j => (j <? i)%nat) keep_all ltac:(lia) ltac:(lia))
    as (out & g' & E & Hs & Hnan & Hreal).
  exists out, g'. split; [exact E|]. split; [exact Hs|]. split.
  - apply Hnan; [lia | lia | reflexivity].
  - apply (Hreal 1); try lia.
    + apply (@attention_in_range_1 (1 * 1)). lia.
    + apply (@bounded_const_attention 1 0 1); [exact Rabs_1_le_1 | exact Rabs_0_le_1].
    + apply (@bounded_const_input 1 1 2 (1 * 1)). exact Rabs_1_le_1.
    + apply (@bounded_const_input 1 1 2 (1 * 1)). exact Rabs_1_le_1.
    + apply (@bounded_const_input 1 1 2 (1 * 1)). exact Rabs_1_le_1.
    + reflexivity.
Defined.

(** X7: the random generator.  In training mode
    [MaskedMultiHeadAttention.forward] draws exactly [nhead * nq * nk]
    dropout decisions, one per attention weight; in evaluation mode it
    draws none and its output does not depend on the generator. *)
Theorem forward_generator_use H hd w nq nk (qf kf vf : nat -> nat -> R) mask g g2 :
  (0 < H)%nat -> (0 < hd)%nat ->
  (exists out,
     MaskedMultiHeadAttention_forward (attention_of H hd w true)
       (rtab nq (H * hd) qf) (rtab nk (H * hd) kf) (rtab nk (H * hd) vf)
       (option_map (tab nq nk) mask) g
     = Some (out, advance (H * (nq * nk)) g)) /\
  (exists out,
     MaskedMultiHeadAttention_forward (attention_of H hd w false)
       (rtab nq (H * hd) qf) (rtab nk (H * hd) kf) (rtab nk (H * hd) vf)
       (option_map (tab nq nk) mask) g
     = Some (out, g) /\
     MaskedMultiHeadAttention_forward (attention_of H hd w false)
       (rtab nq (H * hd) qf) (rtab nk (H * hd) kf) (rtab nk (H * hd) vf)
       (option_map (tab nq nk) mask) g2
     = Some (out, g2)).
Proof.
  intros HH Hhd. unfold rtab. split.
  - eexists. apply (@forward_tab H hd w true HH Hhd nq nk _ _ _ mask g).
  - eexists. split.
    + apply (@forward_tab H hd w false HH Hhd nq nk _ _ _ mask g).
    + rewrite (@forward_tab H hd w false HH Hhd nq nk _ _ _ mask g2).
      reflexivity.
Qed.

Lemma forward_generator_use_witness :
  exists out,
    MaskedMultiHeadAttention_forward (attention_of 2 1 (const_attention 1 0) true)
      (rtab 3 (2 * 1) (fun _ _ => 1)) (rtab 3 (2 * 1) (fun _ _ => 1))
      (rtab 3 (2 * 1) (fun _ _ => 1)) (option_map (tab 3 3) None) keep_all
    = Some (out, advance (2 * (3 * 3)) keep_all).
Proof.
  apply (@forward_generator_use 2 1 (const_attention 1 0) 3 3
           (fun _ _ => 1) (fun _ _ => 1) (fun _ _ => 1) None keep_all keep_all);
    lia.
Defined.

Lemma Linear_forward_width i o w (x : Tensor float) :
  ncols x <> i -> Linear_forward (linear_of i o w) x = None.
Proof.
  intros Hx. unfold Linear_forward, matmul, linear_of.
  cbn [weight transpose rtab tab nrows ncols].
  replace (ncols x =? i)%nat with false by (symmetry; apply Nat.eqb_neq; exact Hx).
  reflexivity.
Qed.

(** X8: [MaskedMultiHeadAttention.forward] raises when the query, the key or
    the value does not have [d_model] columns, whatever else it is given. *)
Theorem forward_width_mismatch H hd w t (query key value : Tensor float) mask g :
  ncols query <> (H * hd)%nat \/ ncols key <> (H * hd)%nat \/
  ncols value <> (H * hd)%nat ->
  MaskedMultiHeadAttention_forward (attention_of H hd w t) query key value mask g
  = None.
Proof.
  intros Hbad.
  assert (E : projections (attention_of H hd w t) query key value = None).
  { unfold projections, attention_of. cbn [q_linear k_linear v_linear nhead head_dim].
    destruct Hbad as [Hq | [Hk | Hv]].
    - rewrite (@Linear_forward_width _ _ _ _ Hq). reflexivity.
    - destruct (Linear_forward _ query); [|reflexivity].
      destruct (shape_heads _ _ _); [|reflexivity].
      rewrite (@Linear_forward_width _ _ _ _ Hk). reflexivity.
    - destruct (Linear_forward _ query); [|reflexivity].
      destruct (shape_heads _ _ _); [|reflexivity].
      destruct (Linear_forward _ key); [|reflexivity].
      destruct (shape_heads _ _ _); [|reflexivity].
      rewrite (@Linear_forward_width _ _ _ _ Hv). reflexivity. }
  unfold MaskedMultiHeadAttention_forward. rewrite E. reflexivity.
Qed.

Lemma forward_width_mismatch_witness :
  MaskedMultiHeadAttention_forward (attention_of 2 2 (const_attention 1 0) true)
    (rtab 3 4 (fun _ _ => 1)) (rtab 3 5 (fun _ _ => 1)) (rtab 3 4 (fun _ _ => 1))
    None keep_all
  = None.
Proof.
  apply forward_width_mismatch. right. left. simpl. lia.
Defined.

(** X9: [MaskedMultiHeadAttention.forward] raises when the mask cannot be
    broadcast against the [nq x nk] scores: a mask axis must have the size
    of the scores' axis or size 1 (or the scores' axis has size 1). *)
Theorem forward_mask_must_fit H hd w t nq nk (qf kf vf : nat -> nat -> R)
    (m : Tensor bool) g :
  (0 < H)%nat -> (0 < hd)%nat ->
  (nq <> nrows m /\ nq <> 1%nat /\ nrows m <> 1%nat) \/
  (nk <> ncols m /\ nk <> 1%nat /\ ncols m <> 1%nat) ->
  MaskedMultiHeadAttention_forward (attention_of H hd w t)
    (rtab nq (H * hd) qf) (rtab nk (H * hd) kf) (rtab nk (H * hd) vf) (Some m) g
  = None.
Proof.
  intros HH Hhd Hm. unfold rtab.
  apply forward_mask_mismatch; [assumption | assumption |].
  assert (B : forall a b, a <> b /\ a <> 1%nat /\ b <> 1%nat -> bsize a b = None).
  { intros a b [H1 [H2 H3]]. unfold bsize.
    apply Nat.eqb_neq in H1, H2, H3. rewrite H1, H2, H3. reflexivity. }
  destruct Hm as [Hr | Hc]; [left | right]; apply B; assumption.
Qed.

Lemma forward_mask_must_fit_witness :
  MaskedMultiHeadAttention_forward (attention_of 1 2 (const_attention 1 0) true)
    (rtab 2 (1 * 2) (fun _ _ => 1)) (rtab 2 (1 * 2) (fun _ _ => 1))
    (rtab 2 (1 * 2) (fun _ _ => 1)) (Some (tril 3)) keep_all
  = None.
Proof.
  apply forward_mask_must_fit; [lia | lia |]. left. cbn. lia.
Defined.

Lemma forward_entry_query_ext H hd w t vis g nq nk (q q' k v : nat -> nat -> float) i c :
  (forall e, (e < H * hd)%nat -> q i e = q' i e) ->
  forward_entry H hd w t vis g nq nk q k v i c
  = forward_entry H hd w t vis g nq nk q' k v i c.
Proof.
  intros Hq. unfold forward_entry. apply linear_entry_ext. intros e He.
  apply head_entry_plain_ext; try reflexivity.
  intros u Hu. unfold head_block. apply linear_entry_ext. exact Hq.
Qed.

(** X10: query positions do not interact: row [i] of the output of
    [MaskedMultiHeadAttention.forward] depends on the query only through
    its row [i] (same key, value, mask, parameters, mode and dropout
    decisions). *)
Theorem forward_query_rows H hd w t nq nk (qf qf' kf vf : nat -> nat -> R) mask g i :
  (0 < H)%nat -> (0 < hd)%nat -> (i < nq)%nat ->
  (forall c, (c < H * hd)%nat -> qf i c = qf' i c) ->
  exists out out' g1,
    MaskedMultiHeadAttention_forward (attention_of H hd w t)
      (rtab nq (H * hd) qf) (rtab nk (H * hd) kf) (rtab nk (H * hd) vf)
      (option_map (tab nq nk) mask) g = Some (out, g1) /\
    MaskedMultiHeadAttention_forward (attention_of H hd w t)
      (rtab nq (H * hd) qf') (rtab nk (H * hd) kf) (rtab nk (H * hd) vf)
      (option_map (tab nq nk) mask) g = Some (out', g1) /\
    row out i = row out' i.
Proof.
  intros HH Hhd Hi Hq. unfold rtab.
  pose proof (@forward_tab H hd w t HH Hhd nq nk (fun i c => Fin (qf i c))
                (fun i c => Fin (kf i c)) (fun i c => Fin (vf i c)) mask g) as E.
  pose proof (@forward_tab H hd w t HH Hhd nq nk (fun i c => Fin (qf' i c))
                (fun i c => Fin (kf i c)) (fun i c => Fin (vf i c)) mask g) as E'.
  eexists _, _, _. split; [exact E|]. split; [exact E'|].
  rewrite !row_tab by exact Hi.
  apply map_seq_ext. intros c Hc.
  apply forward_entry_query_ext. intros e He. rewrite (Hq e He). reflexivity.
Qed.

Lemma forward_query_rows_witness :
  exists out out' g1,
    MaskedMultiHeadAttention_forward (attention_of 2 1 (const_attention 1 0) true)
      (rtab 2 (2 * 1) (fun _ _ => 1)) (rtab 2 (2 * 1) (fun _ _ => 1))
      (rtab 2 (2 * 1) (fun _ _ => 1)) (option_map (tab 2 2) None) keep_all
    = Some (out, g1) /\
    MaskedMultiHeadAttention_forward (attention_of 2 1 (const_attention 1 0) true)
      (rtab 2 (2 * 1) (fun i _ => if (i =? 0)%nat then 1 else 4))
      (rtab 2 (2 * 1) (fun _ _ => 1))
      (rtab 2 (2 * 1) (fun _ _ => 1)) (option_map (tab 2 2) None) keep_all
    = Some (out', g1) /\
    row out 0 = row out' 0.
Proof.
  apply (@forward_query_rows 2 1 (const_attention 1 0) true 2 2
           (fun _ _ => 1) (fun i _ => if (i =? 0)%nat then 1 else 4)
           (fun _ _ => 1) (fun _ _ => 1) None keep_all 0%nat); try lia.
  intros c _. reflexivity.
Defined.

(** ** [PositionalEncoding]: when it is defined, what the table holds *)

(** X11: constructing a [PositionalEncoding] succeeds exactly when [max_len] is
    not negative, [d_model] is positive and even (or 1), and the base [l]
    is positive: a negative size, [d_model = 0], [l <= 0] and an odd
    [d_model >= 3] all raise. *)
Theorem PositionalEncoding_init_defined (d max_len : Z) (l : R) :
  (exists pe, PositionalEncoding_init d max_len l = Some pe) <->
  (0 <= max_len)%Z /\ (0 < d)%Z /\ 0 < l /\ (Z.even d = true \/ d = 1%Z).
Proof.
  split.
  - intros [pe Hinit]. exact (@PositionalEncoding_init_Some _ _ _ _ Hinit).
  - intros (Hm & Hd & Hl & Hev). eexists.
    apply PositionalEncoding_init_tab; assumption.
Qed.

(** X12: [PositionalEncoding.forward(x)] returns exactly when the two shapes can
    be broadcast: the sequence is not longer than the table (or one of the
    two lengths is 1), and [x] has the width of the table (or one of the
    two widths is 1); otherwise it raises. *)
Theorem PositionalEncoding_forward_defined pe (x : Tensor float) :
  (exists y, PositionalEncoding_forward pe x = Some y) <->
  ((nrows x <= nrows (encoding pe))%nat \/ nrows (encoding pe) = 1%nat \/
   nrows x = 1%nat) /\
  (ncols x = ncols (encoding pe) \/ ncols x = 1%nat \/ ncols (encoding pe) = 1%nat).
Proof.
  split.
  - intros [y Hy]. unfold PositionalEncoding_forward in Hy.
    apply add_Some in Hy. unfold first_rows in Hy. cbn [nrows ncols tab] in Hy.
    destruct Hy as [Hr Hc]. split; lia.
  - intros [Hr Hc]. unfold PositionalEncoding_forward, add, broadcast2, first_rows.
    cbn [nrows ncols tab].
    assert (B : forall a b, a = b \/ a = 1%nat \/ b = 1%nat ->
                            exists n, bsize a b = Some n).
    { intros a b [-> | [-> | ->]]; eexists;
        [apply bsize_refl | apply bsize_1r | apply bsize_l1]. }
    destruct (B (nrows x) (Nat.min (nrows x) (nrows (encoding pe)))) as [n ->]; [lia|].
    destruct (B (ncols x) (ncols (encoding pe))) as [k ->]; [lia|].
    eexists. reflexivity.
Qed.



(** X14: the table does not depend on [max_len]: two encodings constructed with
    the same [d_model] and base agree on every input that fits both. *)
Theorem encoding_independent_of_max_len (d m1 m2 : Z) (l : R) pe1 pe2
    (x : Tensor float) :
  PositionalEncoding_init d m1 l = Some pe1 ->
  PositionalEncoding_init d m2 l = Some pe2 ->
  (nrows x <= Z.to_nat m1)%nat -> (nrows x <= Z.to_nat m2)%nat ->
  PositionalEncoding_forward pe1 x = PositionalEncoding_forward pe2 x.
Proof.
  intros H1 H2 Hr1 Hr2.
  pose proof (@PositionalEncoding_init_Some _ _ _ _ H1) as (Hm1 & Hd & Hl & Hev).
  pose proof (@PositionalEncoding_init_Some _ _ _ _ H2) as (Hm2 & _).
  rewrite (PositionalEncoding_init_tab Hm1 Hd Hl Hev) in H1.
  rewrite (PositionalEncoding_init_tab Hm2 Hd Hl Hev) in H2.
  injection H1 as <-. injection H2 as <-.
  unfold PositionalEncoding_forward. cbn [encoding].
  rewrite !first_rows_tab by assumption. reflexivity.
Qed.

Lemma encoding_independent_of_max_len_witness :
  exists pe1 pe2,
    PositionalEncoding_init 2 5 default_l = Some pe1 /\
    PositionalEncoding_init 2 default_max_len default_l = Some pe2 /\
    PositionalEncoding_forward pe1 (rtab 3 2 (fun _ _ => 1))
    = PositionalEncoding_forward pe2 (rtab 3 2 (fun _ _ => 1)).
Proof.
  assert (E1 : PositionalEncoding_init 2 5 default_l
               = Some (mkPositionalEncoding
                         (tab (Z.to_nat 5) (Z.to_nat 2) (pe_entry default_l 2)))).
  { apply PositionalEncoding_init_tab;
      [lia | lia | exact default_l_pos | left; reflexivity]. }
  assert (E2 : PositionalEncoding_init 2 default_max_len default_l
               = Some (mkPositionalEncoding
                         (tab (Z.to_nat default_max_len) (Z.to_nat 2)
                            (pe_entry default_l 2)))).
  { apply PositionalEncoding_init_tab;
      [unfold default_max_len; lia | lia | exact default_l_pos | left; reflexivity]. }
  eexists _, _. split; [exact E1|]. split; [exact E2|].
  apply (@encoding_independent_of_max_len 2 5 default_max_len default_l _ _
           (rtab 3 2 (fun _ _ => 1)) E1 E2);
    [simpl; lia | unfold default_max_len; simpl; lia].
Defined.

(** ** Attention along the first axis *)

Lemma linear_formula_ext n w x x' r c :
  (forall k, (k < n)%nat -> x r k = x' r k) ->
  linear_formula n w x r c = linear_formula n w x' r c.
Proof.
  intros Hx. unfold linear_formula. f_equal.
  apply rsum_n_ext. intros k Hk. rewrite (Hx k Hk). reflexivity.
Qed.

Lemma attention_single_key (q k v : nat -> nat -> R) d i c :
  attention_formula unmasked q k v 1 d i c = v 0%nat c.
Proof.
  unfold attention_formula, rsum_n, rsum. cbn [seq map fold_right].
  rewrite weight_single. lra.
Qed.

(** X15: [nn.MultiheadAttention] attends along the first axis of its inputs.
    On tensors whose first axis has size 1 (the [(1, seq, d_model)] batch
    the notebook feeds to the transformer) every position has a single key,
    its own.  For inputs and parameters inside the bounds, so that no score
    overflows, every attention weight is 1, and the output is the output
    projection of the value projection of [value]: it does not depend on
    the query or the key. *)
Theorem attention_over_single_entry H hd w N (q k v : nat -> nat -> nat -> R) b :
  (0 < H)%nat -> (0 < hd)%nat ->
  attention_in_range b (H * hd) -> bounded_attention b w ->
  (forall n, (n < N)%nat -> bounded_input b (fun l c => q l n c) 1 (H * hd)) ->
  (forall n, (n < N)%nat -> bounded_input b (fun l c => k l n c) 1 (H * hd)) ->
  (forall n, (n < N)%nat -> bounded_input b (fun l c => v l n c) 1 (H * hd)) ->
  (forall n, (n < N)%nat ->
     exists Ws,
       attention_weights (as_masked (mha_of H hd w))
         (column_plane (rtab3 1 N (H * hd) q) n)
         (column_plane (rtab3 1 N (H * hd) k) n)
         (column_plane (rtab3 1 N (H * hd) v) n) None = Some Ws /\
       length Ws = H /\
       forall h, (h < H)%nat -> nth h Ws no_tensor = rtab 1 1 (fun _ _ => 1)) /\
  MultiheadAttention_forward (mha_of H hd w)
    (rtab3 1 N (H * hd) q) (rtab3 1 N (H * hd) k) (rtab3 1 N (H * hd) v)
  = Some (rtab3 1 N (H * hd)
            (fun _ n e =>
               linear_formula (H * hd) (init_out w)
                 (linear_formula (H * hd) (init_v w) (fun _ c => v 0%nat n c))
                 0 e)).
Proof.
  intros HH Hhd Hr Hw Hq Hk Hv. split.
  - intros n Hn. rewrite (as_masked_of hd w HH). unfold rtab3.
    rewrite !column_plane_tab3 by exact Hn.
    pose proof (@attention_weights_rtab H hd w false HH Hhd 1 1
                  (fun l c => q l n c) (fun l c => k l n c) (fun l c => v l n c)
                  None b Hr Hw (Hq n Hn) (Hk n Hn)) as E.
    cbn [option_map visibility] in E. unfold rtab in E.
    eexists. split; [exact E|]. split; [rewrite length_map; apply length_seq|].
    intros h Hh. rewrite (nth_map_seq _ _ Hh). apply tab_ext.
    intros i j Hi Hj. rewrite row_visible_unmasked.
    replace j with 0%nat by lia. rewrite weight_single. reflexivity.
  - unfold rtab3. rewrite MultiheadAttention_forward_tab3 by assumption.
    f_equal. apply tab3_ext. intros l n e Hl Hn He.
    replace l with 0%nat by lia.
    pose proof (@forward_tab H hd w false HH Hhd 1 1
                  (fun l c => Fin (q l n c)) (fun l c => Fin (k l n c))
                  (fun l c => Fin (v l n c)) None no_draws) as E.
    pose proof (@forward_rtab H hd w false HH Hhd 1 1
                  (fun l c => q l n c) (fun l c => k l n c) (fun l c => v l n c)
                  None b Hr Hw (Hq n Hn) (Hk n Hn) (Hv n Hn) no_draws) as E'.
    cbn [option_map visibility] in E, E'. unfold rtab in E'. rewrite E in E'.
    match type of E' with
    | Some (?a, _) = Some (?a', _) => assert (Et : a = a') by congruence
    end.
    apply (f_equal (fun T => fget T 0 e)) in Et.
    rewrite !fget_tab in Et by (assumption || lia).
    rewrite Et, row_visible_unmasked. f_equal.
    apply linear_formula_ext. intros c Hc.
    rewrite dropout_attention_eval, attention_single_key. unfold head_slice.
    replace (c / hd * hd + c mod hd)%nat with c
      by (rewrite (Nat.div_mod_eq c hd) at 1; lia).
    reflexivity.
Qed.

Lemma attention_over_single_entry_witness :
  (forall n, (n < 3)%nat ->
     exists Ws,
       attention_weights (as_masked (mha_of 1 2 (const_attention 1 0)))
         (column_plane (rtab3 1 3 (1 * 2) (fun _ n _ => INR n)) n)
         (column_plane (rtab3 1 3 (1 * 2) (fun _ n _ => INR n)) n)
         (column_plane (rtab3 1 3 (1 * 2) (fun _ _ _ => 1)) n) None = Some Ws /\
       length Ws = 1%nat /\
       forall h, (h < 1)%nat -> nth h Ws no_tensor = rtab 1 1 (fun _ _ => 1)) /\
  MultiheadAttention_forward (mha_of 1 2 (const_attention 1 0))
    (rtab3 1 3 (1 * 2) (fun _ n _ => INR n)) (rtab3 1 3 (1 * 2) (fun _ n _ => INR n))
    (rtab3 1 3 (1 * 2) (fun _ _ _ => 1))
  = Some (rtab3 1 3 (1 * 2)
            (fun _ n e =>
               linear_formula (1 * 2) (init_out (const_attention 1 0))
                 (linear_formula (1 * 2) (init_v (const_attention 1 0))
                    (fun _ c => 1))
                 0 e)).
Proof.
  assert (Hn : forall n, (n < 3)%nat ->
                 bounded_input 2 (fun (_ : nat) (_ : nat) => INR n) 1 (1 * 2)).
  { intros n Hn i c _ _. rewrite Rabs_pos_eq by apply pos_INR.
    apply (le_INR n 2). lia. }
  apply (@attention_over_single_entry 1 2 (const_attention 1 0) 3
           (fun _ n _ => INR n) (fun _ n _ => INR n) (fun _ _ _ => 1) 2);
    try lia; try exact Hn.
  - apply attention_in_range_small; [lra | lia].
  - apply (@bounded_const_attention 1 0 2);
      [rewrite Rabs_pos_eq; lra | rewrite Rabs_R0; lra].
  - intros n _. apply (@bounded_const_input 1 2 1 (1 * 2)).
    rewrite Rabs_pos_eq; lra.
Defined.

(** X16: the encoder treats the indices of the second axis (the positions of
    [PositionalEncoding]) independently of one another: two real batches
    of the same shape that agree at position [n] give outputs that agree
    at position [n], for the same parameters, mode and dropout decisions.
    Its attention runs along the first axis only. *)
Theorem encoder_positions_independent H hd M tbl ls B S
    (x x' : nat -> nat -> nat -> R) g n :
  (0 < H)%nat -> (0 < hd)%nat -> Forall (real_block H hd) ls ->
  (S <= M)%nat -> (n < S)%nat ->
  (forall b c, (b < B)%nat -> (c < H * hd)%nat -> x b n c = x' b n c) ->
  exists out out' g',
    TransformerEncoder_forward
      (mkTransformerEncoder (mkPositionalEncoding (rtab M (H * hd) tbl)) ls)
      (rtab3 B S (H * hd) x) g = Some (out, g') /\
    TransformerEncoder_forward
      (mkTransformerEncoder (mkPositionalEncoding (rtab M (H * hd) tbl)) ls)
      (rtab3 B S (H * hd) x') g = Some (out', g') /\
    column_plane out n = column_plane out' n.
Proof.
  intros HH Hhd Hls HS Hn Hx. unfold TransformerEncoder_forward, bind, lift.
  cbn [encoder_positional_encoding layers]. unfold rtab, rtab3.
  rewrite !PositionalEncoding_forward3_tab3 by exact HS.
  destruct (@encoder_layers_local H hd ls B S n HH Hhd Hls
              (fun b i c => fadd (Fin (x b i c)) (Fin (tbl i c)))
              (fun b i c => fadd (Fin (x' b i c)) (Fin (tbl i c))) g)
    as (z & z' & g' & E & E' & Hz).
  { intros b c Hb Hc. rewrite (Hx b c Hb Hc). reflexivity. }
  exists (tab3 B S (H * hd) z), (tab3 B S (H * hd) z'), g'.
  split; [exact E|]. split; [exact E'|].
  rewrite !column_plane_tab3 by exact Hn.
  apply tab_ext. intros b c Hb Hc. apply Hz; assumption.
Qed.

Lemma encoder_positions_independent_witness :
  exists out out' g',
    TransformerEncoder_forward (mkTransformerEncoder sample_table [sample_block])
      (rtab3 1 2 (1 * 2) (fun _ _ _ => 1)) keep_all
    = Some (out, g') /\
    TransformerEncoder_forward (mkTransformerEncoder sample_table [sample_block])
      (rtab3 1 2 (1 * 2) (fun _ i _ => if (i =? 0)%nat then 1 else 7)) keep_all
    = Some (out', g') /\
    column_plane out 0 = column_plane out' 0.
Proof.
  apply (@encoder_positions_independent 1 2 (Z.to_nat default_max_len)
           (pe_table default_l 2) [sample_block] 1 2
           (fun _ _ _ => 1) (fun _ i _ => if (i =? 0)%nat then 1 else 7)
           keep_all 0%nat); try lia.
  - constructor; [|constructor]. apply real_block_intro.
  - unfold default_max_len. lia.
  - intros b c _ _. reflexivity.
Defined.

(** ** What the constructors return *)

Lemma mapM_Forall {A B} (f : A -> option B) (P : B -> Prop) l :
  (forall a b, f a = Some b -> P b) ->
  forall ls, mapM f l = Some ls -> Forall P ls /\ length ls = length l.
Proof.
  intros HP. induction l as [|a l IH]; intros ls E; cbn [mapM] in E.
  - injection E as <-. split; [constructor | reflexivity].
  - destruct (f a) as [b|] eqn:Ea; [|discriminate].
    destruct (mapM f l) as [bs|]; [|discriminate].
    injection E as <-. destruct (IH bs eq_refl) as [HF HL].
    split; [constructor; [exact (HP a b Ea) | exact HF] | simpl; congruence].
Qed.

(** The sizes for which [nn.MultiheadAttention] can be constructed. *)
Lemma head_sizes (d nhead : Z) :
  (0 < d)%Z -> (0 < nhead)%Z -> (d / nhead * nhead = d)%Z ->
  (0 < Z.to_nat nhead)%nat /\ (0 < Z.to_nat (d / nhead))%nat /\
  Z.to_nat d = (Z.to_nat nhead * Z.to_nat (d / nhead))%nat.
Proof.
  intros Hd Hn Hmul.
  assert (Hq : (0 < d / nhead)%Z) by nia.
  split; [lia|]. split; [lia|].
  rewrite <- Z2Nat.inj_mul by lia. f_equal. lia.
Qed.

Lemma MultiheadAttention_init_of d nhead w A :
  MultiheadAttention_init d nhead w = Some A ->
  (0 < d)%Z /\ (0 < nhead)%Z /\ (d / nhead * nhead = d)%Z /\
  A = mha_of (Z.to_nat nhead) (Z.to_nat (d / nhead)) w.
Proof.
  unfold MultiheadAttention_init.
  destruct ((d <=? 0) || (nhead <=? 0))%Z eqn:E0; [discriminate|].
  apply orb_false_iff in E0. destruct E0 as [Ed En].
  apply Z.leb_gt in Ed, En.
  destruct (d / nhead * nhead =? d)%Z eqn:E1; [|discriminate].
  apply Z.eqb_eq in E1. cbn [negb].
  destruct (Linear_init d d (init_q w)) as [ql|] eqn:Eq; [|discriminate].
  destruct (Linear_init d d (init_k w)) as [kl|] eqn:Ek; [|discriminate].
  destruct (Linear_init d d (init_v w)) as [vl|] eqn:Ev; [|discriminate].
  destruct (Linear_init d d (init_out w)) as [ol|] eqn:Eo; [|discriminate].
  apply Linear_init_of in Eq, Ek, Ev, Eo.
  destruct Eq as (_ & _ & ->), Ek as (_ & _ & ->), Ev as (_ & _ & ->),
           Eo as (_ & _ & ->).
  intros E. injection E as <-. repeat split; try assumption.
  destruct (head_sizes Ed En E1) as (_ & _ & HD).
  unfold mha_of. rewrite <- HD. f_equal; lia.
Qed.

Lemma LayerNorm_init_of d N :
  LayerNorm_init d = Some N -> N = mkLayerNorm (Z.to_nat d) ones zeroes.
Proof.
  unfold LayerNorm_init. destruct (0 <=? d)%Z; [|discriminate].
  intros E. injection E as <-. reflexivity.
Qed.

Lemma TransformerBlock_init_of d nhead dff w T :
  TransformerBlock_init d nhead dff w = Some T ->
  (0 < d)%Z /\ (0 < nhead)%Z /\ (d / nhead * nhead = d)%Z /\ (0 <= dff)%Z /\
  T = block_of (Z.to_nat nhead) (Z.to_nat (d / nhead)) (Z.to_nat dff) w
        ones zeroes ones zeroes true.
Proof.
  unfold TransformerBlock_init.
  destruct (MultiheadAttention_init d nhead (init_attention w)) as [a|] eqn:Ea;
    [|discriminate].
  destruct (Linear_init d dff (init_ffn_in w)) as [f1|] eqn:E1; [|discriminate].
  destruct (Linear_init dff d (init_ffn_out w)) as [f2|] eqn:E2; [|discriminate].
  destruct (LayerNorm_init d) as [n1|] eqn:En1; [|discriminate].
  apply MultiheadAttention_init_of in Ea. destruct Ea as (Hd & Hn & Hmul & ->).
  apply Linear_init_of in E1, E2.
  destruct E1 as (_ & Hdff & ->), E2 as (_ & _ & ->).
  apply LayerNorm_init_of in En1. subst n1.
  intros E. injection E as <-.
  split; [exact Hd|]. split; [exact Hn|]. split; [exact Hmul|]. split; [exact Hdff|].
  destruct (head_sizes Hd Hn Hmul) as (_ & _ & HD).
  unfold block_of. rewrite <- HD. reflexivity.
Qed.

Lemma TransformerBlock_init_real d nhead dff w T :
  TransformerBlock_init d nhead dff w = Some T ->
  (0 < Z.to_nat nhead)%nat /\ (0 < Z.to_nat (d / nhead))%nat /\
  Z.to_nat d = (Z.to_nat nhead * Z.to_nat (d / nhead))%nat /\
  real_block (Z.to_nat nhead) (Z.to_nat (d / nhead)) T.
Proof.
  intros E. apply TransformerBlock_init_of in E.
  destruct E as (Hd & Hn & Hmul & _ & ->).
  destruct (head_sizes Hd Hn Hmul) as (HH & Hhd & HD).
  split; [exact HH|]. split; [exact Hhd|]. split; [exact HD|].
  apply real_block_intro.
Qed.

(** Whatever [TransformerEncoder.__init__] returns is a table of 5000
    positions and a list of blocks of one and the same width. *)
Lemma TransformerEncoder_init_of d nhead num_layers dff w E :
  TransformerEncoder_init d nhead num_layers dff w = Some E ->
  exists H hd ls,
    (0 < H)%nat /\ (0 < hd)%nat /\ Z.to_nat d = (H * hd)%nat /\
    Forall (real_block H hd) ls /\
    (ls <> [] -> H = Z.to_nat nhead /\ hd = Z.to_nat (d / nhead)) /\
    length ls = Z.to_nat num_layers /\
    E = mkTransformerEncoder
          (mkPositionalEncoding
             (rtab (Z.to_nat default_max_len) (H * hd) (pe_table default_l d)))
          ls.
Proof.
  unfold TransformerEncoder_init.
  destruct (PositionalEncoding_init d default_max_len default_l) as [pe|] eqn:Epe;
    [|discriminate].
  destruct (mapM _ _) as [ls|] eqn:Els; [|discriminate].
  intros E0. injection E0 as <-.
  pose proof (@PositionalEncoding_init_Some _ _ _ _ Epe) as (Hm & Hd & Hl & Hev).
  rewrite (default_table_constructed Hd Hev) in Epe. injection Epe as <-.
  destruct (@mapM_Forall _ _
              (fun k => TransformerBlock_init d nhead dff (w k))
              (fun T => (0 < Z.to_nat nhead)%nat /\ (0 < Z.to_nat (d / nhead))%nat /\
                        Z.to_nat d = (Z.to_nat nhead * Z.to_nat (d / nhead))%nat /\
                        real_block (Z.to_nat nhead) (Z.to_nat (d / nhead)) T)
              (seq 0 (Z.to_nat num_layers))
              (fun k T => @TransformerBlock_init_real d nhead dff (w k) T)
              ls Els) as [HF HL].
  rewrite length_seq in HL.
  destruct ls as [|T ls].
  - exists 1%nat, (Z.to_nat d), [].
    split; [lia|]. split; [lia|]. split; [lia|]. split; [constructor|].
    split; [intros Hne; contradiction|]. split; [exact HL|].
    rewrite Nat.mul_1_l. reflexivity.
  - inversion HF as [|? ? (HH & Hhd & HD & _) _]; subst.
    exists (Z.to_nat nhead), (Z.to_nat (d / nhead)), (T :: ls).
    split; [exact HH|]. split; [exact Hhd|]. split; [exact HD|].
    split; [eapply Forall_impl; [|exact HF]; intros T' (_ & _ & _ & HT); exact HT|].
    split; [intros _; split; reflexivity|]. split; [exact HL|].
    rewrite <- HD. reflexivity.
Qed.

(** X17: constructor and [forward] fit together: whatever
    [TransformerEncoder(d_model, nhead, num_layers, dim_feedforward)]
    returns, its [forward] accepts every batch of real numbers of width
    [d_model] with at most 5000 positions and returns a batch of the same
    shape; on a batch with more than 5000 positions it raises. *)
Theorem TransformerEncoder_forward_defined d nhead num_layers dff w E B S
    (x : nat -> nat -> nat -> R) g :
  TransformerEncoder_init d nhead num_layers dff w = Some E ->
  ((S <= Z.to_nat default_max_len)%nat ->
   exists (z : nat -> nat -> nat -> float) g',
     TransformerEncoder_forward E (rtab3 B S (Z.to_nat d) x) g
     = Some (tab3 B S (Z.to_nat d) z, g')) /\
  ((Z.to_nat default_max_len < S)%nat ->
   TransformerEncoder_forward E (rtab3 B S (Z.to_nat d) x) g = None).
Proof.
  intros HE. apply TransformerEncoder_init_of in HE.
  destruct HE as (H & hd & ls & HH & Hhd & HD & Hls & _ & _ & ->).
  rewrite HD. unfold rtab, rtab3. split.
  - intros HS. apply TransformerEncoder_forward_tab3; assumption.
  - intros HS. unfold TransformerEncoder_forward, bind, lift.
    cbn [encoder_positional_encoding].
    rewrite PositionalEncoding_forward3_too_long;
      [reflexivity | exact HS | unfold default_max_len; lia].
Qed.

Lemma sample_encoder_constructed :
  TransformerEncoder_init 2 1 1 1 (fun _ => sample_block_init)
  = Some (mkTransformerEncoder sample_table [sample_block]).
Proof.
  unfold TransformerEncoder_init.
  rewrite (@default_table_constructed 2 ltac:(lia) (or_introl eq_refl)).
  reflexivity.
Qed.

Lemma TransformerEncoder_forward_defined_witness :
  exists (z : nat -> nat -> nat -> float) g',
    TransformerEncoder_forward (mkTransformerEncoder sample_table [sample_block])
      (rtab3 1 2 (Z.to_nat 2) (fun _ _ _ => 1)) keep_all
    = Some (tab3 1 2 (Z.to_nat 2) z, g').
Proof.
  apply (proj1 (@TransformerEncoder_forward_defined 2 1 1 1 _ _ 1 2
                  (fun _ _ _ => 1) keep_all sample_encoder_constructed)).
  unfold default_max_len. lia.
Defined.

(** ** [Transformer]: constructor and [forward] *)

Lemma MaskedMultiHeadAttention_init_of d nhead w M :
  (0 < d)%Z -> (0 < nhead)%Z -> (d / nhead * nhead = d)%Z ->
  MaskedMultiHeadAttention_init d nhead w = Some M ->
  M = attention_of (Z.to_nat nhead) (Z.to_nat (d / nhead)) w true.
Proof.
  intros Hd Hn Hmul HM. apply MaskedMultiHeadAttention_init_Some in HM.
  destruct HM as (_ & _ & _ & ->).
  destruct (head_sizes Hd Hn Hmul) as (HH & Hhd & HD).
  unfold attention_of. rewrite <- HD. f_equal; lia.
Qed.

Lemma DecoderBlock_init_causal d nhead dff S w D :
  DecoderBlock_init d nhead dff (Some (tril S)) w = Some D ->
  causal_decoder (Z.to_nat nhead) (Z.to_nat (d / nhead)) S D.
Proof.
  unfold DecoderBlock_init.
  destruct (MaskedMultiHeadAttention_init d nhead (init_masked_attn w)) as [m|] eqn:Em;
    [|discriminate].
  destruct (TransformerBlock_init d nhead dff (init_block w)) as [tb|] eqn:Etb;
    [|discriminate].
  destruct (LayerNorm_init d) as [n|] eqn:En; [|discriminate].
  intros E. injection E as <-.
  pose proof (TransformerBlock_init_of _ _ _ _ Etb) as (Hd & Hn & Hmul & _ & _).
  apply TransformerBlock_init_real in Etb. destruct Etb as (_ & _ & HD & HT).
  apply (MaskedMultiHeadAttention_init_of _ Hd Hn Hmul) in Em. subst m.
  apply LayerNorm_init_of in En. subst n. rewrite HD.
  apply causal_decoder_intro. exact HT.
Qed.

(** Whatever [Transformer.__init__] returns with the causal mask for [S]
    positions: an encoder, a table, decoder blocks with that mask, and a
    final linear layer, all of one width. *)
Lemma Transformer_init_of d nhead num_layers dff dout S w T :
  Transformer_init d nhead num_layers dff dout (Some (tril S)) w = Some T ->
  exists H hd els dls,
    (0 < H)%nat /\ (0 < hd)%nat /\ Z.to_nat d = (H * hd)%nat /\
    Forall (real_block H hd) els /\ Forall (causal_decoder H hd S) dls /\
    T = mkTransformer
          (mkTransformerEncoder
             (mkPositionalEncoding
                (rtab (Z.to_nat default_max_len) (H * hd) (pe_table default_l d)))
             els)
          (mkPositionalEncoding
             (rtab (Z.to_nat default_max_len) (H * hd) (pe_table default_l d)))
          dls (linear_of (H * hd) (Z.to_nat dout) (init_ffn w)).
Proof.
  unfold Transformer_init.
  destruct (TransformerEncoder_init d nhead num_layers dff (init_encoder w))
    as [e|] eqn:Ee; [|discriminate].
  destruct (PositionalEncoding_init d default_max_len default_l) as [pe|] eqn:Epe;
    [|discriminate].
  destruct (mapM _ _) as [dls|] eqn:Edls; [|discriminate].
  destruct (Linear_init d dout (init_ffn w)) as [f|] eqn:Ef; [|discriminate].
  intros E0. injection E0 as <-.
  apply TransformerEncoder_init_of in Ee.
  destruct Ee as (H & hd & els & HH & Hhd & HD & Hels & Hsizes & Hlen & ->).
  pose proof (@PositionalEncoding_init_Some _ _ _ _ Epe) as (Hm & Hd & Hl & Hev).
  rewrite (default_table_constructed Hd Hev) in Epe. injection Epe as <-.
  apply Linear_init_of in Ef. destruct Ef as (_ & _ & ->).
  destruct (@mapM_Forall _ _
              (fun k => DecoderBlock_init d nhead dff (Some (tril S)) (init_decoder w k))
              (causal_decoder (Z.to_nat nhead) (Z.to_nat (d / nhead)) S)
              (seq 0 (Z.to_nat num_layers))
              (fun k D => @DecoderBlock_init_causal d nhead dff S (init_decoder w k) D)
              dls Edls) as [HF HL].
  rewrite length_seq in HL.
  exists H, hd, els, dls.
  split; [exact HH|]. split; [exact Hhd|]. split; [exact HD|]. split; [exact Hels|].
  split.
  - destruct els as [|T0 els].
    + destruct dls; [constructor | simpl in *; lia].
    + destruct Hsizes as [-> ->]; [discriminate | exact HF].
  - rewrite HD. reflexivity.
Qed.

Lemma relu_not_negative a : not_negative (relu_elt a).
Proof.
  destruct a as [x| | |]; cbn [relu_elt not_negative];
    [apply Rmax_l | exact I | apply Rle_refl | exact I].
Qed.

(** X19: constructor and [forward] fit together: a transformer constructed with
    the causal mask [tril(S)] accepts every batch of real numbers of at
    least one sequence of [S <= 5000] positions and width [d_model]; it
    returns a batch of shape [(batch, S, dim_out)] whose entries, coming
    out of the final ReLU, are never negative: each of them is a real
    number that is at least 0, or [+inf], or NaN. *)
Theorem Transformer_forward_nonnegative d nhead num_layers dff dout S w T B
    (x : nat -> nat -> nat -> R) g :
  Transformer_init d nhead num_layers dff dout (Some (tril S)) w = Some T ->
  (0 < B)%nat -> (S <= Z.to_nat default_max_len)%nat ->
  exists (y : nat -> nat -> nat -> float) g',
    Transformer_forward T (rtab3 B S (Z.to_nat d) x) g
    = Some (tab3 B S (Z.to_nat dout) y, g') /\
    forall b i c, not_negative (y b i c).
Proof.
  intros HT HB HS. apply Transformer_init_of in HT.
  destruct HT as (H & hd & els & dls & HH & Hhd & HD & Hels & Hdls & ->).
  rewrite HD. unfold Transformer_forward, bind, lift, ret.
  cbn [encoder positional_encoding decoder]. unfold rtab, rtab3.
  destruct (@TransformerEncoder_forward_tab3 H hd (Z.to_nat default_max_len)
              (fun i c => Fin (pe_table default_l d i c)) els B S
              (fun b i c => Fin (x b i c)) g HH Hhd Hels HS) as [e [g1 ->]].
  rewrite PositionalEncoding_forward3_tab3 by exact HS.
  destruct (@decoder_layers_tab3 H hd S dls B e HH Hhd HB Hdls
              (fun b i c => fadd (e b i c) (Fin (pe_table default_l d i c))) g1)
    as [o [g2 ->]].
  rewrite Transformer_ffn_tab3.
  eexists _, _. split; [reflexivity|].
  intros b i c. apply relu_not_negative.
Qed.

Lemma Transformer_forward_nonnegative_witness :
  exists (y : nat -> nat -> nat -> float) g',
    Transformer_forward (sample_transformer 2) (rtab3 1 2 (Z.to_nat 2) (fun _ _ _ => 1))
      keep_all
    = Some (tab3 1 2 (Z.to_nat 1) y, g') /\
    forall b i c, not_negative (y b i c).
Proof.
  apply (@Transformer_forward_nonnegative 2 1 1 1 1 2 sample_transformer_init
           (sample_transformer 2) 1 (fun _ _ _ => 1) keep_all
           (sample_transformer_constructed 2)); [lia|].
  unfold default_max_len. lia.
Defined.

(** ** Which sizes the constructors accept *)

Lemma mapM_total {A B} (f : A -> option B) (l : list A) :
  (forall a, In a l -> exists b, f a = Some b) -> exists bs, mapM f l = Some bs.
Proof.
  induction l as [|a l IH]; intros H; cbn [mapM]; [eexists; reflexivity|].
  destruct (H a (or_introl eq_refl)) as [b ->].
  destruct IH as [bs ->]; [intros a' Ha'; apply H; right; exact Ha'|].
  eexists. reflexivity.
Qed.

Lemma divisible_div_mul (d nhead : Z) :
  (0 < nhead)%Z -> ((d / nhead * nhead = d)%Z <-> (d mod nhead = 0)%Z).
Proof.
  intros Hn. pose proof (Z.div_mod d nhead ltac:(lia)). lia.
Qed.

Lemma TransformerBlock_init_ok d nhead dff w :
  (0 < d)%Z -> (0 < nhead)%Z -> (d mod nhead = 0)%Z -> (0 <= dff)%Z ->
  exists T, TransformerBlock_init d nhead dff w = Some T.
Proof.
  intros Hd Hn Hdiv Hdff.
  unfold TransformerBlock_init, MultiheadAttention_init, Linear_init, LayerNorm_init.
  replace ((d <=? 0)%Z) with false by (symmetry; apply Z.leb_gt; lia).
  replace ((nhead <=? 0)%Z) with false by (symmetry; apply Z.leb_gt; lia).
  replace ((d / nhead * nhead =? d)%Z) with true
    by (symmetry; apply Z.eqb_eq, divisible_div_mul; assumption).
  replace ((0 <=? d)%Z) with true by (symmetry; apply Z.leb_le; lia).
  replace ((0 <=? dff)%Z) with true by (symmetry; apply Z.leb_le; lia).
  cbn [orb negb andb]. eexists. reflexivity.
Qed.

Lemma DecoderBlock_init_ok d nhead dff mask w :
  (0 < d)%Z -> (0 < nhead)%Z -> (d mod nhead = 0)%Z -> (0 <= dff)%Z ->
  exists D, DecoderBlock_init d nhead dff mask w = Some D.
Proof.
  intros Hd Hn Hdiv Hdff. unfold DecoderBlock_init.
  destruct (@MaskedMultiHeadAttention_init_ok d nhead (init_masked_attn w))
    as [m ->]; [lia | exact Hdiv | lia |].
  destruct (@TransformerBlock_init_ok d nhead dff (init_block w) Hd Hn Hdiv Hdff)
    as [tb ->].
  unfold LayerNorm_init.
  replace ((0 <=? d)%Z) with true by (symmetry; apply Z.leb_le; lia).
  eexists. reflexivity.
Qed.

(** X20: which hyperparameters [Transformer(d_model, nhead, num_layers,
    dim_feedforward, dim_out, mask)] accepts: [d_model] positive and even
    (or 1), [dim_out] not negative and, when there is at least one layer,
    [nhead] positive and dividing [d_model], and [dim_feedforward] not
    negative.  Everything else raises in one of the constructors. *)
Theorem Transformer_init_defined d nhead num_layers dff dout mask w :
  (exists T, Transformer_init d nhead num_layers dff dout mask w = Some T) <->
  (0 < d)%Z /\ (Z.even d = true \/ d = 1%Z) /\ (0 <= dout)%Z /\
  ((0 < num_layers)%Z ->
   (0 < nhead)%Z /\ (d mod nhead = 0)%Z /\ (0 <= dff)%Z).
Proof.
  split.
  - intros [T HT]. unfold Transformer_init in HT.
    destruct (TransformerEncoder_init d nhead num_layers dff (init_encoder w))
      as [e|] eqn:Ee; [|discriminate].
    destruct (PositionalEncoding_init d default_max_len default_l) as [pe|] eqn:Epe;
      [|discriminate].
    destruct (mapM _ _) as [dls|] eqn:Edls; [|discriminate].
    destruct (Linear_init d dout (init_ffn w)) as [f|] eqn:Ef; [|discriminate].
    pose proof (@PositionalEncoding_init_Some _ _ _ _ Epe) as (_ & Hd & _ & Hev).
    apply Linear_init_of in Ef. destruct Ef as (_ & Hdout & _).
    split; [exact Hd|]. split; [exact Hev|]. split; [exact Hdout|].
    intros HL. destruct (Z.to_nat num_layers) as [|n] eqn:En; [lia|].
    cbn [seq mapM] in Edls.
    destruct (DecoderBlock_init d nhead dff mask (init_decoder w 0%nat))
      as [D0|] eqn:ED; [|discriminate].
    unfold DecoderBlock_init in ED.
    destruct (MaskedMultiHeadAttention_init _ _ _); [|discriminate].
    destruct (TransformerBlock_init d nhead dff (init_block (init_decoder w 0%nat)))
      as [tb|] eqn:Etb; [|discriminate].
    apply TransformerBlock_init_of in Etb.
    destruct Etb as (_ & Hn & Hmul & Hdff & _).
    split; [exact Hn|]. split; [apply divisible_div_mul; assumption | exact Hdff].
  - intros (Hd & Hev & Hdout & HL).
    assert (Hpe : PositionalEncoding_init d default_max_len default_l
                  = Some (mkPositionalEncoding
                            (rtab (Z.to_nat default_max_len) (Z.to_nat d)
                               (pe_table default_l d)))).
    { apply default_table_constructed; assumption. }
    assert (Hlayers : forall k : nat, In k (seq 0 (Z.to_nat num_layers)) ->
              (0 < nhead)%Z /\ (d mod nhead = 0)%Z /\ (0 <= dff)%Z).
    { intros k Hk. apply in_seq in Hk. apply HL. lia. }
    unfold Transformer_init, TransformerEncoder_init. rewrite Hpe.
    destruct (@mapM_total _ _
                (fun k => TransformerBlock_init d nhead dff (init_encoder w k))
                (seq 0 (Z.to_nat num_layers))) as [els ->].
    { intros k Hk. destruct (Hlayers k Hk) as (Hn & Hdiv & Hdff).
      apply TransformerBlock_init_ok; assumption. }
    destruct (@mapM_total _ _
                (fun k => DecoderBlock_init d nhead dff mask (init_decoder w k))
                (seq 0 (Z.to_nat num_layers))) as [dls ->].
    { intros k Hk. destruct (Hlayers k Hk) as (Hn & Hdiv & Hdff).
      apply DecoderBlock_init_ok; assumption. }
    unfold Linear_init.
    replace ((0 <=? d)%Z) with true by (symmetry; apply Z.leb_le; lia).
    replace ((0 <=? dout)%Z) with true by (symmetry; apply Z.leb_le; lia).
    cbn [andb]. eexists. reflexivity.
Qed.

(** ** The decoder block is causal *)




(** ** [Transformer.forward]: positions do not interact *)

(** The dropout decisions the decoder loop draws do not depend on the
    data. *)
Lemma decoder_layers_generator H hd S ls B (x x' : nat -> nat -> nat -> float) :
  (0 < H)%nat -> (0 < hd)%nat -> (0 < B)%nat ->
  Forall (causal_decoder H hd S) ls ->
  forall (out out' : nat -> nat -> nat -> float) g,
  exists z z' g',
    decoder_layers ls (tab3 B S (H * hd) out) (tab3 B S (H * hd) x) g
    = Some (tab3 B S (H * hd) z, g') /\
    decoder_layers ls (tab3 B S (H * hd) out') (tab3 B S (H * hd) x') g
    = Some (tab3 B S (H * hd) z', g').
Proof.
  intros HH Hhd HB Hls. induction Hls as [|D ls HD _ IH]; intros out out' g.
  - eexists _, _, _. split; reflexivity.
  - destruct HD as [wm tm T gam bet td HT]. destruct HT as [dff w g1 b1 g2 b2 t].
    cbn [decoder_layers]. unfold bind.
    rewrite !DecoderBlock_forward_tab3 by assumption. apply IH.
Qed.

(** X22: a transformer constructed with the causal mask [tril(S)] treats
    the positions of its input independently of one another: on two real
    batches of the same shape (at least one sequence, [S <= 5000]
    positions, width [d_model]) that agree at position [n],
    [Transformer.forward] returns results that agree at position [n], for
    the same dropout decisions.  Nothing in it attends along the sequence:
    the attention of the encoder runs along the first axis, and the result
    of the decoder is not used. *)
Theorem Transformer_positions_independent d nhead num_layers dff dout S w T B
    (x x' : nat -> nat -> nat -> R) g n :
  Transformer_init d nhead num_layers dff dout (Some (tril S)) w = Some T ->
  (0 < B)%nat -> (S <= Z.to_nat default_max_len)%nat -> (n < S)%nat ->
  (forall b c, (b < B)%nat -> (c < Z.to_nat d)%nat -> x b n c = x' b n c) ->
  exists y y' g',
    Transformer_forward T (rtab3 B S (Z.to_nat d) x) g = Some (y, g') /\
    Transformer_forward T (rtab3 B S (Z.to_nat d) x') g = Some (y', g') /\
    column_plane y n = column_plane y' n.
Proof.
  intros HT HB HS Hn Hx. apply Transformer_init_of in HT.
  destruct HT as (H & hd & els & dls & HH & Hhd & HD & Hels & Hdls & ->).
  rewrite HD in *. unfold Transformer_forward, bind, lift, ret.
  cbn [encoder positional_encoding decoder].
  unfold TransformerEncoder_forward, bind, lift.
  cbn [encoder_positional_encoding layers]. unfold rtab, rtab3.
  rewrite !PositionalEncoding_forward3_tab3 by exact HS.
  destruct (@encoder_layers_local H hd els B S n HH Hhd Hels
              (fun b i c => fadd (Fin (x b i c)) (Fin (pe_table default_l d i c)))
              (fun b i c => fadd (Fin (x' b i c)) (Fin (pe_table default_l d i c))) g)
    as (e & e' & g1 & -> & -> & He).
  { intros b c Hb Hc. rewrite (Hx b c Hb Hc). reflexivity. }
  rewrite !PositionalEncoding_forward3_tab3 by exact HS.
  destruct (@decoder_layers_generator H hd S dls B e e' HH Hhd HB Hdls
              (fun b i c => fadd (e b i c) (Fin (pe_table default_l d i c)))
              (fun b i c => fadd (e' b i c) (Fin (pe_table default_l d i c))) g1)
    as (o & o' & g2 & -> & ->).
  rewrite !Transformer_ffn_tab3.
  eexists _, _, _. split; [reflexivity|]. split; [reflexivity|].
  rewrite !column_plane_tab3 by exact Hn.
  apply tab_ext. intros b c Hb Hc. f_equal.
  apply linear_entry_ext. intros k Hk. apply He; assumption.
Qed.

Lemma Transformer_positions_independent_witness :
  exists y y' g',
    Transformer_forward (sample_transformer 2)
      (rtab3 1 2 (Z.to_nat 2) (fun _ _ _ => 1)) keep_all = Some (y, g') /\
    Transformer_forward (sample_transformer 2)
      (rtab3 1 2 (Z.to_nat 2) (fun _ i _ => if (i =? 0)%nat then 1 else 7)) keep_all
    = Some (y', g') /\
    column_plane y 0 = column_plane y' 0.
Proof.
  apply (@Transformer_positions_independent 2 1 1 1 1 2 sample_transformer_init
           (sample_transformer 2) 1
           (fun _ _ _ => 1) (fun _ i _ => if (i =? 0)%nat then 1 else 7)
           keep_all 0%nat (sample_transformer_constructed 2)); try lia.
  - unfold default_max_len. lia.
  - intros b c _ _. reflexivity.
Defined.

(** ** Tokenisation: truncation and padding *)

(** On a list with at least one text, [tokenize_function] returns the
    encodings of the texts, one by one. *)
Lemma tokenize_function_nonempty (tok : BertTokenizer) (texts : list String.string) :
  texts <> [] ->
  tokenize_function tok texts
  = Some (map (tokenizer_call tok PadMaxLength true 128) texts).
Proof.
  intros Hne. unfold tokenize_function.
  destruct (map (tokenizer_call tok PadMaxLength true 128) texts)
    as [|r rows] eqn:E.
  - destruct texts; [contradiction | discriminate].
  - replace (forallb _ (r :: rows)) with true; [reflexivity|].
    symmetry. apply forallb_forall. intros e He. apply Nat.eqb_eq.
    assert (Hlen : forall e', In e' (r :: rows) -> length (input_ids e') = 128%nat).
    { intros e' He'. rewrite <- E in He'. apply in_map_iff in He'.
      destruct He' as [text [<- _]].
      apply (@tokenizer_call_max_length tok 128 text). lia. }
    rewrite (Hlen e He), (Hlen r (or_introl eq_refl)). reflexivity.
Qed.

(** X23: what [tokenize_function] makes of one text of a list of texts:
    [[CLS]], the first 126 word pieces, [[SEP]], then padding up to 128
    ids; the attention mask is 1 on the ids before the padding and 0 on the
    padding.  A text of at most 126 word pieces keeps all of them; of a
    longer one, everything after the 126th word piece is lost.  (The list
    holds at least one text; on the empty list the tokenizer raises.) *)
Theorem tokenize_function_rows (tok : BertTokenizer) (texts : list String.string) :
  texts <> [] ->
  exists rows,
    tokenize_function tok texts = Some rows /\
    length rows = length texts /\
    forall k text, nth_error texts k = Some text ->
      exists e, nth_error rows k = Some e /\
        let pieces := firstn 126 (wordpiece tok text) in
        let n := length pieces in
        input_ids e
        = cls_token_id tok :: pieces ++ [sep_token_id tok]
          ++ repeat (pad_token_id tok) (126 - n) /\
        attention_mask e = repeat 1%Z (n + 2) ++ repeat 0%Z (126 - n) /\
        ((length (wordpiece tok text) <= 126)%nat -> pieces = wordpiece tok text).
Proof.
  intros Hne.
  exists (map (tokenizer_call tok PadMaxLength true 128) texts).
  split; [|split; [apply length_map|]].
  - apply tokenize_function_nonempty. exact Hne.
  - intros k text Hk. exists (tokenizer_call tok PadMaxLength true 128 text).
    split; [apply map_nth_error; exact Hk|].
    cbv zeta. unfold tokenizer_call. cbn [input_ids attention_mask].
    change (128 - 2)%nat with 126%nat.
    assert (Hn : (length (firstn 126 (wordpiece tok text)) <= 126)%nat)
      by (rewrite length_firstn; lia).
    cbn [length]. rewrite length_app. cbn [length].
    replace (128 - S (length (firstn 126 (wordpiece tok text)) + 1))%nat
      with (126 - length (firstn 126 (wordpiece tok text)))%nat by lia.
    replace (S (length (firstn 126 (wordpiece tok text)) + 1))%nat
      with (length (firstn 126 (wordpiece tok text)) + 2)%nat by lia.
    split; [|split].
    + cbn [app]. rewrite <- app_assoc. reflexivity.
    + reflexivity.
    + intros Hshort. apply firstn_all2. exact Hshort.
Qed.

Lemma tokenize_function_rows_witness :
  exists rows,
    tokenize_function sample_tokenizer [String.EmptyString] = Some rows /\
    length rows = 1%nat /\
    exists e, nth_error rows 0 = Some e /\
      input_ids e = (101 :: [7; 8; 9] ++ [102] ++ repeat 0 123)%Z /\
      attention_mask e = (repeat 1 5 ++ repeat 0 123)%Z.
Proof.
  destruct (@tokenize_function_rows sample_tokenizer [String.EmptyString])
    as (rows & Htok & Hlen & Hrows); [discriminate|].
  exists rows. split; [exact Htok|]. split; [exact Hlen|].
  destruct (Hrows 0%nat String.EmptyString eq_refl) as (e & He & Hids & Hmask & _).
  exists e. split; [exact He|]. split; [exact Hids | exact Hmask].
Defined.

(** ** The data set and the test loader *)

Lemma py_index_nat {A} (l : list A) (i : nat) :
  py_index l (Z.of_nat i) = nth_error l i.
Proof.
  unfold py_index.
  replace (0 <=? Z.of_nat i)%Z with true by (symmetry; apply Z.leb_le; lia).
  cbn [andb].
  destruct (Z.of_nat i <? Z.of_nat (length l))%Z eqn:E.
  - rewrite Nat2Z.id. reflexivity.
  - apply Z.ltb_ge in E.
    replace (Z.of_nat i <? 0)%Z with false by (symmetry; apply Z.ltb_ge; lia).
    rewrite andb_false_r. symmetry. apply nth_error_None. lia.
Qed.

(** [concat], sizes and number of the batches of indices. *)
Lemma batch_sampler_spec k (sampler : list nat) :
  (0 < k)%nat ->
  forall batch, (length batch < k)%nat ->
  concat (batch_sampler k sampler batch) = batch ++ sampler /\
  Forall (fun b => (1 <= length b <= k)%nat) (batch_sampler k sampler batch) /\
  length (batch_sampler k sampler batch)
  = ((length batch + length sampler + k - 1) / k)%nat.
Proof.
  intros Hk. induction sampler as [|idx rest IH]; intros batch Hb.
  - cbn [batch_sampler]. destruct (length batch =? 0)%nat eqn:E.
    + apply Nat.eqb_eq in E. apply length_zero_iff_nil in E. subst.
      repeat split; [constructor|]. cbn [length Nat.add].
      symmetry. apply Nat.div_small. lia.
    + apply Nat.eqb_neq in E. cbn [concat length]. rewrite !app_nil_r.
      split; [reflexivity|]. split; [repeat constructor; lia|].
      rewrite Nat.add_0_r.
      replace (length batch + k - 1)%nat with (1 * k + (length batch - 1))%nat by lia.
      rewrite Nat.div_add_l by lia. rewrite Nat.div_small by lia. reflexivity.
  - cbn [batch_sampler].
    assert (Hlen : length (batch ++ [idx]) = S (length batch))
      by (rewrite length_app; cbn; lia).
    destruct (length (batch ++ [idx]) =? k)%nat eqn:E.
    + apply Nat.eqb_eq in E.
      destruct (IH [] ltac:(cbn; lia)) as (Hc & Hs & Hn).
      cbn [concat length]. rewrite Hc, Hn. cbn [app length Nat.add].
      split; [rewrite <- app_assoc; reflexivity|].
      split; [constructor; [lia | exact Hs]|].
      replace (length batch + S (length rest) + k - 1)%nat
        with (1 * k + (length rest + k - 1))%nat by lia.
      rewrite Nat.div_add_l by lia. lia.
    + apply Nat.eqb_neq in E.
      destruct (IH (batch ++ [idx]) ltac:(lia)) as (Hc & Hs & Hn).
      rewrite Hc, Hn, Hlen. cbn [length].
      split; [rewrite <- app_assoc; reflexivity|].
      split; [exact Hs|]. f_equal. lia.
Qed.

Lemma batch_sampler_In k (sampler : list nat) :
  forall batch b i,
  In b (batch_sampler k sampler batch) -> In i b -> In i (batch ++ sampler).
Proof.
  induction sampler as [|idx rest IH]; intros batch b i Hb Hi; cbn [batch_sampler] in Hb.
  - destruct (length batch =? 0)%nat; [contradiction|].
    destruct Hb as [<- | []]. rewrite app_nil_r. exact Hi.
  - destruct (length (batch ++ [idx]) =? k)%nat.
    + destruct Hb as [<- | Hb].
      * replace (batch ++ idx :: rest) with ((batch ++ [idx]) ++ rest)
          by (rewrite <- app_assoc; reflexivity).
        apply in_or_app. left. exact Hi.
      * replace (batch ++ idx :: rest) with ((batch ++ [idx]) ++ rest)
          by (rewrite <- app_assoc; reflexivity).
        apply in_or_app. right. exact (IH [] b i Hb Hi).
    + replace (batch ++ idx :: rest) with ((batch ++ [idx]) ++ rest)
        by (rewrite <- app_assoc; reflexivity).
      exact (IH _ b i Hb Hi).
Qed.

Lemma mapM_Some_map {A B} (f : A -> option B) (g : A -> B) (l : list A) :
  (forall a, In a l -> f a = Some (g a)) -> mapM f l = Some (map g l).
Proof.
  induction l as [|a l IH]; intros H; cbn [mapM map]; [reflexivity|].
  rewrite (H a (or_introl eq_refl)), IH; [reflexivity|].
  intros b Hb. apply H. right. exact Hb.
Qed.

Lemma mapM_None {A B} (f : A -> option B) (l : list A) a :
  In a l -> f a = None -> mapM f l = None.
Proof.
  induction l as [|b l IH]; intros Hin Ha; [contradiction|].
  cbn [mapM]. destruct Hin as [-> | Hin].
  - rewrite Ha. reflexivity.
  - destruct (f b); [|reflexivity]. rewrite (IH Hin Ha). reflexivity.
Qed.

Lemma getitem_in_range ds i :
  (i < length (encodings ds))%nat -> (i < length (labels ds))%nat ->
  YelpDataset_getitem ds (Z.of_nat i) = Some (item_at ds i).
Proof.
  intros He Hl. unfold YelpDataset_getitem, item_at. rewrite !py_index_nat.
  rewrite (nth_error_nth' (encodings ds) (mkEncoding [] [] []) He).
  rewrite (nth_error_nth' (labels ds) 0%Z Hl). reflexivity.
Qed.

Lemma getitem_missing_encoding ds i :
  (length (encodings ds) <= i)%nat ->
  YelpDataset_getitem ds (Z.of_nat i) = None.
Proof.
  intros He. unfold YelpDataset_getitem. rewrite py_index_nat.
  replace (nth_error (encodings ds) i) with (@None Encoding)
    by (symmetry; apply nth_error_None; exact He).
  reflexivity.
Qed.

Lemma same_length_forallb {A} (f : A -> list Z) (w : nat) (l : list A) :
  (forall a, In a l -> length (f a) = w) ->
  match l with
  | [] => true
  | it :: _ => forallb (fun i => (length (f i) =? length (f it))%nat) l
  end = true.
Proof.
  intros H. destruct l as [|it l]; [reflexivity|].
  apply forallb_forall. intros a Ha. apply Nat.eqb_eq.
  rewrite (H a Ha), (H it (or_introl eq_refl)). reflexivity.
Qed.

Lemma collate_rectangular (w : nat) (items : list Item) :
  (forall it, In it items ->
     length (item_input_ids it) = w /\ length (item_token_type_ids it) = w /\
     length (item_attention_mask it) = w) ->
  collate items
  = Some (mkBatch (map item_input_ids items) (map item_attention_mask items)
            (map item_labels items)).
Proof.
  intros H. unfold collate.
  rewrite (@same_length_forallb _ item_input_ids w items)
    by (intros a Ha; apply (H a Ha)).
  rewrite (@same_length_forallb _ item_token_type_ids w items)
    by (intros a Ha; apply (H a Ha)).
  rewrite (@same_length_forallb _ item_attention_mask w items)
    by (intros a Ha; apply (H a Ha)).
  reflexivity.
Qed.

Lemma map_nth_seq {A B} (f : A -> B) (d : A) (l : list A) n :
  (n <= length l)%nat ->
  map (fun i => f (nth i l d)) (seq 0 n) = firstn n (map f l).
Proof.
  intros Hn. apply (list_eq_nth (f d)).
  - rewrite length_map, length_seq, length_firstn, length_map. lia.
  - intros i Hi. rewrite length_map, length_seq in Hi.
    rewrite (nth_map_seq (f d) (fun i => f (nth i l d)) Hi).
    rewrite nth_firstn.
    replace (i <? n)%nat with true by (symmetry; apply Nat.ltb_lt; exact Hi).
    symmetry. apply (map_nth f l d i).
Qed.

(** The batches of the test loader, in closed form, for encodings whose
    rows all have the same length and labels that all have an encoding. *)
Lemma test_loader_rectangular (w : nat) (ds : YelpDataset) :
  (forall e, In e (encodings ds) ->
     length (input_ids e) = w /\ length (token_type_ids e) = w /\
     length (attention_mask e) = w) ->
  (length (labels ds) <= length (encodings ds))%nat ->
  test_loader ds
  = Some (map (fun idxs =>
                 mkBatch (map (fun i => item_input_ids (item_at ds i)) idxs)
                   (map (fun i => item_attention_mask (item_at ds i)) idxs)
                   (map (fun i => item_labels (item_at ds i)) idxs))
            (batch_sampler 8 (seq 0 (length (labels ds))) [])).
Proof.
  intros Hrect Hlen. unfold test_loader, DataLoader_iter, YelpDataset_len.
  apply mapM_Some_map. intros idxs Hidxs.
  assert (Hin : forall i, In i idxs -> (i < length (labels ds))%nat).
  { intros i Hi. pose proof (batch_sampler_In _ _ _ _ _ Hidxs Hi) as H.
    cbn [app] in H. apply in_seq in H. lia. }
  rewrite (mapM_Some_map _ (item_at ds))
    by (intros i Hi; apply getitem_in_range; [specialize (Hin i Hi); lia | exact (Hin i Hi)]).
  rewrite (@collate_rectangular w).
  - rewrite !map_map. reflexivity.
  - intros it Hit. apply in_map_iff in Hit. destruct Hit as [i [<- Hi]].
    unfold item_at. cbn [item_input_ids item_token_type_ids item_attention_mask].
    apply Hrect. apply nth_In. specialize (Hin i Hi). lia.
Qed.

Lemma concat_map_map {A B} (f : A -> B) (ll : list (list A)) :
  concat (map (map f) ll) = map f (concat ll).
Proof. symmetry. apply concat_map. Qed.

(** X24: from the texts to the batches of the test loader: the tokenised
    texts (at least one), wrapped in a [YelpDataset] with at most as many
    labels, are loaded without an exception, in order, in batches of 8 with
    a last batch of 1 to 8; the batches together hold every label once and
    the encodings of the first [len(labels)] texts; there are
    [len(test_loader)] of them. *)
Theorem test_loader_batches (tok : BertTokenizer) (texts : list String.string)
    (test_labels : list Z) :
  texts <> [] ->
  (length test_labels <= length texts)%nat ->
  exists rows batches,
    tokenize_function tok texts = Some rows /\
    test_loader (mkYelpDataset rows test_labels) = Some batches /\
    concat (map batch_labels batches) = test_labels /\
    concat (map batch_input_ids batches)
    = firstn (length test_labels) (map input_ids rows) /\
    concat (map batch_attention_mask batches)
    = firstn (length test_labels) (map attention_mask rows) /\
    Forall (fun b => (1 <= length (batch_labels b) <= 8)%nat /\
                     length (batch_input_ids b) = length (batch_labels b)) batches /\
    length batches = DataLoader_len (mkYelpDataset rows test_labels) 8.
Proof.
  intros Hne Hlen.
  set (rows := map (tokenizer_call tok PadMaxLength true 128) texts).
  assert (Hrows : forall e, In e rows ->
            length (input_ids e) = 128%nat /\ length (token_type_ids e) = 128%nat /\
            length (attention_mask e) = 128%nat).
  { intros e He. apply in_map_iff in He. destruct He as [text [<- _]].
    pose proof (@tokenizer_call_max_length tok 128 text ltac:(lia)) as H.
    cbv zeta in H. tauto. }
  assert (Htok : tokenize_function tok texts = Some rows)
    by (apply tokenize_function_nonempty; exact Hne).

  set (ds := mkYelpDataset rows test_labels).
  assert (Hle : (length (labels ds) <= length (encodings ds))%nat).
  { unfold ds, rows. cbn [labels encodings]. rewrite length_map. exact Hlen. }
  destruct (@batch_sampler_spec 8 (seq 0 (length test_labels)) ltac:(lia) []
              ltac:(cbn; lia)) as (Hc & Hs & Hn).
  cbn [app] in Hc.
  eexists rows, _. split; [exact Htok|].
  split; [apply (@test_loader_rectangular 128 ds Hrows Hle)|].
  cbn [labels ds]. rewrite !map_map. cbn [batch_labels batch_input_ids batch_attention_mask].
  split; [|split; [|split; [|split]]].
  - rewrite concat_map_map, Hc. unfold item_at, ds. cbn [item_labels labels].
    rewrite (@map_nth_seq _ _ (fun z => z) 0%Z test_labels (length test_labels))
      by lia.
    rewrite map_id. apply firstn_all.
  - rewrite concat_map_map, Hc. unfold item_at, ds. cbn [item_input_ids encodings].
    apply (map_nth_seq input_ids). unfold rows. rewrite length_map. exact Hlen.
  - rewrite concat_map_map, Hc. unfold item_at, ds. cbn [item_attention_mask encodings].
    apply (map_nth_seq attention_mask). unfold rows. rewrite length_map. exact Hlen.
  - apply Forall_forall. intros b Hb. apply in_map_iff in Hb.
    destruct Hb as [idxs [<- Hidxs]]. cbn [batch_labels batch_input_ids].
    rewrite !length_map. rewrite Forall_forall in Hs.
    split; [apply Hs; exact Hidxs | reflexivity].
  - rewrite length_map, Hn. unfold DataLoader_len, YelpDataset_len.
    cbn [length labels Nat.add]. rewrite length_seq. reflexivity.
Qed.

Lemma test_loader_batches_witness :
  exists rows batches,
    tokenize_function sample_tokenizer [String.EmptyString; String.EmptyString]
    = Some rows /\
    test_loader (mkYelpDataset rows [1; 0]%Z) = Some batches /\
    concat (map batch_labels batches) = [1; 0]%Z.
Proof.
  destruct (@test_loader_batches sample_tokenizer
              [String.EmptyString; String.EmptyString] [1; 0]%Z)
    as (rows & batches & Htok & Hload & Hlab & _); [discriminate | simpl; lia|].
  exists rows, batches. split; [exact Htok|]. split; [exact Hload | exact Hlab].
Defined.

(** X25: [YelpDataset.__len__] counts the labels only.  With fewer encodings than labels
    the data set claims items it cannot produce, and iterating the loader
    raises ([IndexError] in [__getitem__]). *)
Theorem test_loader_missing_encodings (ds : YelpDataset) :
  (length (encodings ds) < length (labels ds))%nat ->
  YelpDataset_len ds = length (labels ds) /\
  YelpDataset_getitem ds (Z.of_nat (length (encodings ds))) = None /\
  test_loader ds = None.
Proof.
  intros Hlt. split; [reflexivity|].
  split; [apply getitem_missing_encoding; lia|].
  unfold test_loader, DataLoader_iter, YelpDataset_len.
  destruct (@batch_sampler_spec 8 (seq 0 (length (labels ds))) ltac:(lia) []
              ltac:(cbn; lia)) as (Hc & _ & _).
  cbn [app] in Hc.
  assert (Hin : In (length (encodings ds)) (concat (batch_sampler 8 (seq 0 (length (labels ds))) []))).
  { rewrite Hc. apply in_seq. lia. }
  apply in_concat in Hin. destruct Hin as [idxs [Hidxs Hi]].
  apply (mapM_None _ _ idxs Hidxs).
  rewrite (mapM_None _ _ _ Hi); [reflexivity|].
  apply getitem_missing_encoding. lia.
Qed.

Lemma test_loader_missing_encodings_witness :
  test_loader (mkYelpDataset [mkEncoding [101; 102] [0; 0] [1; 1]]%Z [1; 0]%Z) = None.
Proof.
  apply (@test_loader_missing_encodings
           (mkYelpDataset [mkEncoding [101; 102] [0; 0] [1; 1]]%Z [1; 0]%Z)).
  simpl. lia.
Defined.

(** ** The training loop *)

Section TrainingSteps.

Variables P G O : Type.
Variable lib : Library P G O.

(** A count of the scheduler steps kept in the optimizer state:
    [scheduler.step()] increments it, [optimizer.step()] leaves it. *)
Variable steps : O -> nat.
Hypothesis scheduler_counts : forall o, steps (scheduler_step lib o) = S (steps o).
Hypothesis adamw_keeps : forall p g o, steps (snd (adamw_step lib p g o)) = steps o.

Lemma train_step_spec st batch :
  (exists r, bert_loss lib (model_parameters st) (model_training st) batch
               (generator st) = Some r) ->
  exists st' loss,
    train_step lib st batch = Some (st', loss) /\
    steps (optimizer st') = S (steps (optimizer st)) /\
    model_training st' = model_training st /\
    predictions st' = predictions st /\
    true_labels st' = true_labels st.
Proof.
  intros [[loss gen] Hloss]. unfold train_step. rewrite Hloss.
  pose proof (adamw_keeps (model_parameters st)
                (backward lib (model_parameters st) batch
                   (zero_grad lib (gradients st)))
                (optimizer st)) as Hk.
  destruct (adamw_step lib _ _ _) as [p o]. cbn [snd] in Hk.
  eexists _, _. split; [reflexivity|]. cbn.
  rewrite scheduler_counts, Hk. repeat split.
Qed.

Lemma train_batches_spec loader :
  forall st total,
  (forall batch p g, In batch loader ->
     exists r, bert_loss lib p (model_training st) batch g = Some r) ->
  exists st' total',
    train_batches lib st loader total = Some (st', total') /\
    steps (optimizer st') = (steps (optimizer st) + length loader)%nat /\
    model_training st' = model_training st /\
    predictions st' = predictions st /\
    true_labels st' = true_labels st.
Proof.
  induction loader as [|batch rest IH]; intros st total Hloss.
  - exists st, total. cbn. repeat split. lia.
  - destruct (@train_step_spec st batch) as (st1 & loss & E1 & Hs1 & Hm1 & Hp1 & Hl1).
    { apply Hloss. left. reflexivity. }
    cbn [train_batches]. rewrite E1. cbn [fst snd].
    destruct (IH st1 (total + loss)) as (st2 & total2 & E2 & Hs2 & Hm2 & Hp2 & Hl2).
    { intros b p g Hb. rewrite Hm1. apply Hloss. right. exact Hb. }
    exists st2, total2. split; [exact E2|].
    cbn [length]. repeat split; [lia | congruence | congruence | congruence].
Qed.

Lemma train_epochs_spec (train_loader : nat -> list Batch) nb epochs :
  (0 < nb)%nat ->
  (forall epoch, In epoch epochs -> length (train_loader epoch) = nb) ->
  forall st,
  (forall epoch batch p g, In epoch epochs -> In batch (train_loader epoch) ->
     exists r, bert_loss lib p (model_training st) batch g = Some r) ->
  exists st' losses,
    train_epochs lib st train_loader epochs = Some (st', losses) /\
    length losses = length epochs /\
    steps (optimizer st') = (steps (optimizer st) + nb * length epochs)%nat /\
    model_training st' = model_training st /\
    predictions st' = predictions st /\
    true_labels st' = true_labels st.
Proof.
  intros Hnb. induction epochs as [|epoch rest IH]; intros Hlen st Hloss.
  - exists st, []. cbn. repeat split. lia.
  - destruct (@train_batches_spec (train_loader epoch) st 0)
      as (st1 & total & E1 & Hs1 & Hm1 & Hp1 & Hl1).
    { intros b p g Hb. apply (Hloss epoch); [left; reflexivity | exact Hb]. }
    cbn [train_epochs]. unfold train_epoch. rewrite E1. cbn [fst snd].
    unfold py_div. rewrite (Hlen epoch (or_introl eq_refl)).
    replace (Z.of_nat nb =? 0)%Z with false by (symmetry; apply Z.eqb_neq; lia).
    cbn [fst snd].
    destruct (IH (fun e He => Hlen e (or_intror He)) st1)
      as (st2 & losses & E2 & Hn2 & Hs2 & Hm2 & Hp2 & Hl2).
    { intros e b p g He Hb. rewrite Hm1. apply (Hloss e); [right; exact He | exact Hb]. }
    rewrite E2. cbn [fst snd]. eexists _, _. split; [reflexivity|].
    rewrite (Hlen epoch (or_introl eq_refl)) in Hs1.
    cbn [length]. repeat split; [lia | nia | congruence | congruence | congruence].
Qed.

End TrainingSteps.

(** X26: the training cell and the scheduler are set up consistently: when
    every epoch yields [len(train_loader)] (at least one) batches and every
    forward pass with labels returns, the three epochs run without an
    exception, print three losses and take exactly
    [total_steps = len(train_loader) * 3] scheduler steps, the number the
    linear schedule was built for; the model is left in training mode and
    the lists of the evaluation are untouched. *)
Theorem training_takes_total_steps (P G O : Type) (lib : Library P G O)
    (steps : O -> nat) (st : Notebook P G O) (train_loader : nat -> list Batch)
    (train_loader_len : nat) :
  (forall o, steps (scheduler_step lib o) = S (steps o)) ->
  (forall p g o, steps (snd (adamw_step lib p g o)) = steps o) ->
  (0 < train_loader_len)%nat ->
  (forall epoch, (epoch < 3)%nat -> length (train_loader epoch) = train_loader_len) ->
  (forall epoch batch p g, (epoch < 3)%nat -> In batch (train_loader epoch) ->
     exists r, bert_loss lib p true batch g = Some r) ->
  exists st' losses,
    training_loop lib st train_loader = Some (st', losses) /\
    length losses = 3%nat /\
    steps (optimizer st')
    = (steps (optimizer st) + total_steps train_loader_len)%nat /\
    model_training st' = true /\
    predictions st' = predictions st /\
    true_labels st' = true_labels st.
Proof.
  intros Hsched Hadam Hnb Hlen Hloss. unfold training_loop, total_steps.
  destruct (@train_epochs_spec P G O lib steps Hsched Hadam train_loader
              train_loader_len (seq 0 3) Hnb)
    with (st := mkNotebook (model_parameters st) true (gradients st)
                  (optimizer st) (generator st) (predictions st) (true_labels st))
    as (st' & losses & E & Hn & Hs & Hm & Hp & Hl).
  - intros epoch He. apply Hlen. apply in_seq in He. lia.
  - intros epoch batch p g He Hb. apply (Hloss epoch); [|exact Hb].
    apply in_seq in He. lia.
  - exists st', losses. split; [exact E|]. cbn in *.
    repeat split; [exact Hn | lia | exact Hm | exact Hp | exact Hl].
Qed.

Lemma training_takes_total_steps_witness :
  exists st' losses,
    training_loop counting_library (mkNotebook tt false tt 0%nat keep_all [] [])
      (fun _ => sample_loader) = Some (st', losses) /\
    length losses = 3%nat /\
    optimizer st' = (0 + total_steps 1)%nat.
Proof.
  destruct (@training_takes_total_steps unit unit nat counting_library (fun o => o)
              (mkNotebook tt false tt 0%nat keep_all [] [])
              (fun _ => sample_loader) 1)
    as (st' & losses & E & Hn & Hs & _); try reflexivity; try lia.
  - intros epoch batch p g _ _. eexists. reflexivity.
  - exists st', losses. split; [exact E|]. split; [exact Hn | exact Hs].
Defined.

(** ** The reported accuracy *)

Lemma filter_length_le {A} (p : A -> bool) (l : list A) :
  (length (filter p l) <= length l)%nat.
Proof.
  induction l as [|a l IH]; [reflexivity|]. cbn [filter].
  destruct (p a); cbn [length]; lia.
Qed.

Lemma filter_length_all {A} (p : A -> bool) (l : list A) :
  length (filter p l) = length l <-> forallb p l = true.
Proof.
  induction l as [|a l IH]; [split; reflexivity|]. cbn [filter forallb].
  pose proof (filter_length_le p l).
  destruct (p a); cbn [length andb].
  - rewrite <- IH. split; lia.
  - split; [lia | discriminate].
Qed.

Lemma all_correct (y_true : list Z) :
  forall y_pred, length y_true = length y_pred ->
  forallb (fun tp : Z * nat => (fst tp =? Z.of_nat (snd tp))%Z) (combine y_true y_pred)
  = true <->
  map Z.of_nat y_pred = y_true.
Proof.
  induction y_true as [|t y_true IH]; intros [|p y_pred] Hlen;
    try discriminate; [split; reflexivity|].
  cbn [combine forallb map fst snd]. injection Hlen as Hlen.
  rewrite andb_true_iff, (IH y_pred Hlen), Z.eqb_eq. split.
  - intros [-> ->]. reflexivity.
  - intros E. injection E as -> ->. split; reflexivity.
Qed.

(** X27: the accuracy the evaluation cell prints lies between 0 and 1, and it
    is 1 exactly when every prediction equals its true label. *)
Theorem evaluation_accuracy_range (P G O : Type) (lib : Library P G O)
    (st st' : Notebook P G O) (loader : list Batch) (accuracy : R) :
  evaluation lib st loader = Some (st', accuracy) ->
  0 <= accuracy <= 1 /\
  (accuracy = 1 <-> map Z.of_nat (predictions st') = true_labels st').
Proof.
  unfold evaluation.
  destruct (eval_loop lib _ loader) as [st1|]; [|discriminate].
  destruct (accuracy_score _ _) as [acc|] eqn:Eacc; [|discriminate].
  intros E. injection E as <- <-.
  apply accuracy_score_fraction in Eacc. destruct Eacc as (Hlen & Hpos & ->).
  unfold fraction_correct.
  set (p := fun tp : Z * nat => (fst tp =? Z.of_nat (snd tp))%Z).
  set (l := combine (true_labels st1) (predictions st1)).
  assert (Hl : length l = length (predictions st1))
    by (unfold l; rewrite length_combine; lia).
  pose proof (filter_length_le p l) as Hle. rewrite Hl in Hle.
  assert (Hn : 0 < INR (length (predictions st1))) by (apply lt_0_INR; exact Hpos).
  apply le_INR in Hle. pose proof (pos_INR (length (filter p l))) as H0.
  split.
  - split.
    + apply Rmult_le_pos; [exact H0 | left; apply Rinv_0_lt_compat; exact Hn].
    + apply Rmult_le_reg_r with (INR (length (predictions st1))); [exact Hn|].
      unfold Rdiv. rewrite Rmult_assoc, Rinv_l by lra. lra.
  - rewrite <- (all_correct _ _ Hlen). fold p l.
    rewrite <- filter_length_all, Hl. split.
    + intros E. apply INR_eq.
      apply (Rmult_eq_compat_r (INR (length (predictions st1)))) in E.
      unfold Rdiv in E. rewrite Rmult_assoc, Rinv_l in E by lra. lra.
    + intros ->. unfold Rdiv. apply Rinv_r. lra.
Qed.

Lemma evaluation_accuracy_range_witness :
  exists st' accuracy,
    evaluation sample_library sample_notebook sample_loader = Some (st', accuracy) /\
    0 <= accuracy <= 1.
Proof.
  assert (E : exists st' accuracy,
            evaluation sample_library sample_notebook sample_loader
            = Some (st', accuracy)).
  { unfold evaluation, sample_loader. cbn [eval_loop].
    unfold eval_step, sample_library, argmax_rows, accuracy_score.
    cbn. eexists _, _. reflexivity. }
  destruct E as (st' & accuracy & E). exists st', accuracy. split; [exact E|].
  exact (proj1 (@evaluation_accuracy_range unit unit unit sample_library
                  sample_notebook st' sample_loader accuracy E)).
Defined.
